(* Reed-Solomon codec over GF(2^8) (src/rs-codec.ts): a shallow embedding of
   Generic_GF, Generic_GF_Poly, RS_Encoder and RS_Decoder, and the
   properties of the specification proved about it.

   Conventions of the embedding.
   - A JavaScript number is a Z.  On every path considered the numbers are
     small non-negative integers (bytes, table indices, lengths), so no
     32-bit wrap-around happens and Z.lxor / Z.land are the operators ^ and &.
   - An Int32Array is a seq Z.  A read outside the array is None (undefined
     in the source); a write outside the array is dropped, as for any typed
     array.
   - A thrown Error is Throw e; a while loop runs on fuel and yields
     OutOfFuel when the fuel is used up.  Each theorem that speaks about a
     returned value shows that the fuel given by the model is enough.
   - encode and decode mutate their buffer: they return the final buffer
     together with the outcome, so the buffer at the time of a throw is
     visible.  The encoder also threads its cache of generator polynomials. *)

From Stdlib Require Import ZArith Lia.
From HB Require Import structures.
From mathcomp Require Import boot ssralg poly polydiv ring_tactic.

Set Implicit Arguments.
Unset Strict Implicit.
Unset Printing Implicit Defensive.

(* ------------------------------------------------------------------ *)
(** * Outcomes                                                          *)
(* ------------------------------------------------------------------ *)

(** The Errors thrown by the source, one constructor per throw site kind. *)
Inductive exn : Type :=
  | IllegalArgumentException      (* 'IllegalArgumentException()' *)
  | ArithmeticException           (* 'ArithmeticException()' *)
  | DivideByZero                  (* 'Divide by 0' *)
  | NoErrorCorrectionBytes        (* 'No error correction bytes' *)
  | NoDataBytes                   (* 'No data bytes provided' *)
  | RLastWasZero                  (* 'r_{i-1} was zero' *)
  | DivisionFailedToReduce        (* 'Division algorithm failed to reduce polynomial?' *)
  | SigmaTildeZero                (* 'sigmaTilde(0) was zero' *)
  | LocatorDegreeMismatch         (* 'Error locator degree does not match number of roots' *)
  | BadErrorLocation              (* 'Bad error location' *)
  | RangeError                    (* raised by the typed-array primitives *)
  | TypeError.                    (* property access on undefined *)

Inductive outcome (A : Type) : Type :=
  | Return of A
  | Throw of exn
  | OutOfFuel.

Arguments Throw {A} e.
Arguments OutOfFuel {A}.

Definition bind {A B : Type} (m : outcome A) (k : A -> outcome B) : outcome B :=
  match m with
  | Return a => k a
  | Throw e => Throw e
  | OutOfFuel => OutOfFuel
  end.

Notation "x <- m ;; k" := (bind m (fun x => k))
  (at level 61, m at next level, right associativity).
Notation "' p <- m ;; k" := (bind m (fun p => k))
  (at level 61, p pattern, m at next level, right associativity).

Definition raises {A : Type} (m : outcome A) : bool :=
  if m is Throw _ then true else false.

Definition returns {A : Type} (m : outcome A) : bool :=
  if m is Return _ then true else false.

(* ------------------------------------------------------------------ *)
(** * Typed arrays                                                      *)
(* ------------------------------------------------------------------ *)

Definition Int32Array := seq Z.

(** [a[i]]: undefined (None) outside [0, a.length). *)
Definition ta_read (a : Int32Array) (i : Z) : option Z :=
  if (i <? 0)%Z then None
  else if Z.to_nat i < size a then Some (nth 0%Z a (Z.to_nat i)) else None.

(** ToInt32: undefined becomes 0 when it is stored in an Int32Array or used
    as an operand of ^. *)
Definition to_int32 (v : option Z) : Z := if v is Some z then z else 0%Z.

Definition ta_get (a : Int32Array) (i : Z) : Z := to_int32 (ta_read a i).

(** [a[i] = v]: dropped outside [0, a.length). *)
Definition ta_write (a : Int32Array) (i : Z) (v : Z) : Int32Array :=
  if (0 <=? i)%Z && (Z.to_nat i < size a) then set_nth 0%Z a (Z.to_nat i) v
  else a.

(** [a.set(src, offset)]: RangeError when src does not fit at offset. *)
Definition ta_set (a src : Int32Array) (offset : Z) : outcome Int32Array :=
  if (offset <? 0)%Z || (Z.of_nat (size a) <? offset + Z.of_nat (size src))%Z
  then Throw RangeError
  else Return (take (Z.to_nat offset) a ++ src
               ++ drop (Z.to_nat offset + size src) a).

(** [new Int32Array(n)] filled from [src] at offset 0 (src no longer than n). *)
Definition ta_of_prefix (n : Z) (src : Int32Array) : Int32Array :=
  src ++ nseq (Z.to_nat n - size src) 0%Z.

(* ------------------------------------------------------------------ *)
(** * Generic_GF                                                        *)
(* ------------------------------------------------------------------ *)

Module Generic_GF.

Record t : Type := Make {
  primitive : Z;
  size : Z;
  generator_base : Z;
  exp_table : Int32Array;
  log_table : Int32Array
}.

(** One step of the first constructor loop: [x *= 2; if (x >= size)
    { x ^= primitive; x &= size - 1 }]. *)
Definition double (primitive size x : Z) : Z :=
  let x2 := (x * 2)%Z in
  if (x2 >=? size)%Z then Z.land (Z.lxor x2 primitive) (size - 1) else x2.

(** The first loop: n entries starting from x. *)
Fixpoint exp_loop (primitive size : Z) (n : nat) (x : Z) : Int32Array :=
  if n is n'.+1 then x :: exp_loop primitive size n' (double primitive size x)
  else [::].

(** The second loop: [log_table[exp_table[i]] = i] for i = 0 .. n-1. *)
Definition log_loop (exp_table : Int32Array) (n : nat) (log_table : Int32Array)
  : Int32Array :=
  foldl (fun lt i => ta_write lt (ta_get exp_table (Z.of_nat i)) (Z.of_nat i))
        log_table (iota 0 n).

(** The constructor. *)
Definition new (primitive size generator_base : Z) : t :=
  let exp_table := exp_loop primitive size (Z.to_nat size) 1%Z in
  let log_table :=
    log_loop exp_table (Z.to_nat (size - 1)) (nseq (Z.to_nat size) 0%Z) in
  Make primitive size generator_base exp_table log_table.

Definition add_or_subtract (a b : Z) : Z := Z.lxor a b.

(** [exp(a)]: the table entry; an index outside the table gives undefined,
    which both callers (an Int32Array literal in build_generator, the
    argument of evaluate_at in decode) treat exactly as 0. *)
Definition exp (f : t) (a : Z) : Z := ta_get (exp_table f) a.

Definition log (f : t) (a : Z) : outcome Z :=
  if (a =? 0)%Z then Throw IllegalArgumentException
  else Return (ta_get (log_table f) a).

Definition inverse (f : t) (a : Z) : outcome Z :=
  if (a =? 0)%Z then Throw ArithmeticException
  else Return (ta_get (exp_table f) (size f - ta_get (log_table f) a - 1)).

Definition multiply (f : t) (a b : Z) : Z :=
  if (a =? 0)%Z || (b =? 0)%Z then 0%Z
  else ta_get (exp_table f)
         (Z.rem (ta_get (log_table f) a + ta_get (log_table f) b) (size f - 1)).

End Generic_GF.

(* ------------------------------------------------------------------ *)
(** * Generic_GF_Poly                                                   *)
(* ------------------------------------------------------------------ *)

(** A polynomial is its coefficient array, most significant first.  Every
    polynomial of an encoder or decoder is built from its one field, which
    is passed along as [f]; the identity test [this.field !== other.field]
    of the binary operations therefore never fires and is left out. *)
Module Generic_GF_Poly.

Definition t := Int32Array.

(** COEFFICIENTS_ZERO and COEFFICIENTS_ONE, which back field.zero and
    field.one. *)
Definition zero : t := [:: 0%Z].
Definition one : t := [:: 1%Z].

(** The while loop of the constructor: skip the zeros in front. *)
Fixpoint drop_zeros (c : Int32Array) : Int32Array :=
  if c is x :: c' then if (x =? 0)%Z then drop_zeros c' else c else [::].

(** The constructor on a non-empty array: leading zeros are dropped, an
    all-zero array becomes COEFFICIENTS_ZERO. *)
Definition strip (coefficients : Int32Array) : t :=
  if (1 < size coefficients) && (head 0 coefficients =? 0)%Z then
    if drop_zeros (behead coefficients) is x :: c' then x :: c' else zero
  else coefficients.

(** [new Generic_GF_Poly(field, coefficients)]. *)
Definition new (coefficients : Int32Array) : outcome t :=
  if size coefficients == 0 then Throw IllegalArgumentException
  else Return (strip coefficients).

Definition degree (p : t) : Z := Z.of_nat (size p) - 1.

Definition is_zero (p : t) : bool := (ta_get p 0 =? 0)%Z.

Definition get_coefficient (p : t) (degree : Z) : option Z :=
  ta_read p (Z.of_nat (size p) - 1 - degree).

(** The leading coefficient, [p.get_coefficient(p.degree)]. *)
Definition leading (p : t) : Z := to_int32 (get_coefficient p (degree p)).

Definition evaluate_at (f : Generic_GF.t) (p : t) (a : Z) : Z :=
  if (a =? 0)%Z then to_int32 (get_coefficient p 0)
  else if (a =? 1)%Z then
    foldl (fun result c => Generic_GF.add_or_subtract result c) 0%Z p
  else
    foldl (fun result c =>
             Generic_GF.add_or_subtract (Generic_GF.multiply f a result) c)
          (ta_get p 0) (behead p).

(** [this.add_or_subtract(other, buf)].  With [buf] the sum is written into
    the storage of [this]; divide is the only caller that passes it, always
    with [this.coefficients], and never reads the old contents again, so the
    sum is modelled by value. *)
Definition add_or_subtract (p other : t) : t :=
  if is_zero p then other
  else if is_zero other then p
  else
    let: (smaller, larger) :=
      if size other < size p then (other, p) else (p, other) in
    let length_diff := size larger - size smaller in
    strip (take length_diff larger
           ++ [seq Generic_GF.add_or_subtract sl.1 sl.2
              | sl <- zip smaller (drop length_diff larger)]).

(** The double loop of multiply_poly over the product array. *)
Definition multiply_loop (f : Generic_GF.t) (a b : t) : Int32Array :=
  foldl (fun product i =>
    foldl (fun product j =>
      set_nth 0%Z product (i + j)
        (Generic_GF.add_or_subtract (nth 0%Z product (i + j))
           (Generic_GF.multiply f (nth 0%Z a i) (nth 0%Z b j))))
      product (iota 0 (size b)))
    (nseq (size a + size b - 1) 0%Z) (iota 0 (size a)).

Definition multiply_poly (f : Generic_GF.t) (p other : t) : t :=
  if is_zero p || is_zero other then zero
  else strip (multiply_loop f p other).

Definition multiply_scalar (f : Generic_GF.t) (p : t) (scalar : Z) : t :=
  if (scalar =? 0)%Z then zero
  else if (scalar =? 1)%Z then p
  else strip [seq Generic_GF.multiply f c scalar | c <- p].

Definition multiply_by_monomial (f : Generic_GF.t) (p : t)
    (degree coefficient : Z) : outcome t :=
  if (degree <? 0)%Z then Throw IllegalArgumentException
  else if (coefficient =? 0)%Z then Return zero
  else Return (strip ([seq Generic_GF.multiply f c coefficient | c <- p]
                      ++ nseq (Z.to_nat degree) 0%Z)).

(** Generic_GF.build_monomial; it lives here because it builds a
    polynomial. *)
Definition build_monomial (degree coefficient : Z) : outcome t :=
  if (degree <? 0)%Z then Throw IllegalArgumentException
  else if (coefficient =? 0)%Z then Return zero
  else Return (strip (coefficient :: nseq (Z.to_nat degree) 0%Z)).

(** The while loop of divide. *)
Fixpoint divide_loop (f : Generic_GF.t) (other : t)
    (inverse_denominator_leading_term : Z) (fuel : nat)
    (quotient remainder : t) : outcome (t * t) :=
  if (degree remainder >=? degree other)%Z && ~~ is_zero remainder then
    if fuel is fuel'.+1 then
      let degree_difference := (degree remainder - degree other)%Z in
      let scale :=
        Generic_GF.multiply f (leading remainder)
          inverse_denominator_leading_term in
      term <- multiply_by_monomial f other degree_difference scale ;;
      iteration_quotient <- build_monomial degree_difference scale ;;
      divide_loop f other inverse_denominator_leading_term fuel'
        (add_or_subtract quotient iteration_quotient)
        (add_or_subtract remainder term)
    else OutOfFuel
  else Return (quotient, remainder).

(** [this.divide(other)]; every turn of the loop shortens the remainder when
    the field is well formed, so the length of the dividend is enough fuel. *)
Definition divide (f : Generic_GF.t) (p other : t) : outcome (t * t) :=
  if is_zero other then Throw DivideByZero
  else
    inverse_denominator_leading_term <-
      Generic_GF.inverse f (leading other) ;;
    divide_loop f other inverse_denominator_leading_term (size p) zero p.

End Generic_GF_Poly.

(* ------------------------------------------------------------------ *)
(** * RS_Encoder                                                        *)
(* ------------------------------------------------------------------ *)

Module RS_Encoder.

(** The mutable state of an encoder: cached_generators. *)
Definition cache := seq Generic_GF_Poly.t.

(** The constructor: the cache holds the generator of degree 0. *)
Definition new : cache := [:: Generic_GF_Poly.strip [:: 1%Z]].

(** [cached_generators[i]] (an ordinary array: undefined outside). *)
Definition cache_read (c : cache) (i : Z) : option Generic_GF_Poly.t :=
  if (i <? 0)%Z then None
  else if Z.to_nat i < size c then Some (nth Generic_GF_Poly.zero c (Z.to_nat i))
  else None.

(** One turn of the loop of build_generator, for degree d. *)
Definition next_generator (f : Generic_GF.t) (last_generator : Generic_GF_Poly.t)
    (d : Z) : Generic_GF_Poly.t :=
  Generic_GF_Poly.multiply_poly f last_generator
    (Generic_GF_Poly.strip
       [:: 1%Z;
           Generic_GF.exp f (d - 1 + Generic_GF.generator_base f)]).

Definition build_generator (f : Generic_GF.t) (c : cache) (degree : Z)
  : cache * option Generic_GF_Poly.t :=
  if (degree >=? Z.of_nat (size c))%Z then
    let c' :=
      foldl (fun c d =>
               rcons c (next_generator f (last Generic_GF_Poly.zero c)
                          (Z.of_nat d)))
            c (iota (size c) (Z.to_nat degree + 1 - size c)) in
    (c', cache_read c' degree)
  else (c, cache_read c degree).

(** The final writes of encode: the zero padding, then the remainder. *)
Definition write_parity (data : Int32Array) (data_bytes ec_bytes : Z)
    (coefficients : Int32Array) : Int32Array * outcome unit :=
  let num_zero_coefficients := (ec_bytes - Z.of_nat (size coefficients))%Z in
  let data1 :=
    foldl (fun data i => ta_write data (data_bytes + Z.of_nat i) 0%Z)
          data (iota 0 (Z.to_nat num_zero_coefficients)) in
  match ta_set data1 coefficients (data_bytes + num_zero_coefficients) with
  | Return data2 => (data2, Return tt)
  | Throw e => (data1, Throw e)
  | OutOfFuel => (data1, OutOfFuel)
  end.

(** What encode computes before it writes: the remainder of the division. *)
Definition parity (f : Generic_GF.t) (generator : option Generic_GF_Poly.t)
    (data : Int32Array) (data_bytes ec_bytes : Z) : outcome Int32Array :=
  let info_coefficients :=
    ta_of_prefix data_bytes (take (Z.to_nat data_bytes) data) in
  info <- Generic_GF_Poly.new info_coefficients ;;
  info <- Generic_GF_Poly.multiply_by_monomial f info ec_bytes 1 ;;
  generator <- (if generator is Some g then Return g else Throw TypeError) ;;
  qr <- Generic_GF_Poly.divide f info generator ;;
  Return qr.2.

(** [encode(data, ec_bytes)] on an encoder whose cache is [c]: the new
    cache, the final buffer and the outcome. *)
Definition encode (f : Generic_GF.t) (c : cache) (data : Int32Array)
    (ec_bytes : Z) : cache * Int32Array * outcome unit :=
  if (ec_bytes =? 0)%Z then (c, data, Throw NoErrorCorrectionBytes)
  else
    let data_bytes := (Z.of_nat (size data) - ec_bytes)%Z in
    if (data_bytes <=? 0)%Z then (c, data, Throw NoDataBytes)
    else
      let: (c', generator) := build_generator f c ec_bytes in
      match parity f generator data data_bytes ec_bytes with
      | Return coefficients =>
          let: (data', o) := write_parity data data_bytes ec_bytes coefficients in
          (c', data', o)
      | Throw e => (c', data, Throw e)
      | OutOfFuel => (c', data, OutOfFuel)
      end.

End RS_Encoder.

(* ------------------------------------------------------------------ *)
(** * RS_Decoder                                                        *)
(* ------------------------------------------------------------------ *)

Module RS_Decoder.

Import Generic_GF_Poly.

(** The first loop of decode: [eval_result] for i = 0 .. ec_bytes-1. *)
Definition syndrome_values (f : Generic_GF.t) (poly : t) (ec_bytes : Z)
  : seq Z :=
  [seq evaluate_at f poly
         (Generic_GF.exp f (Z.of_nat i + Generic_GF.generator_base f))
  | i <- iota 0 (Z.to_nat ec_bytes)].

(** The inner while loop of run_euclidean_algorithm. *)
Fixpoint euclid_divide (f : Generic_GF.t) (r_last : t) (dlt_inverse : Z)
    (fuel : nat) (q r : t) : outcome (t * t) :=
  if (degree r >=? degree r_last)%Z && ~~ is_zero r then
    if fuel is fuel'.+1 then
      let degree_diff := (degree r - degree r_last)%Z in
      let scale := Generic_GF.multiply f (leading r) dlt_inverse in
      m <- build_monomial degree_diff scale ;;
      s <- multiply_by_monomial f r_last degree_diff scale ;;
      euclid_divide f r_last dlt_inverse fuel'
        (add_or_subtract q m) (add_or_subtract r s)
    else OutOfFuel
  else Return (q, r).

(** The outer while loop; [r.degree >= R / 2] is a comparison of numbers,
    written without the fraction.  It returns the last [t] and [r]. *)
Fixpoint euclid_loop (f : Generic_GF.t) (R : Z) (fuel : nat)
    (r_last r t_last t0 : t) : outcome (t * t) :=
  if (2 * degree r >=? R)%Z then
    if fuel is fuel'.+1 then
      let r_last_last := r_last in
      let t_last_last := t_last in
      let r_last := r in
      let t_last := t0 in
      if is_zero r_last then Throw RLastWasZero
      else
        dlt_inverse <- Generic_GF.inverse f (leading r_last) ;;
        qr <- euclid_divide f r_last dlt_inverse (size r_last_last)
                zero r_last_last ;;
        let t' := add_or_subtract (multiply_poly f qr.1 t_last) t_last_last in
        if (degree qr.2 >=? degree r_last)%Z then Throw DivisionFailedToReduce
        else euclid_loop f R fuel' r_last qr.2 t_last t'
    else OutOfFuel
  else Return (t0, r).

(** run_euclidean_algorithm: (sigma, omega).  Every turn of the outer loop
    lowers the degree of r, so the length of the larger argument is enough
    fuel. *)
Definition run_euclidean_algorithm (f : Generic_GF.t) (a b : t) (R : Z)
  : outcome (t * t) :=
  let: (a_, b_) := if (degree a <? degree b)%Z then (b, a) else (a, b) in
  tr <- euclid_loop f R (size a_) a_ b_ zero one ;;
  let sigma_tilde_at_zero := to_int32 (get_coefficient tr.1 0) in
  if (sigma_tilde_at_zero =? 0)%Z then Throw SigmaTildeZero
  else
    inv <- Generic_GF.inverse f sigma_tilde_at_zero ;;
    Return (multiply_scalar f tr.1 inv, multiply_scalar f tr.2 inv).

(** The search loop of find_error_locations: the state is (result, e). *)
Definition chien_search (f : Generic_GF.t) (error_locator : t) (num_errors : Z)
  : outcome (Int32Array * Z) :=
  foldl (fun st i =>
           ' (result, e) <- st ;;
           if (e <? num_errors)%Z then
             if (evaluate_at f error_locator (Z.of_nat i) =? 0)%Z then
               x <- Generic_GF.inverse f (Z.of_nat i) ;;
               Return (ta_write result e x, (e + 1)%Z)
             else Return (result, e)
           else Return (result, e))
        (Return (nseq (Z.to_nat num_errors) 0%Z, 0%Z))
        (iota 1 (Z.to_nat (Generic_GF.size f) - 1)).

Definition find_error_locations (f : Generic_GF.t) (error_locator : t)
  : outcome Int32Array :=
  let num_errors := degree error_locator in
  if (num_errors =? 1)%Z then
    Return [:: to_int32 (get_coefficient error_locator 1)]
  else
    ' (result, e) <- chien_search f error_locator num_errors ;;
    if (e =? num_errors)%Z then Return result
    else Throw LocatorDegreeMismatch.

(** The inner loop of find_error_magnitudes, for the location of index i. *)
Definition forney_denominator (f : Generic_GF.t) (error_locations : Int32Array)
    (i : nat) (xi_inverse : Z) : Z :=
  foldl (fun denominator j =>
           if i != j then
             Generic_GF.multiply f denominator
               (Generic_GF.add_or_subtract 1
                  (Generic_GF.multiply f (nth 0%Z error_locations j)
                     xi_inverse))
           else denominator)
        1%Z (iota 0 (size error_locations)).

Definition error_magnitude (f : Generic_GF.t) (error_evaluator : t)
    (error_locations : Int32Array) (i : nat) : outcome Z :=
  xi_inverse <- Generic_GF.inverse f (nth 0%Z error_locations i) ;;
  let denominator := forney_denominator f error_locations i xi_inverse in
  d <- Generic_GF.inverse f denominator ;;
  let result :=
    Generic_GF.multiply f (evaluate_at f error_evaluator xi_inverse) d in
  if (Generic_GF.generator_base f =? 0)%Z then Return result
  else Return (Generic_GF.multiply f result xi_inverse).

Definition find_error_magnitudes (f : Generic_GF.t) (error_evaluator : t)
    (error_locations : Int32Array) : outcome Int32Array :=
  foldl (fun st i =>
           result <- st ;;
           m <- error_magnitude f error_evaluator error_locations i ;;
           Return (rcons result m))
        (Return [::]) (iota 0 (size error_locations)).

(** The last loop of decode: the buffer and the outcome so far. *)
Definition apply_corrections (f : Generic_GF.t) (received : Int32Array)
    (error_locations error_magnitudes : Int32Array)
  : Int32Array * outcome unit :=
  foldl (fun st i =>
           let: (received, o) := st in
           if o is Return _ then
             match Generic_GF.log f (nth 0%Z error_locations i) with
             | Return l =>
                 let position := (Z.of_nat (size received) - 1 - l)%Z in
                 if (position <? 0)%Z then (received, Throw BadErrorLocation)
                 else
                   (ta_write received position
                      (Generic_GF.add_or_subtract (ta_get received position)
                         (nth 0%Z error_magnitudes i)),
                    Return tt)
             | Throw e => (received, Throw e)
             | OutOfFuel => (received, OutOfFuel)
             end
           else st)
        (received, Return tt) (iota 0 (size error_locations)).

(** What decode computes before it writes: locations and magnitudes. *)
Definition locate (f : Generic_GF.t) (syndrome_coefficients : Int32Array)
    (ec_bytes : Z) : outcome (Int32Array * Int32Array) :=
  syndrome <- new syndrome_coefficients ;;
  mono <- build_monomial ec_bytes 1 ;;
  sigma_omega <- run_euclidean_algorithm f mono syndrome ec_bytes ;;
  error_locations <- find_error_locations f sigma_omega.1 ;;
  error_magnitudes <- find_error_magnitudes f sigma_omega.2 error_locations ;;
  Return (error_locations, error_magnitudes).

(** [decode(received, ec_bytes)]: the final buffer and the outcome.
    [new Int32Array(ec_bytes)] is a RangeError for a negative length. *)
Definition decode (f : Generic_GF.t) (received : Int32Array) (ec_bytes : Z)
  : Int32Array * outcome unit :=
  match new received with
  | Return poly =>
      if (ec_bytes <? 0)%Z then (received, Throw RangeError)
      else
        let syndrome_coefficients := rev (syndrome_values f poly ec_bytes) in
        if all (fun s => (s =? 0)%Z) syndrome_coefficients
        then (received, Return tt)
        else
          match locate f syndrome_coefficients ec_bytes with
          | Return lm => apply_corrections f received lm.1 lm.2
          | Throw e => (received, Throw e)
          | OutOfFuel => (received, OutOfFuel)
          end
  | Throw e => (received, Throw e)
  | OutOfFuel => (received, OutOfFuel)
  end.

End RS_Decoder.

(* ------------------------------------------------------------------ *)
(** * The predefined fields                                             *)
(* ------------------------------------------------------------------ *)

(** The two lazily built singletons; a field is never changed after its
    construction, so each is the value its constructor returns. *)
Definition GF_DATA_MATRIX_256 : Generic_GF.t := Generic_GF.new 0x012d 256 1.
Definition GF_QR_CODE_256 : Generic_GF.t := Generic_GF.new 0x011d 256 0.

(* ------------------------------------------------------------------ *)
(** * Notions used by the statements                                    *)
(* ------------------------------------------------------------------ *)

HB.instance Definition _ := hasDecEq.Build Z Z.eqb_spec.

(** The invariant of the data model (spec, section 3):
    exp_table[log_table[x]] == x for every nonzero x, and exp_table is
    cyclic with period size - 1. *)
Definition GF_invariant (f : Generic_GF.t) : bool :=
  all (fun x : nat =>
         (Generic_GF.exp f (ta_get (Generic_GF.log_table f) (Z.of_nat x))
          =? Z.of_nat x)%Z)
      (iota 1 (Z.to_nat (Generic_GF.size f) - 1))
  && (Generic_GF.exp f (Generic_GF.size f - 1) =? Generic_GF.exp f 0)%Z.

Inductive GF_valid (f : Generic_GF.t) : Prop :=
  GF_valid_intro of GF_invariant f.

Definition GF_valid_inv (f : Generic_GF.t) (h : GF_valid f) : GF_invariant f :=
  let: GF_valid_intro h := h in h.

(** The elements of a field of size s, and the bytes. *)
Definition elt (s x : Z) : Prop := (0 <= x < s)%Z.
Definition byte (x : Z) : Prop := (0 <= x < 256)%Z.

(** The powers of the generator 2, by repeated doubling. *)
Definition pw (primitive s : Z) (n : nat) : Z :=
  iter n (Generic_GF.double primitive s) 1%Z.

(** The carrier of the abstract field: the 256 byte values.  The field
    structure it receives comes from the tables of a Generic_GF. *)
Inductive gf : predArgType := Gf of 'I_256.
Definition gf_ord (x : gf) : 'I_256 := let: Gf i := x in i.
HB.instance Definition _ := [isNew for gf_ord].
HB.instance Definition _ := [Finite of gf by <:].

Definition ofF (x : gf) : Z := Z.of_nat (gf_ord x).
Definition toF (z : Z) : gf := Gf (inord (Z.to_nat z)).

Definition is_byte (z : Z) : bool := (0 <=? z)%Z && (z <? 256)%Z.

(** The invariant of Generic_GF_Poly: no leading zero coefficient unless
    the polynomial is the single coefficient 0; and the coefficients of a
    polynomial over GF(2^8) are bytes. *)
Definition normal (c : seq Z) : bool :=
  (c == [:: 0%Z]) || (head 0%Z c != 0%Z).

Definition wfp (c : seq Z) : bool := all is_byte c && normal c.

(** The generator polynomial of degree d as build_generator computes it,
    and the invariant of the cache of an encoder: entry d is the generator
    of degree d. *)
Fixpoint generator (f : Generic_GF.t) (d : nat) : Generic_GF_Poly.t :=
  if d is d'.+1 then RS_Encoder.next_generator f (generator f d') (Z.of_nat d)
  else Generic_GF_Poly.strip [:: 1%Z].

Definition cache_ok (f : Generic_GF.t) (c : RS_Encoder.cache) : Prop :=
  (0 < size c)%N /\ c = [seq generator f d | d <- iota 0 (size c)].

(** The position that the last loop of decode computes for a nonzero
    location: received.length - 1 - field.log(location). *)
Definition error_position (f : Generic_GF.t) (received : Int32Array)
    (location : Z) : nat :=
  Z.to_nat (Z.of_nat (size received) - 1
            - ta_get (Generic_GF.log_table f) location).

(* ------------------------------------------------------------------ *)
(** * Typed-array lemmas                                                *)
(* ------------------------------------------------------------------ *)


Lemma ta_get_of_nat (a : Int32Array) (n : nat) :
  ta_get a (Z.of_nat n) = nth 0%Z a n.
Proof.
rewrite /ta_get /ta_read Nat2Z.id.
have -> : (Z.of_nat n <? 0)%Z = false by apply/Z.ltb_ge; lia.
by case: ltnP => // h; rewrite nth_default.
Qed.

Lemma ta_get_nth (a : Int32Array) (i : Z) :
  (0 <= i)%Z -> ta_get a i = nth 0%Z a (Z.to_nat i).
Proof. by move=> h; rewrite -{1}(Z2Nat.id i) // ta_get_of_nat. Qed.

Lemma ta_get_neg (a : Int32Array) (i : Z) : (i < 0)%Z -> ta_get a i = 0%Z.
Proof. by move=> /Z.ltb_lt h; rewrite /ta_get /ta_read h. Qed.

Lemma size_ta_write (a : Int32Array) (i v : Z) : size (ta_write a i v) = size a.
Proof.
rewrite /ta_write; case: ifP => // /andP [_ h].
by rewrite size_set_nth; apply/maxn_idPr.
Qed.

Lemma nth_ta_write (a : Int32Array) (i v : Z) (k : nat) :
  nth 0%Z (ta_write a i v) k =
  if (0 <=? i)%Z && (Z.to_nat i < size a) && (k == Z.to_nat i) then v
  else nth 0%Z a k.
Proof.
rewrite /ta_write; case: ifP => //= _.
by rewrite nth_set_nth /=; case: eqP.
Qed.

(** Arithmetic on nat through lia. *)
Ltac nat_norm :=
  repeat match goal with
  | H : is_true (_ && _) |- _ => move/andP in H; destruct H
  | H : is_true (_ <= _) |- _ => move/leP in H
  | H : is_true (_ == _ :> nat) |- _ => move/eqP in H
  | H : (_ <= _) = false |- _ => move/negbT in H; rewrite -ltnNge in H
  | H : (_ == _ :> nat) = false |- _ => move/eqP in H
  | H : is_true (~~ (_ <= _)) |- _ => rewrite -ltnNge in H
  | H : is_true (_ != _ :> nat) |- _ => move/eqP in H
  | H : context [addn] |- _ => rewrite -plusE in H
  | H : context [subn] |- _ => rewrite -minusE in H
  | H : context [muln] |- _ => rewrite -multE in H
  end.

Ltac nat_lia :=
  nat_norm;
  try match goal with
  | |- is_true (_ <= _) => apply/leP
  | |- is_true (_ == _ :> nat) => apply/eqP
  | |- is_true (_ != _ :> nat) => apply/eqP
  | |- (_ <= _) = false => apply/negbTE; rewrite -ltnNge; apply/leP
  | |- (_ == _ :> nat) = false => apply/eqP
  | |- is_true (~~ (_ <= _)) => rewrite -ltnNge; apply/leP
  end;
  rewrite -?plusE -?minusE -?multE; lia.

(* ------------------------------------------------------------------ *)
(** * The tables of a field of size 256                                 *)
(* ------------------------------------------------------------------ *)

Lemma size_exp_loop p s n x : size (Generic_GF.exp_loop p s n x) = n.
Proof. by elim: n x => //= n IH x; rewrite IH. Qed.

Lemma nth_exp_loop p s n x i :
  i < n -> nth 0%Z (Generic_GF.exp_loop p s n x) i = iter i (Generic_GF.double p s) x.
Proof.
elim: n x i => // n IH x [|i] //=; rewrite ltnS => /IH ->.
by rewrite -iterSr.
Qed.

Lemma log_loopS e n init :
  Generic_GF.log_loop e n.+1 init =
  ta_write (Generic_GF.log_loop e n init) (ta_get e (Z.of_nat n)) (Z.of_nat n).
Proof.
by rewrite /Generic_GF.log_loop -addn1 iotaD add0n /= foldl_cat.
Qed.

Lemma size_log_loop e n init : size (Generic_GF.log_loop e n init) = size init.
Proof. by elim: n => // n IH; rewrite log_loopS size_ta_write. Qed.

Lemma log_loop_range e n init k :
  nth 0%Z (Generic_GF.log_loop e n init) k = nth 0%Z init k \/
  (0 <= nth 0%Z (Generic_GF.log_loop e n init) k < Z.of_nat n)%Z.
Proof.
elim: n => [|n IH]; first by left.
rewrite log_loopS nth_ta_write; case: ifP => _; first by right; lia.
by case: IH => h; [left | right; lia].
Qed.

Lemma land_255_byte x : byte (Z.land x 255).
Proof.
rewrite /byte (_ : 255 = Z.ones 8)%Z // Z.land_ones //.
exact: Z.mod_pos_bound.
Qed.

Lemma byte_double p x : byte x -> byte (Generic_GF.double p 256 x).
Proof.
rewrite /Generic_GF.double /byte => h.
case: Z.geb_spec => h2; last lia.
exact: land_255_byte.
Qed.

Lemma byte_lxor x y : byte x -> byte y -> byte (Z.lxor x y).
Proof.
rewrite /byte => hx hy.
have h0 : (0 <= Z.lxor x y)%Z by apply/Z.lxor_nonneg; lia.
split=> //.
have [->|hn] := Z.eq_dec (Z.lxor x y) 0; first by [].
apply/(Z.log2_lt_pow2 _ 8); first lia.
apply: Z.le_lt_trans (Z.log2_lxor _ _ _ _) _; try lia.
have hlog z : (0 <= z < 256 -> Z.log2 z < 8)%Z.
  move=> hz; have [->|hz0] := Z.eq_dec z 0; first by [].
  by apply/Z.log2_lt_pow2; lia.
by apply/Z.max_lub_lt; apply: hlog.
Qed.

Lemma testbit7 x : byte x -> Z.testbit x 7 = (x * 2 >=? 256)%Z.
Proof.
rewrite /byte => h; rewrite Z.testbit_eqb // Z.geb_leb.
have hd : (x / 2 ^ 7 = 0 \/ x / 2 ^ 7 = 1)%Z.
  have : (0 <= x / 2 ^ 7 < 2)%Z.
    by split; [apply: Z.div_pos; lia | apply: Z.div_lt_upper_bound; lia].
  lia.
case: hd => hd; rewrite hd /=; symmetry.
- apply/Z.leb_gt.
  have := Z.div_small_iff x (2 ^ 7) ltac:(lia); lia.
- apply/Z.leb_le.
  have := Z.mul_div_le x (2 ^ 7) ltac:(lia); lia.
Qed.

Lemma land_lxor_distr a b c :
  Z.land (Z.lxor a b) c = Z.lxor (Z.land a c) (Z.land b c).
Proof.
apply: Z.bits_inj' => n hn; rewrite !(Z.land_spec, Z.lxor_spec).
by case: (Z.testbit a n); case: (Z.testbit b n); case: (Z.testbit c n).
Qed.

Lemma lxorACA a b c d :
  Z.lxor (Z.lxor a b) (Z.lxor c d) = Z.lxor (Z.lxor a c) (Z.lxor b d).
Proof.
apply: Z.bits_inj' => n hn; rewrite !Z.lxor_spec.
by case: (Z.testbit a n); case: (Z.testbit b n); case: (Z.testbit c n);
  case: (Z.testbit d n).
Qed.

(** Doubling written with bits: it is linear for XOR. *)
Lemma double_bits p x : byte x ->
  Generic_GF.double p 256 x =
  Z.land (Z.lxor (Z.shiftl x 1) (if Z.testbit x 7 then p else 0%Z)) 255.
Proof.
move=> hx; rewrite /Generic_GF.double testbit7 // Z.shiftl_mul_pow2 //.
rewrite (_ : 2 ^ 1 = 2)%Z // (_ : 256 - 1 = 255)%Z //.
case: Z.geb_spec => // h; rewrite Z.lxor_0_r.
rewrite (_ : 255 = Z.ones 8)%Z // Z.land_ones // Z.mod_small //.
by move: hx; rewrite /byte; lia.
Qed.

Lemma double_lxor p x y : byte x -> byte y ->
  Generic_GF.double p 256 (Z.lxor x y) =
  Z.lxor (Generic_GF.double p 256 x) (Generic_GF.double p 256 y).
Proof.
move=> hx hy; rewrite !double_bits //; first exact: byte_lxor.
rewrite Z.lxor_spec Z.shiftl_lxor -land_lxor_distr; congr Z.land.
symmetry.
rewrite lxorACA; congr Z.lxor.
by case: (Z.testbit x 7); case: (Z.testbit y 7);
  rewrite /= ?Z.lxor_nilpotent ?Z.lxor_0_r ?Z.lxor_0_l.
Qed.

Lemma double0 p : Generic_GF.double p 256 0 = 0%Z.
Proof. by []. Qed.

Section GF_tables.

Variables (primitive s gb : Z).

Let f : Generic_GF.t := Generic_GF.new primitive s gb.

Hypothesis Hs : (2 <= s)%Z.
Hypothesis Hwf : GF_invariant f.

Let D : Z -> Z := Generic_GF.double primitive s.
Let n1 : nat := Z.to_nat s - 1.
Let E (i : Z) : Z := Generic_GF.exp f i.
Let Lg (x : Z) : Z := ta_get (Generic_GF.log_table f) x.
Let mul : Z -> Z -> Z := Generic_GF.multiply f.
Let pw : nat -> Z := pw primitive s.

Lemma gf_exp_tableE :
  Generic_GF.exp_table f = Generic_GF.exp_loop primitive s (Z.to_nat s) 1%Z.
Proof. by []. Qed.

Lemma gf_log_tableE :
  Generic_GF.log_table f =
  Generic_GF.log_loop (Generic_GF.exp_loop primitive s (Z.to_nat s) 1%Z)
    (Z.to_nat (s - 1)) (nseq (Z.to_nat s) 0%Z).
Proof. by []. Qed.

Lemma gf_E_pw (n : nat) : n < Z.to_nat s -> E (Z.of_nat n) = pw n.
Proof.
by move=> h; rewrite /E /Generic_GF.exp ta_get_of_nat gf_exp_tableE nth_exp_loop.
Qed.

Lemma gf_E_pwZ (i : Z) : (0 <= i < s)%Z -> E i = pw (Z.to_nat i).
Proof.
by move=> hi; rewrite -{1}(Z2Nat.id i); [lia | rewrite gf_E_pw //; nat_lia].
Qed.

Lemma gf_pwS n : pw n.+1 = D (pw n).
Proof. by []. Qed.

Lemma gf_Lg_range (x : Z) : (0 <= Lg x < s - 1)%Z.
Proof.
rewrite /Lg; have [hx|hx] := Z.lt_ge_cases x 0; first by rewrite ta_get_neg //; lia.
rewrite ta_get_nth // gf_log_tableE.
have := log_loop_range (Generic_GF.exp_loop primitive s (Z.to_nat s) 1)
          (Z.to_nat (s - 1)) (nseq (Z.to_nat s) 0%Z) (Z.to_nat x).
by rewrite nth_nseq if_same; lia.
Qed.

Lemma gf_Hwf_all :
  all (fun x : nat => (E (Lg (Z.of_nat x)) =? Z.of_nat x)%Z) (iota 1 n1)
  && (E (s - 1) =? E 0)%Z.
Proof. exact: Hwf. Qed.

Lemma gf_Hwf1 (x : Z) : (1 <= x < s)%Z -> E (Lg x) = x.
Proof.
move=> hx; have /andP [/allP h _] := gf_Hwf_all.
have hin : Z.to_nat x \in iota 1 n1.
  by rewrite mem_iota /n1; apply/andP; split; nat_lia.
by have /= := h _ hin; rewrite Z2Nat.id; [lia | move/Z.eqb_eq].
Qed.

Lemma gf_E0 : E 0 = 1%Z.
Proof. by rewrite (gf_E_pw (n := 0)) //; nat_lia. Qed.

Lemma gf_Hwf2 : E (s - 1) = 1%Z.
Proof. by have /andP [_ /Z.eqb_eq ->] := gf_Hwf_all; exact: gf_E0. Qed.

Lemma gf_pw_surj (x : Z) : (1 <= x < s)%Z -> x \in [seq pw i | i <- iota 0 n1].
Proof.
move=> hx; have hl := gf_Lg_range x.
rewrite -(gf_Hwf1 hx) gf_E_pwZ; first lia.
by apply: map_f; rewrite mem_iota /n1; apply/andP; split; nat_lia.
Qed.

Lemma gf_pw_perm :
  uniq [seq pw i | i <- iota 0 n1] /\
  [seq Z.of_nat x | x <- iota 1 n1] =i [seq pw i | i <- iota 0 n1].
Proof.
have hu : uniq [seq Z.of_nat x | x <- iota 1 n1].
  by rewrite map_inj_uniq ?iota_uniq //; exact: Nat2Z.inj.
have hs : {subset [seq Z.of_nat x | x <- iota 1 n1]
             <= [seq pw i | i <- iota 0 n1]}.
  move=> x /mapP [n]; rewrite mem_iota /n1 => /andP [h1 h2] ->.
  by apply: gf_pw_surj; split; nat_lia.
have hz : size [seq pw i | i <- iota 0 n1]
          <= size [seq Z.of_nat x | x <- iota 1 n1].
  by rewrite !size_map !size_iota.
split; first exact: leq_size_uniq hu hs hz.
by case: (uniq_min_size hu hs hz).
Qed.

Lemma gf_pw_nonzero (i : nat) : i < n1 -> (1 <= pw i < s)%Z.
Proof.
move=> hi; have [_ h] := gf_pw_perm.
have : pw i \in [seq pw i | i <- iota 0 n1].
  by apply: map_f; rewrite mem_iota.
rewrite -h => /mapP [n]; rewrite mem_iota /n1 => /andP [h1 h2] ->.
by split; nat_lia.
Qed.

Lemma gf_pw_inj (i j : nat) : i < n1 -> j < n1 -> pw i = pw j -> i = j.
Proof.
move=> hi hj e; have [hu _] := gf_pw_perm.
have := nth_uniq 0%Z (s := [seq pw i | i <- iota 0 n1]) (i := i) (j := j).
rewrite size_map size_iota => /(_ hi hj hu).
rewrite !(nth_map 0) ?size_iota // !nth_iota // !add0n e eqxx.
by move/esym/eqP.
Qed.

Lemma gf_E_range (i : Z) : (0 <= i < s - 1)%Z -> (1 <= E i < s)%Z.
Proof.
move=> hi; rewrite gf_E_pwZ; first lia.
by apply: gf_pw_nonzero; rewrite /n1; nat_lia.
Qed.

Lemma gf_Lg_E (i : Z) : (0 <= i < s - 1)%Z -> Lg (E i) = i.
Proof.
move=> hi; have hr := gf_E_range hi.
move: (gf_Lg_range (E i)) (gf_Hwf1 hr); set j := Lg (E i) => hj.
rewrite (@gf_E_pwZ j) ?(@gf_E_pwZ i); try lia.
move/gf_pw_inj => h.
have : Z.to_nat j = Z.to_nat i by apply: h; rewrite /n1; nat_lia.
by lia.
Qed.

Lemma gf_ES (i : Z) : (0 <= i < s - 1)%Z -> E (i + 1) = D (E i).
Proof.
move=> hi; rewrite !gf_E_pwZ; try lia.
by rewrite (_ : Z.to_nat (i + 1) = (Z.to_nat i).+1); first lia.
Qed.

Lemma gf_Lg1 : Lg 1 = 0%Z.
Proof. by rewrite -gf_E0 gf_Lg_E //; lia. Qed.

(** ** The field operations on the elements *)

Lemma gf_mul0l b : mul 0 b = 0%Z.
Proof. by []. Qed.

Lemma gf_mul0r a : mul a 0 = 0%Z.
Proof. by rewrite /mul /Generic_GF.multiply orbT. Qed.

Lemma gf_mulE a b : (1 <= a < s)%Z -> (1 <= b < s)%Z ->
  mul a b = E ((Lg a + Lg b) mod (s - 1)).
Proof.
move=> ha hb; rewrite /mul /Generic_GF.multiply.
have /Z.eqb_neq -> : a <> 0%Z by lia.
have /Z.eqb_neq -> /= : b <> 0%Z by lia.
have hla := gf_Lg_range a; have hlb := gf_Lg_range b.
by rewrite -/(Lg a) -/(Lg b) Z.rem_mod_nonneg //; lia.
Qed.

Lemma gf_nonzero_E x :
  (1 <= x < s)%Z -> exists2 i, (0 <= i < s - 1)%Z & x = E i.
Proof. by move=> hx; exists (Lg x); [exact: gf_Lg_range | rewrite gf_Hwf1]. Qed.

Lemma gf_mul_EE i j : (0 <= i < s - 1)%Z -> (0 <= j < s - 1)%Z ->
  mul (E i) (E j) = E ((i + j) mod (s - 1)).
Proof. by move=> hi hj; rewrite gf_mulE ?gf_Lg_E //; exact: gf_E_range. Qed.

Lemma gf_mul_range a b : (1 <= a < s)%Z -> (1 <= b < s)%Z ->
  (1 <= mul a b < s)%Z.
Proof.
move=> ha hb; rewrite gf_mulE //; apply: gf_E_range.
by apply: Z.mod_pos_bound; lia.
Qed.

Lemma gf_elt_cases x : elt s x -> x = 0%Z \/ (1 <= x < s)%Z.
Proof. rewrite /elt; lia. Qed.

Lemma gf_elt_mul a b : elt s a -> elt s b -> elt s (mul a b).
Proof.
move=> /gf_elt_cases [->|ha] /gf_elt_cases [->|hb];
  rewrite ?gf_mul0l ?gf_mul0r /elt; try lia.
by have := gf_mul_range ha hb; lia.
Qed.

Lemma gf_mulC a b : mul a b = mul b a.
Proof. by rewrite /mul /Generic_GF.multiply orbC Z.add_comm. Qed.

Lemma gf_mulA a b c : elt s a -> elt s b -> elt s c ->
  mul a (mul b c) = mul (mul a b) c.
Proof.
move=> /gf_elt_cases [->|ha] /gf_elt_cases [->|hb] /gf_elt_cases [->|hc];
  rewrite ?(gf_mul0l, gf_mul0r) //.
have [i hi ->] := gf_nonzero_E ha; have [j hj ->] := gf_nonzero_E hb.
have [k hk ->] := gf_nonzero_E hc.
rewrite !gf_mul_EE //; try (apply: Z.mod_pos_bound; lia).
by rewrite Zplus_mod_idemp_r Zplus_mod_idemp_l Z.add_assoc.
Qed.

Lemma gf_mul1l a : elt s a -> mul 1 a = a.
Proof.
move=> /gf_elt_cases [->|ha]; first by rewrite gf_mul0r.
rewrite gf_mulE //; try lia.
by rewrite gf_Lg1 Z.add_0_l Z.mod_small ?gf_Hwf1 //; have := gf_Lg_range a; lia.
Qed.

Lemma gf_mul1r a : elt s a -> mul a 1 = a.
Proof. by move=> ha; rewrite gf_mulC gf_mul1l. Qed.

Lemma gf_mul_eq0 a b : elt s a -> elt s b -> mul a b = 0%Z -> a = 0%Z \/ b = 0%Z.
Proof.
move=> /gf_elt_cases [->|ha] /gf_elt_cases [->|hb]; try by [left | right].
by have := gf_mul_range ha hb; lia.
Qed.

(** The value [inverse] returns on a nonzero element. *)
Definition gf_inv (a : Z) : Z := E (s - 1 - Lg a).

Lemma gf_inverseE a : a <> 0%Z -> Generic_GF.inverse f a = Return (gf_inv a).
Proof.
move=> /Z.eqb_neq h; rewrite /Generic_GF.inverse h /gf_inv /E /Generic_GF.exp.
congr (Return (ta_get _ _)); rewrite -/(Lg a).
by change (Generic_GF.size f) with s; lia.
Qed.

Lemma gf_inv_range a : (1 <= a < s)%Z -> (1 <= gf_inv a < s)%Z.
Proof.
move=> ha; rewrite /gf_inv; have hl := gf_Lg_range a.
have [e|e] := Z.eq_dec (Lg a) 0; first by rewrite e Z.sub_0_r gf_Hwf2; lia.
by apply: gf_E_range; lia.
Qed.

Lemma gf_mul_inv a : (1 <= a < s)%Z -> mul a (gf_inv a) = 1%Z.
Proof.
move=> ha; have hl := gf_Lg_range a; rewrite /gf_inv.
have [e|e] := Z.eq_dec (Lg a) 0.
  have a1 : a = 1%Z by rewrite -(gf_Hwf1 ha) e gf_E0.
  by rewrite e Z.sub_0_r gf_Hwf2 a1 gf_mul1l // /elt; lia.
rewrite -{1}(gf_Hwf1 ha) gf_mul_EE //; try lia.
by rewrite (_ : Lg a + (s - 1 - Lg a) = s - 1)%Z ?Z.mod_same ?gf_E0 //; lia.
Qed.

End GF_tables.

(* ------------------------------------------------------------------ *)
(** * The cache of generator polynomials                                *)
(* ------------------------------------------------------------------ *)

Lemma cache_ok_new f : cache_ok f RS_Encoder.new.
Proof. by []. Qed.

Lemma cache_ok_nth f c d : cache_ok f c -> (d < size c)%N ->
  nth Generic_GF_Poly.zero c d = generator f d.
Proof.
move=> [hs hc] hd; rewrite hc (nth_map 0%N) ?size_iota //.
by rewrite nth_iota.
Qed.

Lemma cache_ok_last f c : cache_ok f c ->
  last Generic_GF_Poly.zero c = generator f (size c).-1.
Proof.
move=> hc; have [hs _] := hc.
by rewrite -nth_last (cache_ok_nth hc) //; case: (size c) hs.
Qed.

Lemma cache_ok_rcons f c : cache_ok f c ->
  cache_ok f
    (rcons c (RS_Encoder.next_generator f (last Generic_GF_Poly.zero c)
                (Z.of_nat (size c)))).
Proof.
move=> hc; have [hs he] := hc; split; first by rewrite size_rcons.
rewrite size_rcons -addn1 iotaD map_cat -he add0n /= cats1; congr rcons.
by rewrite (cache_ok_last hc); case: (size c) hs.
Qed.

Lemma cache_ok_extend f c k : cache_ok f c ->
  cache_ok f
    (foldl (fun c d =>
              rcons c (RS_Encoder.next_generator f
                         (last Generic_GF_Poly.zero c) (Z.of_nat d)))
           c (iota (size c) k))
  /\ size
       (foldl (fun c d =>
                 rcons c (RS_Encoder.next_generator f
                            (last Generic_GF_Poly.zero c) (Z.of_nat d)))
              c (iota (size c) k)) = (size c + k)%N.
Proof.
move=> hc; elim: k => [|k [IH1 IH2]]; first by rewrite /= addn0.
have -> : iota (size c) k.+1 = iota (size c) k ++ [:: (size c + k)%N].
  by rewrite -addn1 iotaD.
rewrite foldl_cat /= -IH2; split; first exact: cache_ok_rcons.
by rewrite size_rcons IH2 addnS.
Qed.

Lemma build_generatorE f c degree : cache_ok f c -> (0 <= degree)%Z ->
  exists2 c', cache_ok f c' &
    RS_Encoder.build_generator f c degree
    = (c', Some (generator f (Z.to_nat degree))).
Proof.
move=> hc hd; rewrite /RS_Encoder.build_generator.
have hread c0 : cache_ok f c0 -> (Z.to_nat degree < size c0)%N ->
    RS_Encoder.cache_read c0 degree = Some (generator f (Z.to_nat degree)).
  move=> h0 hlt; rewrite /RS_Encoder.cache_read hlt.
  by have /Z.ltb_ge -> := hd; rewrite (cache_ok_nth h0).
case: Z.geb_spec => h.
  have [h1 h2] := cache_ok_extend (Z.to_nat degree + 1 - size c) hc.
  eexists; first exact: h1.
  by rewrite hread // h2; nat_lia.
by exists c => //; rewrite hread //; nat_lia.
Qed.

(* ------------------------------------------------------------------ *)
(** * The writes of encode                                              *)
(* ------------------------------------------------------------------ *)

Lemma set_nth_cat_r (s1 s2 : seq Z) (n : nat) (y : Z) :
  set_nth 0%Z (s1 ++ s2) (size s1 + n) y = s1 ++ set_nth 0%Z s2 n y.
Proof. by elim: s1 => //= x s1 ->. Qed.

Lemma zero_fill (data : seq Z) (db nz : nat) : (db + nz <= size data)%N ->
  foldl (fun data i => ta_write data (Z.of_nat db + Z.of_nat i) 0%Z)
        data (iota 0 nz)
  = take db data ++ nseq nz 0%Z ++ drop (db + nz) data.
Proof.
elim: nz => [|k IH] h; first by rewrite /= addn0 cat_take_drop.
have -> : iota 0 k.+1 = iota 0 k ++ [:: k] by rewrite -addn1 iotaD.
rewrite foldl_cat /= IH; first by nat_lia.
have hlt : (db + k < size data)%N by nat_lia.
rewrite /ta_write -Nat2Z.inj_add Nat2Z.id.
have -> : (0 <=? Z.of_nat (db + k))%Z by apply/Z.leb_le; lia.
rewrite !size_cat size_nseq size_takel; first by nat_lia.
rewrite size_drop.
have -> : (db + k < db + (k + (size data - (db + k))))%N by nat_lia.
have e : (db + k = size (take db data ++ nseq k 0%Z) + 0)%N.
  by rewrite size_cat size_nseq size_takel ?addn0 //; nat_lia.
rewrite /= catA [X in set_nth _ _ X]e set_nth_cat_r (drop_nth 0%Z hlt) /=.
rewrite -catA; congr (_ ++ _).
rewrite addnS; move: (drop _ _) => s.
by elim: k {IH h hlt e} => //= k ->.
Qed.

Lemma write_parityE (data : seq Z) (db ec : Z) (r : seq Z) :
  (1 <= db)%Z -> (db + ec = Z.of_nat (size data))%Z ->
  (Z.of_nat (size r) <= ec)%Z ->
  RS_Encoder.write_parity data db ec r
  = (take (Z.to_nat db) data ++ nseq (Z.to_nat ec - size r) 0%Z ++ r,
     Return tt).
Proof.
move=> hdb hsz hr; rewrite /RS_Encoder.write_parity.
have -> : Z.to_nat (ec - Z.of_nat (size r)) = (Z.to_nat ec - size r)%N by nat_lia.
set nz := (Z.to_nat ec - size r)%N.
have hfill := @zero_fill data (Z.to_nat db) nz.
rewrite Z2Nat.id in hfill; first by nat_lia.
rewrite hfill; first by rewrite /nz; nat_lia.
rewrite /ta_set.
have -> : (db + (ec - Z.of_nat (size r)) <? 0)%Z = false by apply/Z.ltb_ge; nat_lia.
rewrite !size_cat size_nseq size_takel; first by nat_lia.
rewrite size_drop /=.
have -> : (Z.of_nat (Z.to_nat db + (nz + (size data - (Z.to_nat db + nz))))
           <? db + (ec - Z.of_nat (size r)) + Z.of_nat (size r))%Z = false.
  by apply/Z.ltb_ge; rewrite /nz; nat_lia.
have -> : Z.to_nat (db + (ec - Z.of_nat (size r))) = (Z.to_nat db + nz)%N.
  by rewrite /nz; nat_lia.
have hs : size (take (Z.to_nat db) data ++ nseq nz 0%Z) = (Z.to_nat db + nz)%N.
  by rewrite size_cat size_nseq size_takel //; nat_lia.
rewrite (catA (take (Z.to_nat db) data)) take_size_cat // drop_oversize.
  by rewrite size_cat hs size_drop /nz; nat_lia.
by rewrite cats0 catA.
Qed.

(* ------------------------------------------------------------------ *)
(** * Error locator, error evaluator and the key equation               *)
(* ------------------------------------------------------------------ *)

(** The algebra behind the decoder, over any field: for error locations
    xs and error values y, the locator, the evaluator and the syndrome
    polynomial of the decoder satisfy the key equation. *)
Section KeyEquation.

Import GRing.Theory.
Local Open Scope ring_scope.

Variable F : fieldType.

(** The factor 1 - z x of a locator polynomial. *)
Definition lin (z : F) : {poly F} := 1 - z *: 'X.

Definition linprod (l : seq F) : {poly F} := \prod_(z <- l) lin z.

Lemma lin_XsubC z : z != 0 -> lin z = (- z) *: ('X - (z^-1)%:P).
Proof.
move=> hz; rewrite /lin scalerBr !scaleNr opprK.
by rewrite -[z *: _%:P]mul_polyC -polyCM mulfV // addrC.
Qed.

Lemma linprod_XsubC l : 0 \notin l ->
  linprod l
  = (\prod_(z <- l) - z) *: \prod_(a <- [seq z^-1 | z <- l]) ('X - a%:P).
Proof.
move=> h0; rewrite big_map -scaler_prod /linprod.
apply: eq_big_seq => z hz; rewrite lin_XsubC //.
by apply: contraNneq h0 => <-.
Qed.

Lemma prod_opp_neq0 l : 0 \notin l -> \prod_(z <- l) - z != 0 :> F.
Proof.
move=> h0; rewrite prodf_seq_neq0; apply/allP => z hz /=.
by rewrite oppr_eq0; apply: contraNneq h0 => <-.
Qed.

Lemma size_linprod l : 0 \notin l -> size (linprod l) = (size l).+1.
Proof.
move=> h0; rewrite linprod_XsubC // size_scale ?prod_opp_neq0 //.
by rewrite size_prod_XsubC size_map.
Qed.

Lemma linprod_neq0 l : 0 \notin l -> linprod l != 0.
Proof. by move=> h0; rewrite -size_poly_eq0 size_linprod. Qed.

Lemma root_linprod l a : 0 \notin l -> root (linprod l) a = (a^-1 \in l).
Proof.
move=> h0; rewrite linprod_XsubC // rootZ ?prod_opp_neq0 //.
by rewrite root_prod_XsubC -{1}(invrK a) (mem_map invr_inj).
Qed.

Lemma linprod_at0 l : (linprod l).[0] = 1.
Proof.
rewrite /linprod horner_prod big1 // => z _.
by rewrite /lin !hornerE ?mulr0 ?subr0 ?mul0r.
Qed.

Lemma coprimep_prod_XsubC (rs : seq F) (p : {poly F}) :
  (forall a, a \in rs -> ~~ root p a) ->
  coprimep (\prod_(a <- rs) ('X - a%:P)) p.
Proof.
elim: rs => [|a rs ih] h; first by rewrite big_nil coprime1p.
rewrite big_cons coprimepMl coprimep_sym coprimep_XsubC h ?mem_head //=.
by apply: ih => c hc; rewrite h // in_cons hc orbT.
Qed.

Lemma size_sum_seq (I : eqType) (l : seq I) (G : I -> {poly F}) (n : nat) :
  (forall x, x \in l -> (size (G x) <= n)%N) ->
  (size (\sum_(x <- l) G x)%R <= n)%N.
Proof.
elim: l => [|x l ih] h; first by rewrite big_nil size_poly0.
rewrite big_cons (leq_trans (size_add _ _)) // geq_max h ?mem_head //=.
by apply: ih => z hz; rewrite h // in_cons hz orbT.
Qed.

Variables (xs : seq F) (y : F -> F) (b R : nat).
Hypothesis xs_uniq : uniq xs.
Hypothesis xs_neq0 : 0 \notin xs.
Hypothesis y_neq0 : forall x, x \in xs -> y x != 0.

Definition locator : {poly F} := linprod xs.

Definition cofactor (x : F) : {poly F} := \prod_(z <- xs | z != x) lin z.

Definition evaluator : {poly F} :=
  \sum_(x <- xs) (y x * x ^+ b) *: cofactor x.

Definition synd (i : nat) : F := \sum_(x <- xs) y x * x ^+ (b + i).

Definition syndrome_poly : {poly F} := \poly_(i < R) synd i.

Definition overflow : {poly F} :=
  \sum_(x <- xs) (y x * x ^+ (b + R)) *: cofactor x.

Lemma cofactorE x : cofactor x = linprod (filter (fun z => z != x) xs).
Proof. by rewrite /linprod big_filter. Qed.

Lemma filter_neq0 x : 0 \notin (filter (fun z => z != x) xs).
Proof. by rewrite mem_filter negb_and (negPf xs_neq0) orbT. Qed.

Lemma locatorD1 x : x \in xs -> locator = lin x * cofactor x.
Proof. by move=> hx; rewrite /locator /linprod (bigD1_seq x). Qed.

Lemma geometric z : lin z * \poly_(i < R) z ^+ i = 1 - (z ^+ R) *: 'X^R.
Proof.
rewrite poly_def -exprZn -[LHS]opprK -mulNr opprB.
under eq_bigr => i _ do rewrite -exprZn.
by rewrite -subrX1 opprB.
Qed.

Lemma syndrome_polyE :
  syndrome_poly = \sum_(x <- xs) (y x * x ^+ b) *: \poly_(i < R) x ^+ i.
Proof.
apply/polyP => i; rewrite coef_poly coef_sum.
case: ltnP => hi.
  by apply: eq_bigr => x _; rewrite coefZ coef_poly hi exprD mulrA.
by rewrite big1 // => x _; rewrite coefZ coef_poly ltnNge hi mulr0.
Qed.

(** The key equation: locator * syndrome = evaluator  (mod x^R). *)
Lemma key_equation :
  locator * syndrome_poly = evaluator - overflow * 'X^R.
Proof.
rewrite syndrome_polyE mulr_sumr /evaluator /overflow mulr_suml -sumrB.
apply: eq_big_seq => x hx.
rewrite -scalerAr (locatorD1 hx) mulrAC geometric mulrBl mul1r scalerBr.
by rewrite exprD -!scalerAl [cofactor x * _]mulrC !scalerA !mulrA.
Qed.

Lemma size_locator : size locator = (size xs).+1.
Proof. exact: size_linprod. Qed.

Lemma locator_at0 : locator.[0] = 1.
Proof. exact: linprod_at0. Qed.

Lemma root_locator a : root locator a = (a^-1 \in xs).
Proof. exact: root_linprod. Qed.

Lemma size_cofactor x : x \in xs -> size (cofactor x) = size xs.
Proof.
move=> hx; rewrite cofactorE size_linprod ?filter_neq0 //.
rewrite size_filter -(count_predC (pred1 x) xs) (count_uniq_mem _ xs_uniq) hx.
by rewrite add1n; congr (count _ _).+1.
Qed.

Lemma size_evaluator : (size evaluator <= size xs)%N.
Proof.
apply: size_sum_seq => x hx.
by rewrite (leq_trans (size_scale_leq _ _)) // size_cofactor.
Qed.

Lemma root_cofactor x a : root (cofactor x) a = (a^-1 \in xs) && (a^-1 != x).
Proof. by rewrite cofactorE root_linprod ?filter_neq0 // mem_filter andbC. Qed.

(** The evaluator at the inverse of a location (Forney). *)
Lemma evaluator_at x : x \in xs ->
  evaluator.[x^-1] = y x * x ^+ b * (cofactor x).[x^-1].
Proof.
move=> hx; rewrite /evaluator horner_sum (bigD1_seq x) //= hornerZ big1 ?addr0 //.
move=> z hz; rewrite hornerZ.
have /rootP -> : root (cofactor z) x^-1.
  by rewrite root_cofactor invrK hx eq_sym.
by rewrite mulr0.
Qed.

Lemma cofactor_at x : x \in xs -> (cofactor x).[x^-1] != 0.
Proof. by move=> hx; rewrite -rootE root_cofactor invrK eqxx andbF. Qed.

Lemma evaluator_at_neq0 x : x \in xs -> evaluator.[x^-1] != 0.
Proof.
move=> hx; rewrite evaluator_at // !mulf_neq0 ?cofactor_at ?y_neq0 //.
by rewrite expf_neq0 //; apply: contraNneq xs_neq0 => <-.
Qed.

Lemma coprime_locator_evaluator : coprimep locator evaluator.
Proof.
rewrite /locator linprod_XsubC // coprimepZl ?prod_opp_neq0 //.
apply: coprimep_prod_XsubC => a /mapP [x hx ->].
by rewrite rootE evaluator_at_neq0.
Qed.

End KeyEquation.

(** The solution of the key equation is unique up to a constant: a
    combination r = s x^R + t S of small degree, with s and t coprime, is a
    constant multiple of (locator, evaluator). *)
Section KeyUnique.

Import GRing.Theory.
Local Open Scope ring_scope.

Variable F : fieldType.

Lemma mulXn_small (W : {poly F}) (R : nat) :
  (size (W * 'X^R)%R <= R)%N -> W = 0.
Proof.
move=> h; apply/eqP; apply: contraTT h => hW.
by rewrite -ltnNge size_mulXn // -[X in (X < _)%N]addn0 ltn_add2l lt0n size_poly_eq0.
Qed.

Lemma key_unique (S sigma omega phi r s t u v : {poly F}) (R : nat) :
  sigma * S = omega + phi * 'X^R ->
  coprimep sigma omega -> sigma != 0 ->
  r = s * 'X^R + t * S ->
  u * s + v * t = 1 -> t != 0 ->
  (size (t * omega)%R <= R)%N -> (size (sigma * r)%R <= R)%N ->
  exists2 k, k != 0 & t = k *: sigma /\ r = k *: omega.
Proof.
move=> hk hc hs0 hr hb ht0 h1 h2.
have e1 : t * omega - sigma * r = - (sigma * s + t * phi) * 'X^R.
  by rewrite hr mulrDr [sigma * (t * S)]mulrCA hk; ring.
have W0 : sigma * s + t * phi = 0.
  apply/eqP; rewrite -oppr_eq0; apply/eqP/(@mulXn_small _ R).
  rewrite -e1 (leq_trans (size_add _ _)) // geq_max size_opp.
  by rewrite h1 h2.
have e2 : t * omega = sigma * r.
  by apply/eqP; rewrite -subr_eq0 e1 W0 oppr0 mul0r.
have ct : coprimep t s.
  apply/Bezout_coprimepP; exists (v, u) => /=.
  by rewrite addrC hb eqpxx.
have dt : t %| sigma.
  rewrite -(Gauss_dvdpl sigma ct); apply/dvdpP; exists (- phi).
  by apply/eqP; rewrite -subr_eq0 mulNr opprK [phi * t]mulrC W0.
have /dvdpP [kappa hkappa] := dt.
have e3 : omega = kappa * r.
  apply: (mulfI ht0); rewrite e2 hkappa.
  by rewrite mulrCA mulrA.
have dk : kappa %| gcdp sigma omega.
  rewrite dvdp_gcd; apply/andP; split; apply/dvdpP.
    by exists t; rewrite mulrC.
  by exists r; rewrite mulrC.
have sk : size kappa = 1%N.
  apply/eqP; rewrite eqn_leq; apply/andP; split.
    have hg : size (gcdp sigma omega) = 1%N by apply/eqP; rewrite -coprimep_def.
    by rewrite -hg dvdp_leq // -size_poly_eq0 hg.
  rewrite lt0n size_poly_eq0; apply: contraNneq hs0 => k0.
  by rewrite hkappa k0 mul0r.
have /size_poly1P [c hc0 hck] : size kappa == 1%N by rewrite sk.
exists c^-1; first by rewrite invr_eq0.
split.
  by rewrite hkappa hck mul_polyC scalerA mulVf // scale1r.
by rewrite e3 hck mul_polyC scalerA mulVf // scale1r.
Qed.

End KeyUnique.

(** The invariant of the loop of run_euclidean_algorithm, over a field of
    characteristic 2 (where the additions of the code are subtractions):
    both remainders are combinations of x^R and S, with coprime
    cofactors, and the degrees of t and of the previous remainder add up
    to R. *)
Section EuclidInvariant.

Import GRing.Theory.
Local Open Scope ring_scope.

Variable F : fieldType.
Hypothesis char2 : forall x : F, - x = x.

Lemma poly_char2 (p : {poly F}) : - p = p.
Proof. by apply/polyP => i; rewrite coefN char2. Qed.

Variables (R : nat) (S : {poly F}).

Definition euclid_inv (r_last r t_last t : {poly F}) : Prop :=
  exists s_last s : {poly F},
    [/\ r_last = s_last * 'X^R + t_last * S,
        r = s * 'X^R + t * S
      & s * t_last + s_last * t = 1]
    /\ [/\ (size t_last < size t)%N,
           (size t + size r_last = R + 2)%N
         & (size r < size r_last)%N].

Lemma euclid_inv_init : (size S <= R)%N -> euclid_inv 'X^R S 0 1.
Proof.
move=> hS; exists 1, 0; split; split.
- by rewrite mul1r mul0r addr0.
- by rewrite mul0r mul1r add0r.
- by rewrite mul0r mul1r add0r.
- by rewrite size_poly0 size_poly1.
- by rewrite size_poly1 size_polyXn add1n addn2.
- by rewrite size_polyXn ltnS.
Qed.

Lemma euclid_inv_step (r_last r t_last t : {poly F}) :
  euclid_inv r_last r t_last t -> r != 0 ->
  euclid_inv r (r_last %% r) t ((r_last %/ r) * t + t_last).
Proof.
move=> [s_last [s [[e1 e2 e3] [h1 h2 h3]]]] r0.
set q := r_last %/ r.
have hq : r_last %% r = r_last - q * r.
  by rewrite {2}(divp_eq r_last r) addrC addKr.
have sr : (0 < size r)%N by rewrite size_poly_gt0.
have sq : size q = (size r_last - (size r).-1)%N by rewrite size_divp.
have q0 : q != 0.
  rewrite -size_poly_eq0 sq -lt0n subn_gt0; move: sr h3.
  by case: (size r) => // n _ /=; exact: ltnW.
have t0 : t != 0 by rewrite -size_poly_gt0 (leq_trans _ h1).
have st : (0 < size t)%N by rewrite size_poly_gt0.
have sqt : size (q * t) = (size q + size t).-1 by rewrite size_mul.
have lt1 : (size t < size (q * t)%R)%N.
  by rewrite sqt sq -!subn1; nat_lia.
have lt2 : (size t_last < size (q * t)%R)%N by exact: ltn_trans lt1.
exists s, (q * s + s_last); split; split.
- exact: e2.
- rewrite hq {1}e1 e2 -[- _]poly_char2 opprK.
  by rewrite !mulrDl !mulrDr !mulrA; ring.
- have -> : (q * s + s_last) * t + s * (q * t + t_last)
            = (s * t_last + s_last * t) + (q * s * t + q * s * t) by ring.
  by rewrite e3 -{2}[q * s * t]poly_char2 subrr addr0.
- by rewrite size_addl.
- by rewrite size_addl // sqt sq -!subn1; nat_lia.
- by rewrite ltn_modp.
Qed.

Lemma exit_size_t (a b c nu : nat) :
  (0 < a)%N -> (0 < b)%N -> (b <= nu)%N -> (a + c = R + 2)%N ->
  (R <= 2 * c.-1)%N -> (2 * nu <= R)%N -> ((a + b).-1 <= R)%N.
Proof. by rewrite -!subn1 => h1 h2 h3 h4 h5 h6; nat_lia. Qed.

Lemma exit_size_r (m nu : nat) :
  (0 < m)%N -> (2 * m.-1 < R)%N -> (2 * nu <= R)%N -> ((nu.+1 + m).-1 <= R)%N.
Proof. by rewrite -!subn1 => h1 h2 h3; nat_lia. Qed.

(** When the loop stops, t and the last remainder are the locator and the
    evaluator up to one nonzero constant. *)
Lemma euclid_inv_exit (sigma omega phi r_last r t_last t : {poly F})
    (nu : nat) :
  euclid_inv r_last r t_last t ->
  sigma * S = omega + phi * 'X^R ->
  coprimep sigma omega -> size sigma = nu.+1 -> (size omega <= nu)%N ->
  (2 * nu <= R)%N ->
  (R <= 2 * (size r_last).-1)%N -> (2 * (size r).-1 < R)%N ->
  exists2 k, k != 0 & t = k *: sigma /\ r = k *: omega.
Proof.
move=> [s_last [s [[e1 e2 e3] [h1 h2 h3]]]] hk hc hsg hom hnu hl hr.
have sg0 : sigma != 0 by rewrite -size_poly_eq0 hsg.
have t0 : t != 0 by rewrite -size_poly_gt0 (leq_trans _ h1).
have st : (0 < size t)%N by rewrite size_poly_gt0.
have e3' : t_last * s + s_last * t = 1 by rewrite [t_last * s]mulrC.
apply: (key_unique hk hc sg0 e2 e3' t0).
- have [->|om0] := eqVneq omega 0; first by rewrite mulr0 size_poly0.
  have so : (0 < size omega)%N by rewrite size_poly_gt0.
  by rewrite size_mul //; exact: (exit_size_t st so hom h2 hl hnu).
- have [->|r0] := eqVneq r 0; first by rewrite mulr0 size_poly0.
  have sr : (0 < size r)%N by rewrite size_poly_gt0.
  by rewrite size_mul // hsg; exact: (exit_size_r sr hr hnu).
Qed.

End EuclidInvariant.

(* ------------------------------------------------------------------ *)
(** * A field of size 256: multiplication distributes over XOR          *)
(* ------------------------------------------------------------------ *)

Lemma two_le_256 : (2 <= 256)%Z.
Proof. by []. Qed.

Section GF256.

Variables (primitive gb : Z).

Let f : Generic_GF.t := Generic_GF.new primitive 256 gb.

(** The invariant, wrapped so that no tactic evaluates it. *)
Hypothesis Hv : GF_valid f.

Let D : Z -> Z := Generic_GF.double primitive 256.
Let E (i : Z) : Z := Generic_GF.exp f i.
Let Lg (x : Z) : Z := ta_get (Generic_GF.log_table f) x.
Let mul : Z -> Z -> Z := Generic_GF.multiply f.
Let pw : nat -> Z := pw primitive 256.
Let inv : Z -> Z := gf_inv primitive 256 gb.

Lemma E_pwZ : forall i, (0 <= i < 256)%Z -> E i = pw (Z.to_nat i).
Proof. exact: (@gf_E_pwZ primitive 256 gb two_le_256). Qed.
Lemma E0 : E 0 = 1%Z.
Proof. exact: (gf_E0 primitive gb two_le_256). Qed.
Lemma Hwf2 : E 255 = 1%Z.
Proof. exact: (gf_Hwf2 two_le_256 (GF_valid_inv Hv)). Qed.
Lemma ES : forall i, (0 <= i < 255)%Z -> E (i + 1) = D (E i).
Proof. exact: (@gf_ES primitive 256 gb two_le_256). Qed.
Lemma nonzero_E : forall x, (1 <= x < 256)%Z -> exists2 i, (0 <= i < 255)%Z & x = E i.
Proof. exact: (gf_nonzero_E two_le_256 (GF_valid_inv Hv)). Qed.
Lemma mul_EE : forall i j, (0 <= i < 255)%Z -> (0 <= j < 255)%Z ->
  mul (E i) (E j) = E ((i + j) mod 255).
Proof. exact: (gf_mul_EE two_le_256 (GF_valid_inv Hv)). Qed.
Lemma zmul0l : forall b, mul 0 b = 0%Z.
Proof. exact: (gf_mul0l primitive 256 gb). Qed.
Lemma zmul0r : forall a, mul a 0 = 0%Z.
Proof. exact: (gf_mul0r primitive 256 gb). Qed.
Lemma zmulC : forall a b, mul a b = mul b a.
Proof. exact: (gf_mulC primitive 256 gb). Qed.
Lemma zmulA : forall a b c, byte a -> byte b -> byte c ->
  mul a (mul b c) = mul (mul a b) c.
Proof. exact: (gf_mulA two_le_256 (GF_valid_inv Hv)). Qed.
Lemma zmul1l : forall a, byte a -> mul 1 a = a.
Proof. exact: (gf_mul1l two_le_256 (GF_valid_inv Hv)). Qed.
Lemma zmul1r : forall a, byte a -> mul a 1 = a.
Proof. exact: (gf_mul1r two_le_256 (GF_valid_inv Hv)). Qed.
Lemma byte_mul : forall a b, byte a -> byte b -> byte (mul a b).
Proof. exact: (gf_elt_mul two_le_256 (GF_valid_inv Hv)). Qed.
Lemma byte_cases : forall x, byte x -> x = 0%Z \/ (1 <= x < 256)%Z.
Proof. exact: (@gf_elt_cases 256). Qed.
Lemma mul_range : forall a b, (1 <= a < 256)%Z -> (1 <= b < 256)%Z ->
  (1 <= mul a b < 256)%Z.
Proof. exact: (gf_mul_range two_le_256 (GF_valid_inv Hv)). Qed.
Lemma inverseE : forall a, a <> 0%Z -> Generic_GF.inverse f a = Return (inv a).
Proof. exact: (@gf_inverseE primitive 256 gb). Qed.
Lemma inv_range : forall a, (1 <= a < 256)%Z -> (1 <= inv a < 256)%Z.
Proof. exact: (gf_inv_range two_le_256 (GF_valid_inv Hv)). Qed.
Lemma mul_inv : forall a, (1 <= a < 256)%Z -> mul a (inv a) = 1%Z.
Proof. exact: (gf_mul_inv two_le_256 (GF_valid_inv Hv)). Qed.

Lemma byte_pw n : byte (pw n).
Proof.
by elim: n => [|n IH]; [rewrite /byte /pw /=; lia | exact: byte_double].
Qed.

Lemma E1 : E 1 = 2%Z.
Proof. by rewrite E_pwZ. Qed.

Lemma gf_mul2 b : byte b -> mul 2 b = D b.
Proof.
move=> /byte_cases [->|hb]; first by rewrite zmul0r.
have [i hi ->] := nonzero_E hb.
rewrite -E1 mul_EE //; try lia.
have [e|e] := Z.eq_dec i 254.
  by rewrite e /= -ES //= Hwf2 E0.
by rewrite Z.mod_small ?[(1 + i)%Z]Z.add_comm ?ES //; lia.
Qed.

Lemma byte_iterD n x : byte x -> byte (iter n D x).
Proof. by move=> hx; elim: n => // n IH; exact: byte_double. Qed.

Lemma gf_mul_pw n b : byte b -> mul (pw n) b = iter n D b.
Proof.
move=> hb; elim: n => [|n IH]; first by rewrite zmul1l.
have -> : pw n.+1 = D (pw n) by [].
rewrite -gf_mul2; first exact: byte_pw.
rewrite -zmulA //; try exact: byte_pw.
by rewrite IH gf_mul2 //; exact: byte_iterD.
Qed.

Lemma iterD_lxor n x y : byte x -> byte y ->
  iter n D (Z.lxor x y) = Z.lxor (iter n D x) (iter n D y).
Proof.
move=> hx hy; elim: n => // n IH /=.
by rewrite IH /D double_lxor //; exact: byte_iterD.
Qed.

Lemma gf_mulDr a b c : byte a -> byte b -> byte c ->
  mul a (Z.lxor b c) = Z.lxor (mul a b) (mul a c).
Proof.
move=> /byte_cases [->|ha] hb hc; first by rewrite !zmul0l.
have [i hi ->] := nonzero_E ha.
rewrite E_pwZ; first lia.
by rewrite !gf_mul_pw ?iterD_lxor //; exact: byte_lxor.
Qed.

Lemma gf_mulDl a b c : byte a -> byte b -> byte c ->
  mul (Z.lxor a b) c = Z.lxor (mul a c) (mul b c).
Proof. by move=> ha hb hc; rewrite zmulC gf_mulDr // !(zmulC c). Qed.

Lemma byte_E i : byte (E i).
Proof.
have [hi|hi] := Z.lt_ge_cases i 0.
  by rewrite /E /Generic_GF.exp ta_get_neg.
have [h|h] := Z.lt_ge_cases i 256.
  by rewrite E_pwZ; [lia | exact: byte_pw].
rewrite /E /Generic_GF.exp ta_get_nth // nth_default //.
by rewrite gf_exp_tableE size_exp_loop; nat_lia.
Qed.


Lemma pw_inj : forall i j : nat, (i < 255)%N -> (j < 255)%N ->
  pw i = pw j -> i = j.
Proof. exact: (gf_pw_inj two_le_256 (GF_valid_inv Hv)). Qed.
Lemma pwS : forall n, pw n.+1 = D (pw n).
Proof. exact: (gf_pwS primitive 256). Qed.
Lemma Lg_E : forall i, (0 <= i < 255)%Z -> Lg (E i) = i.
Proof. exact: (gf_Lg_E two_le_256 (GF_valid_inv Hv)). Qed.
Lemma Hwf1 : forall x, (1 <= x < 256)%Z -> E (Lg x) = x.
Proof. exact: (gf_Hwf1 two_le_256 (GF_valid_inv Hv)). Qed.
Lemma E_range : forall i, (0 <= i < 255)%Z -> (1 <= E i < 256)%Z.
Proof. exact: (gf_E_range two_le_256 (GF_valid_inv Hv)). Qed.
Lemma Lg_range : forall x, (0 <= Lg x < 255)%Z.
Proof. exact: (@gf_Lg_range primitive 256 gb two_le_256). Qed.

(** ** The field structure on the bytes *)

Lemma ofFK : cancel ofF toF.
Proof. by case=> i; rewrite /toF /ofF /= Nat2Z.id inord_val. Qed.

Lemma byte_ofF x : byte (ofF x).
Proof. by case: x => i; rewrite /ofF /byte /=; have := ltn_ord i => h; nat_lia. Qed.

Lemma toFK z : byte z -> ofF (toF z) = z.
Proof.
rewrite /byte => hz; rewrite /ofF /toF /= inordK; first by nat_lia.
by rewrite Z2Nat.id; lia.
Qed.

Lemma ofF_inj : injective ofF.
Proof. exact: can_inj ofFK. Qed.

Definition F_add (x y : gf) : gf := toF (Z.lxor (ofF x) (ofF y)).
Definition F_mul (x y : gf) : gf := toF (locked mul (ofF x) (ofF y)).
Definition F_inv (x : gf) : gf :=
  toF (if (ofF x =? 0)%Z then 0%Z else locked inv (ofF x)).

Lemma F_addA : associative F_add.
Proof.
move=> x y z; rewrite /F_add !toFK ?Z.lxor_assoc //;
  by apply: byte_lxor; exact: byte_ofF.
Qed.

Lemma F_addC : commutative F_add.
Proof. by move=> x y; rewrite /F_add Z.lxor_comm. Qed.

Lemma F_add0 : left_id (toF 0) F_add.
Proof. by move=> x; rewrite /F_add toFK // Z.lxor_0_l ofFK. Qed.

Lemma F_addN : left_inverse (toF 0) id F_add.
Proof. by move=> x; rewrite /F_add Z.lxor_nilpotent. Qed.

HB.instance Definition _ := GRing.isZmodule.Build gf F_addA F_addC F_add0 F_addN.

Lemma F_mulA : associative F_mul.
Proof.
move=> x y z; rewrite /F_mul -!lock !toFK ?zmulA //; try exact: byte_ofF;
  by apply: byte_mul; exact: byte_ofF.
Qed.

Lemma F_mulC : commutative F_mul.
Proof. by move=> x y; rewrite /F_mul -!lock zmulC. Qed.

Lemma F_mul1 : left_id (toF 1) F_mul.
Proof. by move=> x; rewrite /F_mul -!lock toFK // zmul1l ?ofFK //; exact: byte_ofF. Qed.

Lemma F_mulD : left_distributive F_mul F_add.
Proof.
move=> x y z; rewrite /F_mul /F_add -!lock !toFK ?gf_mulDl //; try exact: byte_ofF;
  by (apply: byte_lxor || apply: byte_mul); exact: byte_ofF.
Qed.

Lemma F_10 : toF 1 != toF 0.
Proof. by apply/eqP => /(congr1 ofF); rewrite !toFK. Qed.

HB.instance Definition _ :=
  GRing.Zmodule_isComNzRing.Build gf F_mulA F_mulC F_mul1 F_mulD F_10.

Import GRing.Theory.
Local Open Scope ring_scope.

Lemma ofF0 : ofF 0 = 0%Z.
Proof. by rewrite /GRing.zero /= toFK. Qed.

Lemma ofF_eq0 (x : gf) : (ofF x == 0%Z) = (x == 0).
Proof. by rewrite -ofF0 (inj_eq ofF_inj). Qed.

Lemma F_mulV (x : gf) : x != 0 -> F_mul (F_inv x) x = 1.
Proof.
rewrite -ofF_eq0 => /eqP h0.
have hx : (1 <= ofF x < 256)%Z by have := byte_ofF x; rewrite /byte; lia.
rewrite /F_mul /F_inv -!lock; have /Z.eqb_neq -> := h0.
rewrite toFK; first by have := inv_range hx; rewrite /byte; lia.
by rewrite zmulC mul_inv.
Qed.

Lemma F_inv0 : F_inv 0 = 0.
Proof. by rewrite /F_inv ofF0. Qed.

HB.instance Definition _ := GRing.ComNzRing_isField.Build gf F_mulV F_inv0.

Lemma ofF1 : ofF 1 = 1%Z.
Proof. by rewrite /GRing.one /= toFK. Qed.

Lemma ofFD (x y : gf) : ofF (x + y) = Z.lxor (ofF x) (ofF y).
Proof. by rewrite /GRing.add /= /F_add toFK //; apply: byte_lxor; exact: byte_ofF. Qed.

Lemma ofFM (x y : gf) : ofF (x * y) = mul (ofF x) (ofF y).
Proof. by rewrite /GRing.mul /= /F_mul -lock toFK //; apply: byte_mul; exact: byte_ofF. Qed.

Lemma toF0 : toF 0 = 0.
Proof. by []. Qed.

Lemma toF1 : toF 1 = 1.
Proof. by []. Qed.

Lemma toFD a b : byte a -> byte b -> toF (Z.lxor a b) = toF a + toF b.
Proof. by move=> ha hb; apply: ofF_inj; rewrite ofFD !toFK //; exact: byte_lxor. Qed.

Lemma toFM a b : byte a -> byte b -> toF (mul a b) = toF a * toF b.
Proof. by move=> ha hb; apply: ofF_inj; rewrite ofFM !toFK //; exact: byte_mul. Qed.

Lemma toF_eq0 a : byte a -> (toF a == 0) = (a =? 0)%Z.
Proof.
by move=> ha; rewrite -ofF_eq0 toFK //; apply/eqP/Z.eqb_eq.
Qed.

Lemma gf_oppE (x : gf) : - x = x.
Proof. by []. Qed.

Lemma gf_addxx (x : gf) : x + x = 0.
Proof. by rewrite -{2}(gf_oppE x) subrr. Qed.

Lemma toF_inv a : (1 <= a < 256)%Z -> toF (inv a) = (toF a)^-1.
Proof.
move=> ha; have hb : byte a by move: ha; rewrite /byte; lia.
rewrite /GRing.inv /= /F_inv -lock toFK //.
by have /Z.eqb_neq -> : a <> 0%Z by lia.
Qed.

Lemma f_generator_base : Generic_GF.generator_base f = gb.
Proof. by []. Qed.

Lemma f_size : Generic_GF.size f = 256%Z.
Proof. by []. Qed.

(** From here on the tables are used through the lemmas above only. *)
Local Opaque Generic_GF.new Generic_GF.multiply Generic_GF.exp.

(* ------------------------------------------------------------------ *)
(** ** Coefficient arrays as polynomials over the field                 *)
(* ------------------------------------------------------------------ *)

Lemma is_byteP z : reflect (byte z) (is_byte z).
Proof.
rewrite /is_byte /byte; apply: (iffP andP) => [[/Z.leb_le h1 /Z.ltb_lt h2]|[h1 h2]] //.
by split; [apply/Z.leb_le | apply/Z.ltb_lt].
Qed.

Lemma all_byteP (c : seq Z) :
  reflect (forall i, byte (nth 0%Z c i)) (all is_byte c).
Proof.
apply: (iffP idP) => [h i|h].
  have [hi|hi] := ltnP i (size c); last by rewrite nth_default.
  by apply/is_byteP; exact: all_nthP.
by apply/(all_nthP 0%Z) => i _; apply/is_byteP.
Qed.

Definition toP (c : seq Z) : {poly gf} := Poly (rev (map toF c)).

Lemma coef_toP c i :
  (toP c)`_i = if (i < size c)%N then toF (nth 0%Z c (size c - i.+1)) else 0.
Proof.
rewrite /toP coef_Poly; case: ltnP => h.
  by rewrite nth_rev size_map // (nth_map 0%Z) //; nat_lia.
by rewrite nth_default // size_rev size_map.
Qed.

Lemma toP_nil : toP [::] = 0.
Proof. by []. Qed.

Lemma toP_cons x c : toP (x :: c) = toF x *: 'X^(size c) + toP c.
Proof.
apply/polyP => i; rewrite coefD coefZ coefXn !coef_toP /=.
have [hi|hi|hi] := ltngtP i (size c).
- rewrite ltnS (ltnW hi) mulr0 add0r subSS.
  by rewrite (_ : (size c - i = (size c - i.+1).+1)%N) //; nat_lia.
- by rewrite ltnS leqNgt hi /= mulr0 addr0.
- by rewrite hi ltnSn subnn mulr1 addr0.
Qed.

Lemma toP_cat a b : toP (a ++ b) = toP a * 'X^(size b) + toP b.
Proof.
elim: a => [|x a IH] /=; first by rewrite toP_nil mul0r add0r.
by rewrite !toP_cons IH size_cat exprD mulrDl addrA -scalerAl.
Qed.

Lemma toP_nseq0 n : toP (nseq n 0%Z) = 0.
Proof. by elim: n => // n IH; rewrite /= toP_cons IH toF0 scale0r addr0. Qed.

Lemma toP_drop_zeros c : toP (Generic_GF_Poly.drop_zeros c) = toP c.
Proof.
elim: c => //= x c IH; case: Z.eqb_spec => // ->.
by rewrite toP_cons toF0 scale0r add0r.
Qed.

Lemma toP_zero : toP Generic_GF_Poly.zero = 0.
Proof. by rewrite /Generic_GF_Poly.zero toP_cons toF0 scale0r toP_nil addr0. Qed.

Lemma toP_one : toP Generic_GF_Poly.one = 1.
Proof. by rewrite /Generic_GF_Poly.one toP_cons toF1 toP_nil addr0 expr0 scale1r. Qed.

Lemma toP_strip c : toP (Generic_GF_Poly.strip c) = toP c.
Proof.
rewrite /Generic_GF_Poly.strip; case: ifP => // /andP [hs /Z.eqb_eq].
case: c hs => //= x c _ ->; rewrite toP_cons toF0 scale0r add0r -[RHS]toP_drop_zeros.
by case: (Generic_GF_Poly.drop_zeros c) => //; rewrite toP_zero toP_nil.
Qed.

Lemma drop_zeros_head c :
  Generic_GF_Poly.drop_zeros c = [::] \/
  head 0%Z (Generic_GF_Poly.drop_zeros c) <> 0%Z.
Proof.
elim: c => [|x c IH] /=; first by left.
by case: Z.eqb_spec => // h; right.
Qed.

Lemma all_drop_zeros (a : pred Z) c :
  all a c -> all a (Generic_GF_Poly.drop_zeros c).
Proof.
elim: c => //= x c IH /andP [hx hc]; case: Z.eqb_spec => _; first exact: IH.
by rewrite /= hx.
Qed.

Lemma normal_strip c : c != [::] -> normal (Generic_GF_Poly.strip c).
Proof.
case: c => // x c _; rewrite /Generic_GF_Poly.strip.
case: ifP => [_|] /=.
  case: (drop_zeros_head c) => [->|]; first by [].
  by case: (Generic_GF_Poly.drop_zeros c) => //= y d /eqP h; rewrite /normal /= h orbT.
rewrite /normal /=; case: (Z.eqb_spec x 0) => [->|/eqP hx _]; last by rewrite hx orbT.
by case: c.
Qed.

Lemma bytes_strip c : all is_byte c -> all is_byte (Generic_GF_Poly.strip c).
Proof.
rewrite /Generic_GF_Poly.strip; case: ifP => // _.
case: c => //= x c /andP [_ /(all_drop_zeros (a := is_byte))].
by case: (Generic_GF_Poly.drop_zeros c).
Qed.

Lemma wfp_strip c : c != [::] -> all is_byte c -> wfp (Generic_GF_Poly.strip c).
Proof. by move=> h1 h2; rewrite /wfp bytes_strip // normal_strip. Qed.

Lemma wfp_zero : wfp Generic_GF_Poly.zero.
Proof. by []. Qed.

Lemma wfp_one : wfp Generic_GF_Poly.one.
Proof. by []. Qed.

Lemma wfp_bytes c : wfp c -> all is_byte c.
Proof. by case/andP. Qed.

Lemma wfp_neq_nil c : wfp c -> c != [::].
Proof. by case: c. Qed.

Lemma toF_neq0 x : byte x -> x <> 0%Z -> toF x != 0.
Proof. by move=> hb h; rewrite toF_eq0 //; apply/negP => /Z.eqb_eq. Qed.

(** A well-formed array is the list of the coefficients of its
    polynomial. *)
Lemma polyseq_toP c : wfp c -> c != Generic_GF_Poly.zero ->
  polyseq (toP c) = rev (map toF c).
Proof.
move=> /andP [hb hn] hz.
have hh : head 0%Z c != 0%Z by move: hn; rewrite /normal (negPf hz).
rewrite /toP (@PolyK _ 0) //.
case: c hb hh {hn hz} => //= x c /andP [/is_byteP hx _] /eqP hn.
by rewrite rev_cons last_rcons; exact: toF_neq0.
Qed.

Lemma size_toP c : wfp c ->
  size (toP c) = if c == Generic_GF_Poly.zero then 0%N else size c.
Proof.
move=> h; case: eqP => [->|/eqP hn]; first by rewrite toP_zero size_poly0.
by rewrite polyseq_toP // size_rev size_map.
Qed.

Lemma toP_eq0 c : wfp c -> (toP c == 0) = (c == Generic_GF_Poly.zero).
Proof.
move=> h; rewrite -size_poly_eq0 size_toP //.
by case: ifP => // _; case: c h.
Qed.

Lemma is_zeroE c : wfp c -> Generic_GF_Poly.is_zero c = (toP c == 0).
Proof.
move=> h; rewrite toP_eq0 // /Generic_GF_Poly.is_zero.
case: c h => // x c /andP [_]; rewrite /normal /= (ta_get_of_nat _ 0) /=.
case: Z.eqb_spec => [->|hx].
  by rewrite eqxx orbF.
by case: eqP => // -[].
Qed.

Lemma degreeE c : wfp c ->
  Generic_GF_Poly.degree c = Z.of_nat (size (toP c)).-1.
Proof.
move=> h; rewrite /Generic_GF_Poly.degree size_toP //.
case: eqP => [->//|_]; have := wfp_neq_nil h.
by case: c {h} => // x c _; rewrite [size _]/= [_.-1]/=; lia.
Qed.

Lemma toP_inj c d : wfp c -> wfp d -> toP c = toP d -> c = d.
Proof.
move=> hc hd e.
have [ec|nc] := eqVneq c Generic_GF_Poly.zero.
  by move/eqP: e; rewrite ec toP_zero eq_sym toP_eq0 // => /eqP.
have nd : d != Generic_GF_Poly.zero.
  by rewrite -toP_eq0 // -e toP_eq0.
have := congr1 polyseq e; rewrite !polyseq_toP // => /(can_inj revK) h.
have hh (l : seq Z) : all is_byte l -> map ofF (map toF l) = l.
  move=> hl; rewrite -map_comp -[RHS]map_id; apply/eq_in_map => x hx /=.
  by apply: toFK; apply/is_byteP; exact: (allP hl).
by rewrite -(hh c) ?wfp_bytes // h hh // wfp_bytes.
Qed.

(* ------------------------------------------------------------------ *)
(** ** The operations of Generic_GF_Poly on well-formed arrays          *)
(* ------------------------------------------------------------------ *)

Lemma toP_sum c :
  toP c = \sum_(i < size c) toF (nth 0%Z c i) *: 'X^(size c - i.+1).
Proof.
elim: c => [|x c IH]; first by rewrite big_ord0.
by rewrite toP_cons big_ord_recl /= subn1 /= -IH.
Qed.

Lemma toP_zipxor (s l : seq Z) : size s = size l ->
  all is_byte s -> all is_byte l ->
  toP [seq Generic_GF.add_or_subtract sl.1 sl.2 | sl <- zip s l]
  = toP s + toP l.
Proof.
elim: s l => [|x s IH] [|y l] //=; first by rewrite toP_nil addr0.
case=> e /andP [/is_byteP hx hs] /andP [/is_byteP hy hl].
rewrite !toP_cons IH // size_map size_zip e minnn toFD // scalerDl.
by rewrite addrACA.
Qed.

Lemma bytes_zipxor (s l : seq Z) :
  all is_byte s -> all is_byte l ->
  all is_byte [seq Generic_GF.add_or_subtract sl.1 sl.2 | sl <- zip s l].
Proof.
elim: s l => [|x s IH] [|y l] //= /andP [/is_byteP hx hs] /andP [/is_byteP hy hl].
by rewrite IH // andbT; apply/is_byteP; exact: byte_lxor.
Qed.

(** The sum computed by add_or_subtract once the shorter array is known. *)
Definition add_aligned (smaller larger : seq Z) : seq Z :=
  take (size larger - size smaller) larger
  ++ [seq Generic_GF.add_or_subtract sl.1 sl.2
     | sl <- zip smaller (drop (size larger - size smaller) larger)].

Lemma toP_add_aligned s l : (size s <= size l)%N ->
  all is_byte s -> all is_byte l ->
  toP (add_aligned s l) = toP s + toP l.
Proof.
move=> hsl hs hl; rewrite /add_aligned toP_cat.
have hd : size s = size (drop (size l - size s) l).
  by rewrite size_drop subKn.
rewrite toP_zipxor //; first by apply/allP => x /mem_drop; exact: (allP hl).
rewrite size_map size_zip -hd minnn.
by rewrite -[in RHS](cat_take_drop (size l - size s) l) toP_cat -hd addrCA.
Qed.

Lemma bytes_add_aligned s l :
  all is_byte s -> all is_byte l -> all is_byte (add_aligned s l).
Proof.
move=> hs hl; rewrite /add_aligned all_cat; apply/andP; split.
  by apply/allP => x /mem_take; exact: (allP hl).
by apply: bytes_zipxor => //; apply/allP => x /mem_drop; exact: (allP hl).
Qed.

Lemma size_add_aligned s l : (size s <= size l)%N ->
  size (add_aligned s l) = size l.
Proof.
move=> h; rewrite /add_aligned size_cat size_map size_zip size_take size_drop.
by rewrite subKn // minnn; case: ltnP => h2; nat_lia.
Qed.

Lemma add_or_subtractE p q :
  Generic_GF_Poly.add_or_subtract p q =
  if Generic_GF_Poly.is_zero p then q
  else if Generic_GF_Poly.is_zero q then p
  else Generic_GF_Poly.strip
         (if (size q < size p)%N then add_aligned q p else add_aligned p q).
Proof.
rewrite /Generic_GF_Poly.add_or_subtract; do 2![case: ifP => // _].
by case: ifP.
Qed.

Lemma toP_add p q : wfp p -> wfp q ->
  toP (Generic_GF_Poly.add_or_subtract p q) = toP p + toP q.
Proof.
move=> hp hq; rewrite add_or_subtractE !is_zeroE //.
case: eqP => [->|_]; first by rewrite add0r.
case: eqP => [->|_]; first by rewrite addr0.
rewrite toP_strip; case: ltnP => h.
  by rewrite toP_add_aligned ?wfp_bytes ?(ltnW h) // addrC.
by rewrite toP_add_aligned ?wfp_bytes.
Qed.

Lemma wfp_add p q : wfp p -> wfp q ->
  wfp (Generic_GF_Poly.add_or_subtract p q).
Proof.
move=> hp hq; rewrite add_or_subtractE; do 2![case: ifP => // _].
apply: wfp_strip.
  rewrite -size_eq0; case: ltnP => h.
    by rewrite size_add_aligned ?(ltnW h) // size_eq0 wfp_neq_nil.
  by rewrite size_add_aligned // size_eq0 wfp_neq_nil.
by case: ifP => _; apply: bytes_add_aligned; exact: wfp_bytes.
Qed.

Lemma toP_map_mul (c : seq Z) (a : Z) : all is_byte c -> byte a ->
  toP [seq mul x a | x <- c] = toF a *: toP c.
Proof.
move=> hc ha; elim: c hc => [|x c IH] /=; first by rewrite toP_nil scaler0.
move=> /andP [/is_byteP hx hc].
by rewrite !toP_cons IH // size_map toFM // scalerDr scalerA mulrC.
Qed.

Lemma bytes_map_mul (c : seq Z) (a : Z) : all is_byte c -> byte a ->
  all is_byte [seq mul x a | x <- c].
Proof.
move=> hc ha; rewrite all_map; apply/allP => x hx /=.
by apply/is_byteP/byte_mul => //; apply/is_byteP; exact: (allP hc).
Qed.

Lemma bytes_nseq0 n : all is_byte (nseq n 0%Z).
Proof. by rewrite all_nseq orbT. Qed.

Lemma toP_multiply_scalar p a : wfp p -> byte a ->
  toP (Generic_GF_Poly.multiply_scalar f p a) = toF a *: toP p.
Proof.
move=> hp ha; rewrite /Generic_GF_Poly.multiply_scalar.
case: Z.eqb_spec => [->|_]; first by rewrite toP_zero toF0 scale0r.
case: Z.eqb_spec => [->|_]; first by rewrite toF1 scale1r.
by rewrite toP_strip toP_map_mul // wfp_bytes.
Qed.

Lemma wfp_multiply_scalar p a : wfp p -> byte a ->
  wfp (Generic_GF_Poly.multiply_scalar f p a).
Proof.
move=> hp ha; rewrite /Generic_GF_Poly.multiply_scalar.
case: Z.eqb_spec => // _; case: Z.eqb_spec => // _.
apply: wfp_strip; last by rewrite bytes_map_mul // wfp_bytes.
by rewrite -size_eq0 size_map size_eq0 wfp_neq_nil.
Qed.

Lemma multiply_by_monomialE p d a : wfp p -> byte a -> (0 <= d)%Z ->
  exists r, [/\ Generic_GF_Poly.multiply_by_monomial f p d a = Return r,
                wfp r & toP r = (toF a *: toP p) * 'X^(Z.to_nat d)].
Proof.
move=> hp ha hd; rewrite /Generic_GF_Poly.multiply_by_monomial.
have /Z.ltb_ge -> := hd.
case: Z.eqb_spec => [->|_].
  by exists Generic_GF_Poly.zero; rewrite toP_zero toF0 scale0r mul0r.
eexists; split; first by [].
  apply: wfp_strip; first by rewrite -size_eq0 size_cat size_map addn_eq0
    size_eq0 (negPf (wfp_neq_nil hp)).
  by rewrite all_cat bytes_nseq0 andbT bytes_map_mul ?wfp_bytes.
by rewrite toP_strip toP_cat toP_nseq0 addr0 size_nseq toP_map_mul // wfp_bytes.
Qed.

Lemma build_monomialE d a : byte a -> (0 <= d)%Z ->
  exists r, [/\ Generic_GF_Poly.build_monomial d a = Return r,
                wfp r & toP r = toF a *: 'X^(Z.to_nat d)].
Proof.
move=> ha hd; rewrite /Generic_GF_Poly.build_monomial.
have /Z.ltb_ge -> := hd.
case: Z.eqb_spec => [->|_].
  by exists Generic_GF_Poly.zero; rewrite toP_zero toF0 scale0r.
eexists; split; first by [].
  apply: wfp_strip => //=; rewrite bytes_nseq0 andbT.
  exact/is_byteP.
by rewrite toP_strip toP_cons toP_nseq0 addr0 size_nseq.
Qed.

Lemma leadingE p : wfp p ->
  Generic_GF_Poly.leading p = ofF (lead_coef (toP p)).
Proof.
move=> hp; rewrite /Generic_GF_Poly.leading /Generic_GF_Poly.get_coefficient.
rewrite /Generic_GF_Poly.degree.
have -> : (Z.of_nat (size p) - 1 - (Z.of_nat (size p) - 1) = Z.of_nat 0)%Z by lia.
rewrite -/(ta_get p _) ta_get_of_nat lead_coefE coef_toP size_toP //.
case: eqP => [->|/eqP hn]; first by rewrite /= toFK.
have hs : (0 < size p)%N by rewrite lt0n size_eq0 wfp_neq_nil.
have -> : ((size p).-1 < size p)%N by case: (size p) hs.
rewrite prednK // subnn toFK //.
by apply/is_byteP; apply: (all_nthP 0%Z (wfp_bytes hp)).
Qed.

Lemma byte_leading p : wfp p -> byte (Generic_GF_Poly.leading p).
Proof. by move=> hp; rewrite leadingE //; exact: byte_ofF. Qed.

(** *** evaluate_at is Horner evaluation *)

Lemma horner_fold (a r0 : Z) (l : seq Z) :
  byte a -> byte r0 -> all is_byte l ->
  let r := foldl (fun result c =>
             Generic_GF.add_or_subtract (mul a result) c) r0 l in
  byte r /\ toF r = toF r0 * toF a ^+ size l + (toP l).[toF a].
Proof.
move=> ha; elim: l r0 => [|x l IH] r0 hr /=.
  by move=> _; rewrite toP_nil horner0 addr0 expr0 mulr1.
move=> /andP [/is_byteP hx hl].
have hb : byte (Generic_GF.add_or_subtract (mul a r0) x).
  by apply: byte_lxor => //; exact: byte_mul.
have [h1 h2] := IH _ hb hl; split=> //; rewrite h2 toFD ?toFM //; first exact: byte_mul.
rewrite toP_cons hornerD hornerZ hornerXn exprS.
by rewrite mulrDl addrA -!mulrA [toF a * (toF r0 * _)]mulrCA.
Qed.

Lemma xor_fold (r0 : Z) (l : seq Z) :
  byte r0 -> all is_byte l ->
  let r := foldl (fun result c => Generic_GF.add_or_subtract result c) r0 l in
  byte r /\ toF r = toF r0 + (toP l).[1].
Proof.
elim: l r0 => [|x l IH] r0 hr /=.
  by move=> _; rewrite toP_nil horner0 addr0.
move=> /andP [/is_byteP hx hl].
have hb : byte (Generic_GF.add_or_subtract r0 x) by exact: byte_lxor.
have [h1 h2] := IH _ hb hl; split=> //; rewrite h2 toFD //.
by rewrite toP_cons hornerD hornerZ hornerXn expr1n mulr1 addrA.
Qed.

Lemma evaluate_atE p a : wfp p -> byte a ->
  Generic_GF_Poly.evaluate_at f p a = ofF (toP p).[toF a].
Proof.
move=> hp ha; rewrite /Generic_GF_Poly.evaluate_at.
have hb := wfp_bytes hp.
have hs : (0 < size p)%N by rewrite lt0n size_eq0 wfp_neq_nil.
case: Z.eqb_spec => [->|_].
  rewrite toF0 horner_coef0 coef_toP hs subn1 /Generic_GF_Poly.get_coefficient.
  have -> : (Z.of_nat (size p) - 1 - 0 = Z.of_nat (size p).-1)%Z.
    by case: (size p) hs => // n _; rewrite [_.-1]/=; lia.
  rewrite -/(ta_get p _) ta_get_of_nat toFK //.
  by apply/is_byteP; apply: (all_nthP 0%Z hb); case: (size p) hs.
case: Z.eqb_spec => [->|_].
  have [h1 h2] := xor_fold (r0 := 0%Z) (l := p) ltac:(by []) hb.
  by rewrite -[LHS]toFK // h2 toF0 add0r toF1.
case: p hp hb hs => // x p hp /= /andP [/is_byteP hx hb] _.
rewrite (ta_get_of_nat _ 0) /=.
have [h1 h2] := horner_fold ha hx hb.
rewrite -[LHS]toFK // h2 toP_cons hornerD hornerZ hornerXn.
by [].
Qed.

Lemma byte_evaluate_at p a : wfp p -> byte a ->
  byte (Generic_GF_Poly.evaluate_at f p a).
Proof. by move=> hp ha; rewrite evaluate_atE //; exact: byte_ofF. Qed.

(** *** multiply_poly is the product *)

Lemma toP_set_nth_xor (prod : seq Z) (k : nat) (v : Z) :
  (k < size prod)%N -> all is_byte prod -> byte v ->
  let prod' := set_nth 0%Z prod k
                 (Generic_GF.add_or_subtract (nth 0%Z prod k) v) in
  [/\ size prod' = size prod, all is_byte prod'
    & toP prod' = toP prod + toF v *: 'X^(size prod - k.+1)].
Proof.
move=> hk hb hv /=.
have hsz : size (set_nth 0%Z prod k (Generic_GF.add_or_subtract (nth 0%Z prod k) v))
           = size prod.
  by rewrite size_set_nth; apply/maxn_idPr.
have hbk : byte (nth 0%Z prod k) by apply/is_byteP; exact: (all_nthP 0%Z hb).
split=> //.
  apply/(all_nthP 0%Z) => i; rewrite hsz nth_set_nth /= => hi.
  case: eqP => _; last exact: (all_nthP 0%Z hb).
  by apply/is_byteP; exact: byte_lxor.
apply/polyP => i; rewrite coefD coefZ coefXn !coef_toP hsz nth_set_nth /=.
case: ltnP => hi.
  have -> : ((size prod - i.+1)%N == k) = (i == (size prod - k.+1)%N).
    by apply/eqP/eqP => h; nat_lia.
  case: eqP => [e|_]; last by rewrite mulr0 addr0.
  rewrite toFD // mulr1; congr (toF (nth _ _ _) + _).
  by nat_lia.
have -> : (i == (size prod - k.+1)%N) = false by nat_lia.
by rewrite mulr0 addr0.
Qed.

Lemma multiply_inner (b : seq Z) (i : nat) (ai : Z) (js : seq nat)
    (prod : seq Z) :
  all is_byte b -> byte ai -> all is_byte prod ->
  all (fun j => (i + j < size prod)%N) js ->
  let prod' :=
    foldl (fun product j =>
      set_nth 0%Z product (i + j)
        (Generic_GF.add_or_subtract (nth 0%Z product (i + j))
           (mul ai (nth 0%Z b j)))) prod js in
  [/\ size prod' = size prod, all is_byte prod'
    & toP prod' = toP prod
        + \sum_(j <- js) (toF ai * toF (nth 0%Z b j))
                           *: 'X^(size prod - (i + j).+1)].
Proof.
move=> hb ha; elim: js prod => [|j js IH] prod hp /=.
  by move=> _; rewrite big_nil addr0.
move=> /andP [hj hjs].
have hbj : byte (nth 0%Z b j) by apply/all_byteP.
have [h1 h2 h3] := toP_set_nth_xor hj hp (byte_mul ha hbj).
have := IH _ h2; rewrite h1 => /(_ hjs) [-> -> ->]; split=> //.
by rewrite h3 big_cons toFM // addrA.
Qed.

Lemma multiply_outer (a b : seq Z) (ks : seq nat) (prod : seq Z) :
  all is_byte a -> all is_byte b -> all is_byte prod ->
  all (fun i => (i + size b <= size prod)%N) ks ->
  let prod' :=
    foldl (fun product i =>
      foldl (fun product j =>
        set_nth 0%Z product (i + j)
          (Generic_GF.add_or_subtract (nth 0%Z product (i + j))
             (mul (nth 0%Z a i) (nth 0%Z b j))))
        product (iota 0 (size b))) prod ks in
  [/\ size prod' = size prod, all is_byte prod'
    & toP prod' = toP prod
        + \sum_(i <- ks) \sum_(j <- iota 0 (size b))
            (toF (nth 0%Z a i) * toF (nth 0%Z b j))
              *: 'X^(size prod - (i + j).+1)].
Proof.
move=> ha hb; elim: ks prod => [|i ks IH] prod hp /=.
  by move=> _; rewrite big_nil addr0.
move=> /andP [hi hks].
have hai : byte (nth 0%Z a i) by apply/all_byteP.
have hjs : all (fun j => (i + j < size prod)%N) (iota 0 (size b)).
  by apply/allP => j; rewrite mem_iota => /andP [_ hj]; nat_lia.
have [h1 h2 h3] := multiply_inner hb hai hp hjs.
have := IH _ h2; rewrite h1 => /(_ hks) [-> -> ->]; split=> //.
by rewrite h3 big_cons addrA.
Qed.

Lemma multiply_loopE (a b : seq Z) :
  all is_byte a -> all is_byte b -> (0 < size a)%N -> (0 < size b)%N ->
  [/\ size (Generic_GF_Poly.multiply_loop f a b) = (size a + size b - 1)%N,
      all is_byte (Generic_GF_Poly.multiply_loop f a b)
    & toP (Generic_GF_Poly.multiply_loop f a b) = toP a * toP b].
Proof.
move=> ha hb sa sb.
have his : all (fun i => (i + size b <= size (nseq (size a + size b - 1) 0%Z))%N)
             (iota 0 (size a)).
  by apply/allP => i; rewrite mem_iota size_nseq => /andP [_ hi]; nat_lia.
have := multiply_outer ha hb (bytes_nseq0 _) his.
rewrite /= -/(Generic_GF_Poly.multiply_loop f a b) size_nseq toP_nseq0 add0r.
move=> [h1 h2 h3]; split=> //; rewrite h3 !toP_sum big_distrlr /=.
have e n : iota 0 n = index_iota 0 n by rewrite /index_iota subn0.
rewrite e big_mkord; apply: eq_bigr => i _.
rewrite e big_mkord; apply: eq_bigr => j _.
rewrite -scalerAl -scalerAr scalerA -exprD; congr (_ *: 'X^_).
by have := ltn_ord i; have := ltn_ord j => hj hi; nat_lia.
Qed.

Lemma toP_multiply_poly p q : wfp p -> wfp q ->
  toP (Generic_GF_Poly.multiply_poly f p q) = toP p * toP q.
Proof.
move=> hp hq; rewrite /Generic_GF_Poly.multiply_poly !is_zeroE //.
have [->|np] := eqVneq (toP p) 0; first by rewrite toP_zero mul0r.
have [->|nq] := eqVneq (toP q) 0; first by rewrite toP_zero mulr0.
rewrite toP_strip /=.
have sp : (0 < size p)%N by rewrite lt0n size_eq0 wfp_neq_nil.
have sq : (0 < size q)%N by rewrite lt0n size_eq0 wfp_neq_nil.
by have [] := multiply_loopE (wfp_bytes hp) (wfp_bytes hq) sp sq.
Qed.

Lemma wfp_multiply_poly p q : wfp p -> wfp q ->
  wfp (Generic_GF_Poly.multiply_poly f p q).
Proof.
move=> hp hq; rewrite /Generic_GF_Poly.multiply_poly.
case: ifP => // _.
have sp : (0 < size p)%N by rewrite lt0n size_eq0 wfp_neq_nil.
have sq : (0 < size q)%N by rewrite lt0n size_eq0 wfp_neq_nil.
have [h1 h2 _] := multiply_loopE (wfp_bytes hp) (wfp_bytes hq) sp sq.
by apply: wfp_strip => //; rewrite -size_eq0 h1; nat_lia.
Qed.

(** *** divide is Euclidean division *)

Lemma size_add_cancel (p q : {poly gf}) :
  p != 0 -> size q = size p -> lead_coef q = lead_coef p ->
  (size (p + q)%R < size p)%N.
Proof.
move=> np sq lq.
have hle : (size (p + q)%R <= size p)%N.
  by apply: leq_trans (size_polyD _ _) _; rewrite sq maxnn.
rewrite ltn_neqAle hle andbT; apply/eqP => e.
have : lead_coef (p + q) = 0.
  by rewrite lead_coefE e coefD -lead_coefE -[q`__]/(q`_(size p).-1) -sq
       -lead_coefE lq gf_addxx.
move/eqP; rewrite lead_coef_eq0 -size_poly_eq0 e size_poly_eq0.
by rewrite (negPf np).
Qed.

Lemma size_toP_le c : (size (toP c) <= size c)%N.
Proof.
by apply: leq_trans (size_Poly _) _; rewrite size_rev size_map.
Qed.

Lemma gf_char2 (p q : {poly gf}) : p + q + q = p.
Proof.
rewrite -addrA; apply/polyP => i.
by rewrite !coefD gf_addxx addr0.
Qed.

Lemma poly_addxx (p : {poly gf}) : p + p = 0.
Proof. by apply/polyP => i; rewrite coefD gf_addxx coef0. Qed.

Lemma poly_oppE (p : {poly gf}) : - p = p.
Proof. by apply/polyP => i; rewrite coefN gf_oppE. Qed.

Lemma loop_cond r g : wfp r -> wfp g -> toP g != 0 ->
  (Generic_GF_Poly.degree r >=? Generic_GF_Poly.degree g)%Z
  && ~~ Generic_GF_Poly.is_zero r
  = (size (toP g) <= size (toP r))%N.
Proof.
move=> hr hg ng; rewrite !degreeE // is_zeroE //.
have sg : (0 < size (toP g))%N by rewrite lt0n size_poly_eq0.
have [->|nr] := eqVneq (toP r) 0.
  by rewrite andbF size_poly0 leqNgt sg.
have sr : (0 < size (toP r))%N by rewrite lt0n size_poly_eq0.
move: sg sr; case: (size (toP g)) => // n _; case: (size (toP r)) => // m _.
rewrite andbT ![_.-1]/= ltnS; apply/idP/idP => [/Z.geb_le h|h]; first by nat_lia.
by apply/Z.geb_le; nat_lia.
Qed.

Lemma degree_diff r g : wfp r -> wfp g ->
  (0 < size (toP g) <= size (toP r))%N ->
  let d := (Generic_GF_Poly.degree r - Generic_GF_Poly.degree g)%Z in
  (0 <= d)%Z /\ Z.to_nat d = (size (toP r) - size (toP g))%N.
Proof.
move=> hr hg /andP [h1 h2]; rewrite /= !degreeE //.
move: h1 h2; case: (size (toP g)) => // n _; case: (size (toP r)) => // m h2.
by rewrite ![_.-1]/= subSS; split; nat_lia.
Qed.

(** One turn of the division loop cancels the leading term. *)
Lemma cancel_step (R G : {poly gf}) :
  G != 0 -> (size G <= size R)%N ->
  let T := (lead_coef R / lead_coef G) *: G * 'X^(size R - size G) in
  (size (R + T)%R < size R)%N.
Proof.
move=> nG hs /=.
have sG : (0 < size G)%N by rewrite lt0n size_poly_eq0.
have nR : R != 0 by rewrite -size_poly_eq0 -lt0n (leq_trans sG hs).
have nl : lead_coef R / lead_coef G != 0.
  by rewrite mulf_neq0 ?invr_eq0 ?lead_coef_eq0.
apply: size_add_cancel => //.
  rewrite size_mulXn; first by rewrite scaler_eq0 negb_or nl nG.
  by rewrite size_scale // subnK.
by rewrite lead_coefM lead_coefXn mulr1 lead_coefZ divfK // lead_coef_eq0.
Qed.

Lemma divide_loopE g il :
  wfp g -> toP g != 0 -> byte il -> toF il = (lead_coef (toP g))^-1 ->
  forall fuel q r, wfp q -> wfp r -> (size (toP r) <= fuel)%N ->
  exists q' r',
    [/\ Generic_GF_Poly.divide_loop f g il fuel q r = Return (q', r'),
        wfp q', wfp r',
        toP q' * toP g + toP r' = toP q * toP g + toP r
      & (size (toP r') < size (toP g))%N].
Proof.
move=> hg ng hil eil.
have sg : (0 < size (toP g))%N by rewrite lt0n size_poly_eq0.
elim=> [|fuel IH] q r hq hr hf.
  have hlt : (size (toP r) < size (toP g))%N by exact: leq_ltn_trans hf sg.
  exists q, r; split=> //.
  by rewrite /= loop_cond // leqNgt hlt.
rewrite /= loop_cond //; case: leqP => hc; last by exists q, r; split.
have hsg : (0 < size (toP g) <= size (toP r))%N by rewrite sg hc.
have [hd0 hdd] := degree_diff hr hg hsg.
set scale := Generic_GF.multiply f _ il.
have hs : byte scale by apply: byte_mul => //; exact: byte_leading.
have es : toF scale = lead_coef (toP r) / lead_coef (toP g).
  rewrite toFM //; first exact: byte_leading.
  by rewrite leadingE // ofFK eil.
have [t [-> ht et]] := multiply_by_monomialE hg hs hd0.
have [m [-> hm em]] := build_monomialE hs hd0.
rewrite /=.
have hlt : (size (toP (Generic_GF_Poly.add_or_subtract r t)) <= fuel)%N.
  rewrite toP_add // et es hdd -ltnS; apply: leq_trans hf.
  exact: cancel_step.
have [q' [r' [-> hq' hr' e hs']]] :=
  IH _ _ (wfp_add hq hm) (wfp_add hr ht) hlt.
exists q', r'; split=> //.
have z : toP m * toP g + toP t = 0.
  by rewrite em et -!scalerAl [_ * 'X^_]mulrC poly_addxx.
by rewrite e !toP_add // mulrDl addrACA z addr0.
Qed.

Lemma divideE p g : wfp p -> wfp g -> toP g != 0 ->
  exists q r,
    [/\ Generic_GF_Poly.divide f p g = Return (q, r), wfp q, wfp r,
        toP q = toP p %/ toP g & toP r = toP p %% toP g].
Proof.
move=> hp hg ng; rewrite /Generic_GF_Poly.divide is_zeroE // (negPf ng).
have hl : (1 <= Generic_GF_Poly.leading g < 256)%Z.
  have := byte_leading hg; rewrite /byte => hb.
  suff : Generic_GF_Poly.leading g <> 0%Z by lia.
  move=> e; move: ng; rewrite -lead_coef_eq0 -[lead_coef _]ofFK -leadingE // e.
  by rewrite toF0 eqxx.
have hn : Generic_GF_Poly.leading g <> 0%Z by lia.
rewrite inverseE //=.
have hil : byte (inv (Generic_GF_Poly.leading g)).
  by have := inv_range hl; rewrite /byte; lia.
have eil : toF (inv (Generic_GF_Poly.leading g))
           = (lead_coef (toP g))^-1.
  by rewrite toF_inv // leadingE // ofFK.
have [q [r [-> hq hr e hs]]] :=
  divide_loopE hg ng hil eil wfp_zero hp (size_toP_le p).
exists q, r; split=> //.
  by rewrite -[toP p]add0r -[0](mul0r (toP g)) -toP_zero -e divp_addl_mul_small.
by rewrite -[toP p]add0r -[0](mul0r (toP g)) -toP_zero -e modp_addl_mul_small.
Qed.

(* ------------------------------------------------------------------ *)
(** ** The generator polynomial and the cache of the encoder            *)
(* ------------------------------------------------------------------ *)

(** The roots of the generator of degree d. *)
Definition gen_roots (d : nat) : seq gf :=
  [seq toF (E (Z.of_nat i + gb)) | i <- iota 0 d].

Definition gen_poly (d : nat) : {poly gf} :=
  \prod_(a <- gen_roots d) ('X - a%:P).

Lemma gen_polyS d :
  gen_poly d.+1 = gen_poly d * ('X - (toF (E (Z.of_nat d + gb)))%:P).
Proof.
rewrite /gen_poly /gen_roots -addn1 iotaD map_cat big_cat /= big_seq1.
by rewrite add0n.
Qed.

Lemma generatorE d : wfp (generator f d) /\ toP (generator f d) = gen_poly d.
Proof.
elim: d => [|d [hw ht]].
  split=> //; rewrite /gen_poly /gen_roots /= big_nil.
  by rewrite -[Generic_GF_Poly.strip _]/Generic_GF_Poly.one toP_one.
have hb := byte_E (Z.of_nat d + gb).
set e := E (Z.of_nat d + gb) in hb.
have hx : Generic_GF_Poly.strip
            [:: 1%Z; Generic_GF.exp f (Z.of_nat d.+1 - 1
                                       + Generic_GF.generator_base f)]
          = [:: 1%Z; e].
  by rewrite f_generator_base /e /E; congr [:: _; Generic_GF.exp f _]; lia.
have hw2 : wfp [:: 1%Z; e].
  by rewrite /wfp /= andbT; apply/andP; split=> //; apply/is_byteP.
rewrite [generator f d.+1]/(RS_Encoder.next_generator f (generator f d) _).
rewrite /RS_Encoder.next_generator hx; split; first exact: wfp_multiply_poly.
rewrite toP_multiply_poly // ht gen_polyS; congr (_ * _).
rewrite !toP_cons toP_nil addr0 /= expr0 toF1 scale1r expr1 -/e.
by rewrite -mul_polyC mulr1 poly_oppE.
Qed.

Lemma gen_poly_monic d : gen_poly d \is monic.
Proof. exact: monic_prod_XsubC. Qed.

Lemma size_gen_poly d : size (gen_poly d) = d.+1.
Proof. by rewrite /gen_poly size_prod_XsubC /gen_roots size_map size_iota. Qed.

Lemma gen_poly_neq0 d : gen_poly d != 0.
Proof. by rewrite -size_poly_eq0 size_gen_poly. Qed.

Lemma root_gen_poly d (i : nat) : (i < d)%N ->
  (gen_poly d).[toF (E (Z.of_nat i + gb))] = 0.
Proof.
move=> hi; apply/eqP; rewrite -[_ == 0]/(root _ _) /gen_poly root_prod_XsubC.
by apply/mapP; exists i => //; rewrite mem_iota.
Qed.

(* ------------------------------------------------------------------ *)
(** ** encode                                                           *)
(* ------------------------------------------------------------------ *)

Lemma parityE (data : seq Z) (db ec : Z) :
  (1 <= ec)%Z -> (1 <= db)%Z -> (db + ec = Z.of_nat (size data))%Z ->
  all is_byte (take (Z.to_nat db) data) ->
  exists r,
    [/\ RS_Encoder.parity f (Some (generator f (Z.to_nat ec))) data db ec
        = Return r,
        wfp r, (size r <= Z.to_nat ec)%N
      & toP r = (toP (take (Z.to_nat db) data) * 'X^(Z.to_nat ec))
                %% gen_poly (Z.to_nat ec)].
Proof.
move=> hec hdb hsz hb; rewrite /RS_Encoder.parity /ta_of_prefix.
have hst : size (take (Z.to_nat db) data) = Z.to_nat db.
  by rewrite size_takel //; nat_lia.
rewrite hst subnn cats0 /Generic_GF_Poly.new size_eq0.
have hn : take (Z.to_nat db) data != [::].
  by rewrite -size_eq0 hst; nat_lia.
rewrite (negPf hn) /=.
have hi := wfp_strip hn hb.
have h1 : byte 1 by [].
have h0 : (0 <= ec)%Z by lia.
have [r1 [-> hr1 e1]] := multiply_by_monomialE hi h1 h0.
rewrite /=.
have [hg eg] := generatorE (Z.to_nat ec).
have ng : toP (generator f (Z.to_nat ec)) != 0 by rewrite eg gen_poly_neq0.
have [q [r [-> hq hr _ er]]] := divideE hr1 hg ng.
exists r; split=> //=.
  have : (size (toP r) < size (gen_poly (Z.to_nat ec)))%N.
    by rewrite er eg ltn_modp gen_poly_neq0.
  rewrite size_gen_poly ltnS size_toP //; case: eqP => [-> _|//].
  by rewrite /=; nat_lia.
by rewrite er e1 eg toF1 scale1r toP_strip.
Qed.

Lemma encodeE (c : RS_Encoder.cache) (data : seq Z) (ec : Z) :
  cache_ok f c -> (1 <= ec)%Z -> (1 <= Z.of_nat (size data) - ec)%Z ->
  all is_byte (take (Z.to_nat (Z.of_nat (size data) - ec)) data) ->
  exists c' r,
    cache_ok f c' /\
    [/\ RS_Encoder.encode f c data ec
        = (c', take (Z.to_nat (Z.of_nat (size data) - ec)) data
               ++ nseq (Z.to_nat ec - size r) 0%Z ++ r, Return tt),
        RS_Encoder.parity f (Some (generator f (Z.to_nat ec))) data
          (Z.of_nat (size data) - ec) ec = Return r,
        wfp r, (size r <= Z.to_nat ec)%N
      & toP r = (toP (take (Z.to_nat (Z.of_nat (size data) - ec)) data)
                 * 'X^(Z.to_nat ec)) %% gen_poly (Z.to_nat ec)].
Proof.
move=> hc hec hdb hb; rewrite /RS_Encoder.encode.
have /Z.eqb_neq -> : ec <> 0%Z by lia.
have /Z.leb_gt -> : (0 < Z.of_nat (size data) - ec)%Z by lia.
have h0 : (0 <= ec)%Z by lia.
have [c' hc' ->] := build_generatorE hc h0.
have hsz : (Z.of_nat (size data) - ec + ec = Z.of_nat (size data))%Z by lia.
have [r [h1 h2 h3 h4]] := parityE hec hdb hsz hb.
rewrite h1 write_parityE //; first by nat_lia.
by exists c', r; split.
Qed.

(* ------------------------------------------------------------------ *)
(** ** decode on a codeword                                             *)
(* ------------------------------------------------------------------ *)

(** The buffer encode leaves is a multiple of the generator. *)
Lemma codeword_poly (data r : seq Z) (db ec : nat) :
  (size r <= ec)%N ->
  toP r = (toP (take db data) * 'X^ec) %% gen_poly ec ->
  toP (take db data ++ nseq (ec - size r) 0%Z ++ r)
  = (toP (take db data) * 'X^ec) %/ gen_poly ec * gen_poly ec.
Proof.
move=> hr er; rewrite !toP_cat toP_nseq0 mul0r add0r size_cat size_nseq subnK //.
rewrite er; set P := _ * 'X^ec.
by rewrite {1}(divp_eq P (gen_poly ec)) gf_char2.
Qed.

Lemma syndromes_zero (received : seq Z) (ec : nat) (Q : {poly gf}) :
  received != [::] -> all is_byte received ->
  toP received = Q * gen_poly ec ->
  all (fun s => (s =? 0)%Z)
      (rev (RS_Decoder.syndrome_values f (Generic_GF_Poly.strip received)
              (Z.of_nat ec))).
Proof.
move=> hn hb e; rewrite all_rev /RS_Decoder.syndrome_values all_map Nat2Z.id.
apply/allP => i; rewrite mem_iota add0n /= f_generator_base => hi.
rewrite evaluate_atE; [exact: wfp_strip|exact: byte_E|].
by rewrite toP_strip e hornerM root_gen_poly // mulr0 ofF0.
Qed.

Lemma decode_codeword (received : seq Z) (ec : nat) (Q : {poly gf}) :
  received != [::] -> all is_byte received ->
  toP received = Q * gen_poly ec ->
  RS_Decoder.decode f received (Z.of_nat ec) = (received, Return tt).
Proof.
move=> hn hb e; rewrite /RS_Decoder.decode /Generic_GF_Poly.new size_eq0.
rewrite (negPf hn).
have /Z.ltb_ge -> : (0 <= Z.of_nat ec)%Z by lia.
by rewrite (syndromes_zero hn hb e).
Qed.

(* ------------------------------------------------------------------ *)
(** ** Consequences for encode and decode                               *)
(* ------------------------------------------------------------------ *)

Lemma encode_frame (c : RS_Encoder.cache) (data : seq Z) (ec : Z) :
  cache_ok f c -> (1 <= ec)%Z -> (1 <= Z.of_nat (size data) - ec)%Z ->
  all is_byte (take (Z.to_nat (Z.of_nat (size data) - ec)) data) ->
  exists c' data',
    [/\ RS_Encoder.encode f c data ec = (c', data', Return tt),
        cache_ok f c', size data' = size data,
        take (Z.to_nat (Z.of_nat (size data) - ec)) data'
        = take (Z.to_nat (Z.of_nat (size data) - ec)) data
      & all is_byte (drop (Z.to_nat (Z.of_nat (size data) - ec)) data')].
Proof.
move=> hc hec hdb hb.
have [c' [r [hc' [-> h1 h2 h3 _]]]] := encodeE hc hec hdb hb.
set db := Z.to_nat _ in hb *.
have hs : size (take db data) = db by rewrite size_takel // /db; nat_lia.
exists c', (take db data ++ nseq (Z.to_nat ec - size r) 0%Z ++ r); split=> //.
- by rewrite !size_cat size_nseq hs subnK // /db; nat_lia.
- by rewrite take_size_cat.
- by rewrite drop_size_cat // all_cat bytes_nseq0 wfp_bytes.
Qed.

Lemma encode_parity_indep (c1 c2 : RS_Encoder.cache) (d1 d2 : seq Z) (ec : Z) :
  cache_ok f c1 -> cache_ok f c2 ->
  (1 <= ec)%Z -> (1 <= Z.of_nat (size d1) - ec)%Z -> size d1 = size d2 ->
  all is_byte (take (Z.to_nat (Z.of_nat (size d1) - ec)) d1) ->
  take (Z.to_nat (Z.of_nat (size d1) - ec)) d1
  = take (Z.to_nat (Z.of_nat (size d1) - ec)) d2 ->
  (RS_Encoder.encode f c1 d1 ec).1.2 = (RS_Encoder.encode f c2 d2 ec).1.2
  /\ (RS_Encoder.encode f c1 d1 ec).2 = Return tt
  /\ (RS_Encoder.encode f c2 d2 ec).2 = Return tt.
Proof.
move=> hc1 hc2 hec hdb hs hb ht.
have hdb2 : (1 <= Z.of_nat (size d2) - ec)%Z by rewrite -hs.
have hb2 : all is_byte (take (Z.to_nat (Z.of_nat (size d2) - ec)) d2).
  by rewrite -hs -ht.
have [c1' [r1 [_ [-> p1 _ _ _]]]] := encodeE hc1 hec hdb hb.
have [c2' [r2 [_ [-> p2 _ _ _]]]] := encodeE hc2 hec hdb2 hb2.
have e : RS_Encoder.parity f (Some (generator f (Z.to_nat ec))) d2
           (Z.of_nat (size d2) - ec) ec
         = RS_Encoder.parity f (Some (generator f (Z.to_nat ec))) d1
           (Z.of_nat (size d1) - ec) ec.
  by rewrite /RS_Encoder.parity -hs -ht.
by move: p2; rewrite e p1 /= -hs ht => -[<-].
Qed.

Lemma encode_decode (c : RS_Encoder.cache) (data : seq Z) (ec : Z) :
  cache_ok f c -> (1 <= ec)%Z -> (1 <= Z.of_nat (size data) - ec)%Z ->
  all is_byte (take (Z.to_nat (Z.of_nat (size data) - ec)) data) ->
  exists c' data',
    [/\ RS_Encoder.encode f c data ec = (c', data', Return tt),
        take (Z.to_nat (Z.of_nat (size data) - ec)) data'
        = take (Z.to_nat (Z.of_nat (size data) - ec)) data
      & RS_Decoder.decode f data' ec = (data', Return tt)].
Proof.
move=> hc hec hdb hb.
have [c' [r [hc' [-> h1 h2 h3 h4]]]] := encodeE hc hec hdb hb.
set db := Z.to_nat _ in hb h4 *.
have hs : size (take db data) = db by rewrite size_takel // /db; nat_lia.
exists c', (take db data ++ nseq (Z.to_nat ec - size r) 0%Z ++ r); split=> //.
  by rewrite take_size_cat.
rewrite -[X in RS_Decoder.decode _ _ X](Z2Nat.id ec); first lia.
apply: (@decode_codeword _ _ ((toP (take db data) * 'X^(Z.to_nat ec))
                               %/ gen_poly (Z.to_nat ec))).
- by rewrite -size_eq0 size_cat hs addn_eq0 negb_and /db; apply/orP; left; nat_lia.
- by rewrite !all_cat hb bytes_nseq0 wfp_bytes.
- exact: codeword_poly.
Qed.

(** encode raises exactly when ec_bytes <= 0 or no data byte is left, and
    then the buffer is the one it was given. *)
Lemma encode_raises (c : RS_Encoder.cache) (data : seq Z) (ec : Z) :
  cache_ok f c ->
  all is_byte (take (Z.to_nat (Z.of_nat (size data) - ec)) data) ->
  (raises (RS_Encoder.encode f c data ec).2
   <-> (ec <= 0 \/ Z.of_nat (size data) - ec <= 0)%Z)
  /\ (raises (RS_Encoder.encode f c data ec).2 ->
      (RS_Encoder.encode f c data ec).1.2 = data).
Proof.
move=> hc hb.
have [hec|hec] := Z.lt_ge_cases ec 1; last first.
  have [hdb|hdb] := Z.lt_ge_cases (Z.of_nat (size data) - ec) 1.
    rewrite /RS_Encoder.encode.
    have /Z.eqb_neq -> : ec <> 0%Z by lia.
    have /Z.leb_le -> /= : (Z.of_nat (size data) - ec <= 0)%Z by lia.
    by split=> //; split=> // _; right; lia.
  have [c' [r [_ [-> _ _ _ _]]]] := encodeE hc hec hdb hb.
  by split=> //=; split=> //; lia.
have [->|hn] := Z.eq_dec ec 0; first by split=> //=; split=> // _; left.
have hneg : (ec < 0)%Z by lia.
rewrite /RS_Encoder.encode.
have /Z.eqb_neq -> := hn.
have /Z.leb_gt -> : (0 < Z.of_nat (size data) - ec)%Z by lia.
rewrite /RS_Encoder.build_generator.
have -> : (ec >=? Z.of_nat (size c))%Z = false by rewrite Z.geb_leb; apply/Z.leb_gt; lia.
rewrite /RS_Encoder.cache_read; have /Z.ltb_lt -> := hneg.
rewrite /RS_Encoder.parity /Generic_GF_Poly.new /ta_of_prefix.
have -> : (size (take (Z.to_nat (Z.of_nat (size data) - ec)) data
                 ++ nseq (Z.to_nat (Z.of_nat (size data) - ec)
                          - size (take (Z.to_nat (Z.of_nat (size data) - ec))
                                    data)) 0%Z) == 0%N) = false.
  by rewrite size_cat size_nseq size_take; case: ltnP => h; nat_lia.
rewrite /= /Generic_GF_Poly.multiply_by_monomial.
have /Z.ltb_lt -> /= := hneg.
by split=> //; split=> // _; left; lia.
Qed.

(* ------------------------------------------------------------------ *)
(** * The primitive element and the powers in the exp table             *)
(* ------------------------------------------------------------------ *)

(** The element 2, whose powers fill exp_table. *)
Definition alpha : gf := toF 2.

Lemma toF_pw n : toF (pw n) = alpha ^+ n.
Proof.
elim: n => [|n ih]; first by rewrite expr0 -toF1.
rewrite pwS -gf_mul2; first exact: byte_pw.
by rewrite toFM //; [exact: byte_pw | rewrite ih exprS].
Qed.

Lemma toF_E i : (0 <= i < 256)%Z -> toF (E i) = alpha ^+ Z.to_nat i.
Proof. by move=> hi; rewrite E_pwZ // toF_pw. Qed.

Lemma toF_inj a b : byte a -> byte b -> toF a = toF b -> a = b.
Proof. by move=> ha hb e; rewrite -(toFK ha) -(toFK hb) e. Qed.

Lemma alpha_order : alpha ^+ 255 = 1.
Proof. by rewrite -(toF_E (i := 255)) // Hwf2 toF1. Qed.

Lemma alpha_inj (i j : nat) : (i < 255)%N -> (j < 255)%N ->
  alpha ^+ i = alpha ^+ j -> i = j.
Proof.
move=> hi hj; rewrite -!toF_pw => /(toF_inj (byte_pw _) (byte_pw _)).
exact: pw_inj.
Qed.

Lemma alpha_neq0 : alpha != 0.
Proof.
apply/eqP => e; have := alpha_order; rewrite e expr0n /= => /eqP.
by rewrite eq_sym oner_eq0.
Qed.

Lemma alpha_unit n : alpha ^+ n != 0.
Proof. by rewrite expf_neq0 // alpha_neq0. Qed.

(** Every nonzero element is a power of alpha below 255: its logarithm. *)
Lemma alpha_log (x : gf) : x != 0 ->
  let d := Z.to_nat (Lg (ofF x)) in (d < 255)%N /\ x = alpha ^+ d.
Proof.
move=> hx /=; have hr := Lg_range (ofF x).
split; first by nat_lia.
have hb := byte_ofF x.
have hx1 : (1 <= ofF x < 256)%Z.
  by move: hx; rewrite -ofF_eq0 => /eqP; rewrite /byte in hb; lia.
by rewrite -toF_E; [lia | rewrite Hwf1 // ofFK].
Qed.

Lemma Lg_alpha (d : nat) : (d < 255)%N -> Lg (ofF (alpha ^+ d)) = Z.of_nat d.
Proof.
move=> hd; have hz : (0 <= Z.of_nat d < 255)%Z by nat_lia.
have := toF_E (i := Z.of_nat d); rewrite Nat2Z.id => <-; first lia.
by rewrite toFK ?Lg_E //; exact: byte_E.
Qed.

(* ------------------------------------------------------------------ *)
(** * run_euclidean_algorithm                                           *)
(* ------------------------------------------------------------------ *)

(** The inner loop of run_euclidean_algorithm is the loop of divide. *)
Lemma euclid_divide_eq g il fuel q r :
  RS_Decoder.euclid_divide f g il fuel q r
  = Generic_GF_Poly.divide_loop f g il fuel q r.
Proof.
elim: fuel q r => [|fuel ih] q r //=.
case: ifP => // _.
rewrite /Generic_GF_Poly.build_monomial /Generic_GF_Poly.multiply_by_monomial.
by case: ifP => // _; case: ifP => _ /=; exact: ih.
Qed.

Lemma euclid_divE r_last r : wfp r_last -> wfp r -> toP r != 0 ->
  exists q r',
    [/\ (dlt_inverse <- Generic_GF.inverse f (Generic_GF_Poly.leading r) ;;
         RS_Decoder.euclid_divide f r dlt_inverse (size r_last)
           Generic_GF_Poly.zero r_last) = Return (q, r'),
        wfp q, wfp r',
        toP q = toP r_last %/ toP r & toP r' = toP r_last %% toP r].
Proof.
move=> hrl hr r0.
have [q [r' [e hq hr' eq er]]] := divideE hrl hr r0.
exists q, r'; split=> //.
move: e; rewrite /Generic_GF_Poly.divide is_zeroE // (negPf r0).
by case: (Generic_GF.inverse f _) => [il|ex|] //=; rewrite euclid_divide_eq.
Qed.

Lemma euclid_loopS (R : Z) fuel r_last r t_last t0 :
  RS_Decoder.euclid_loop f R fuel.+1 r_last r t_last t0
  = if (2 * Generic_GF_Poly.degree r >=? R)%Z then
      if Generic_GF_Poly.is_zero r then Throw RLastWasZero
      else
        qr <- (dlt_inverse <- Generic_GF.inverse f (Generic_GF_Poly.leading r) ;;
               RS_Decoder.euclid_divide f r dlt_inverse (size r_last)
                 Generic_GF_Poly.zero r_last) ;;
        if (Generic_GF_Poly.degree qr.2 >=? Generic_GF_Poly.degree r)%Z
        then Throw DivisionFailedToReduce
        else RS_Decoder.euclid_loop f R fuel r qr.2 t0
               (Generic_GF_Poly.add_or_subtract
                  (Generic_GF_Poly.multiply_poly f qr.1 t0) t_last)
    else Return (t0, r).
Proof.
rewrite [LHS]/=; case: ifP => // _; case: ifP => // _.
by case: (Generic_GF.inverse f _).
Qed.

Lemma euclid_cond (R : nat) r : wfp r ->
  (2 * Generic_GF_Poly.degree r >=? Z.of_nat R)%Z
  = (R <= 2 * (size (toP r)).-1)%N.
Proof.
move=> hr; rewrite degreeE // -subn1.
by apply/idP/idP => [/Z.geb_le h|h]; [|apply/Z.geb_le]; nat_lia.
Qed.

Lemma pred_lt (a b : nat) : (1 < b)%N -> (a < b)%N -> (a.-1 < b.-1)%N.
Proof. by rewrite -!subn1 => h1 h2; nat_lia. Qed.

Lemma pred_ge1 (R a : nat) : (0 < R)%N -> (R <= 2 * a.-1)%N -> (1 < a)%N.
Proof. by rewrite -!subn1 => h1 h2; nat_lia. Qed.

Lemma euclid_loopE (R : nat) (S : {poly gf}) : (0 < R)%N ->
  forall fuel r_last r t_last t,
  wfp r_last -> wfp r -> wfp t_last -> wfp t ->
  euclid_inv R S (toP r_last) (toP r) (toP t_last) (toP t) ->
  (R <= 2 * (size (toP r_last)).-1)%N ->
  (size (toP r) < fuel)%N ->
  exists t' r' (pl ql : {poly gf}),
    [/\ RS_Decoder.euclid_loop f (Z.of_nat R) fuel r_last r t_last t
        = Return (t', r'),
        wfp t' /\ wfp r',
        euclid_inv R S pl (toP r') ql (toP t'),
        (R <= 2 * (size pl).-1)%N
      & (2 * (size (toP r')).-1 < R)%N].
Proof.
move=> hR; elim=> [|fuel ih] r_last r t_last t hrl hr htl ht hinv hl hf //.
rewrite euclid_loopS euclid_cond //; case: leqP => hc; last first.
  by exists t, r, (toP r_last), (toP t_last); split.
have s2 : (1 < size (toP r))%N by exact: pred_ge1 hR hc.
have r0 : toP r != 0 by rewrite -size_poly_gt0 ltnW.
rewrite is_zeroE // (negPf r0).
have [q [r' [-> hq hr' eq er]]] := euclid_divE hrl hr r0.
have hlt : (size (toP r') < size (toP r))%N by rewrite er ltn_modp.
rewrite [bind _ _]/=.
have -> : (Generic_GF_Poly.degree r' >=? Generic_GF_Poly.degree r)%Z = false.
  rewrite !degreeE //; apply/negbTE/negP => /Z.geb_le h.
  by have := pred_lt s2 hlt; nat_lia.
apply: ih => //.
- exact: wfp_add (wfp_multiply_poly hq ht) htl.
- rewrite toP_add ?toP_multiply_poly //; first exact: wfp_multiply_poly.
  by rewrite eq er; exact: (euclid_inv_step gf_oppE hinv r0).
- by rewrite -ltnS (leq_trans _ hf).
Qed.

Lemma get_coefficient0 p : wfp p ->
  to_int32 (Generic_GF_Poly.get_coefficient p 0) = ofF (toP p).[0].
Proof.
move=> hp; have := evaluate_atE hp (a := 0%Z).
by rewrite /Generic_GF_Poly.evaluate_at toF0 /=; apply.
Qed.

Lemma ofF_range (k : gf) : k != 0 -> (1 <= ofF k < 256)%Z.
Proof.
rewrite -ofF_eq0 => /eqP h; have := byte_ofF k; rewrite /byte; lia.
Qed.

(** For at most R/2 errors the algorithm returns the locator and the
    evaluator of the errors. *)
Lemma run_euclidE (xs : seq gf) (y : gf -> gf) (b R : nat)
    (mono syn : Generic_GF_Poly.t) :
  uniq xs -> 0 \notin xs -> (forall x, x \in xs -> y x != 0) ->
  (0 < R)%N -> (2 * size xs <= R)%N ->
  wfp syn -> toP syn = syndrome_poly xs y b R ->
  Generic_GF_Poly.build_monomial (Z.of_nat R) 1 = Return mono ->
  exists sg om,
    [/\ RS_Decoder.run_euclidean_algorithm f mono syn (Z.of_nat R)
        = Return (sg, om),
        wfp sg, wfp om, toP sg = locator xs & toP om = evaluator xs y b].
Proof.
move=> hu h0 hy hR hnu hsyn esyn.
have b1 : byte 1 by [].
have [m [-> hm em]] := build_monomialE b1 (Nat2Z.is_nonneg R) => -[<-].
move: em; rewrite Nat2Z.id toF1 scale1r => em.
have sS : (size (toP syn) <= R)%N by rewrite esyn /syndrome_poly size_poly.
rewrite /RS_Decoder.run_euclidean_algorithm.
have -> : (Generic_GF_Poly.degree m <? Generic_GF_Poly.degree syn)%Z = false.
  rewrite !degreeE // em size_polyXn [_.-1]/=.
  by apply/Z.ltb_ge; move: sS; rewrite -subn1 => sS; nat_lia.
have hinv : euclid_inv R (toP syn) (toP m) (toP syn)
              (toP Generic_GF_Poly.zero) (toP Generic_GF_Poly.one).
  by rewrite em toP_zero toP_one; exact: euclid_inv_init.
have hl : (R <= 2 * (size (toP m)).-1)%N.
  by rewrite em size_polyXn [_.-1]/=; nat_lia.
have hf : (size (toP syn) < size m)%N.
  apply: leq_trans (size_toP_le m).
  by rewrite em size_polyXn ltnS.
have [t' [r' [pl [ql [-> [ht' hr'] hi hpl hstop]]]]] :=
  euclid_loopE hR hm hsyn wfp_zero wfp_one hinv hl hf.
have hk : locator xs * toP syn = evaluator xs y b + (- overflow xs y b R) * 'X^R.
  by rewrite esyn key_equation // mulNr.
have [k k0 [et er]] :=
  euclid_inv_exit hi hk (coprime_locator_evaluator b hu h0 hy)
    (size_locator h0) (size_evaluator y b hu h0) hnu hpl hstop.
rewrite [bind _ _]/= get_coefficient0 // et hornerZ locator_at0 mulr1.
have hr := ofF_range k0.
have /Z.eqb_neq -> : ofF k <> 0%Z by lia.
rewrite inverseE; first lia.
rewrite [bind _ _]/=.
have bi : byte (inv (ofF k)) by have := inv_range hr; rewrite /byte; lia.
have ei : toF (inv (ofF k)) = k^-1 by rewrite toF_inv // ofFK.
exists (Generic_GF_Poly.multiply_scalar f t' (inv (ofF k))),
       (Generic_GF_Poly.multiply_scalar f r' (inv (ofF k))).
split=> //; try exact: wfp_multiply_scalar.
- by rewrite toP_multiply_scalar // ei et scalerA mulVf // scale1r.
- by rewrite toP_multiply_scalar // ei er scalerA mulVf // scale1r.
Qed.

(* ------------------------------------------------------------------ *)
(** * find_error_locations                                              *)
(* ------------------------------------------------------------------ *)

Lemma get_coefficientE p (d : nat) : wfp p ->
  to_int32 (Generic_GF_Poly.get_coefficient p (Z.of_nat d)) = ofF (toP p)`_d.
Proof.
move=> hp; rewrite /Generic_GF_Poly.get_coefficient /ta_read coef_toP.
have hb := wfp_bytes hp.
have [hd|hd] := ltnP d (size p).
  have /Z.ltb_ge -> : (0 <= Z.of_nat (size p) - 1 - Z.of_nat d)%Z by nat_lia.
  have -> : Z.to_nat (Z.of_nat (size p) - 1 - Z.of_nat d) = (size p - d.+1)%N.
    by nat_lia.
  have -> /= : (size p - d.+1 < size p)%N by nat_lia.
  by rewrite toFK //; apply/is_byteP/(all_nthP 0%Z hb); nat_lia.
rewrite ofF0; case: Z.ltb_spec => // h.
have -> // : (Z.to_nat (Z.of_nat (size p) - 1 - Z.of_nat d) < size p)%N = false.
by nat_lia.
Qed.

(** The test of the search loop: i is a root of the locator. *)
Definition is_root (sg : Generic_GF_Poly.t) (i : nat) : bool :=
  (Generic_GF_Poly.evaluate_at f sg (Z.of_nat i) =? 0)%Z.

Definition chien_step (sg : Generic_GF_Poly.t) (num_errors : Z)
    (st : outcome (Int32Array * Z)) (i : nat) : outcome (Int32Array * Z) :=
  ' (result, e) <- st ;;
  if (e <? num_errors)%Z then
    if (Generic_GF_Poly.evaluate_at f sg (Z.of_nat i) =? 0)%Z then
      x <- Generic_GF.inverse f (Z.of_nat i) ;;
      Return (ta_write result e x, (e + 1)%Z)
    else Return (result, e)
  else Return (result, e).

Lemma chien_fold (sg : Generic_GF_Poly.t) (nu : nat) (l : seq nat)
    (found : seq Z) :
  all (fun i => (0 < i)%N) l ->
  (size found + count (is_root sg) l <= nu)%N ->
  foldl (chien_step sg (Z.of_nat nu))
    (Return (found ++ nseq (nu - size found) 0%Z, Z.of_nat (size found))) l
  = Return (found ++ [seq inv (Z.of_nat i) | i <- filter (is_root sg) l]
              ++ nseq (nu - size found - count (is_root sg) l) 0%Z,
            Z.of_nat (size found + count (is_root sg) l)).
Proof.
elim: l found => [|i l ih] found /=; first by rewrite subn0 addn0.
move=> /andP [hi hl] hc; rewrite {1}/chien_step [bind _ _]/=.
rewrite -/(is_root sg i); case hr: (is_root sg i) hc => /= hc; last first.
  rewrite add0n in hc *; have -> : (if (Z.of_nat (size found) <? Z.of_nat nu)%Z
     then Return (found ++ nseq (nu - size found) 0%Z, Z.of_nat (size found))
     else Return (found ++ nseq (nu - size found) 0%Z, Z.of_nat (size found)))
    = Return (found ++ nseq (nu - size found) 0%Z, Z.of_nat (size found)).
    by case: ifP.
  exact: ih.
have /Z.ltb_lt -> : (Z.of_nat (size found) < Z.of_nat nu)%Z by nat_lia.
rewrite inverseE; first by nat_lia.
rewrite [bind _ _]/=.
have -> : ta_write (found ++ nseq (nu - size found) 0%Z)
            (Z.of_nat (size found)) (inv (Z.of_nat i))
          = rcons found (inv (Z.of_nat i))
            ++ nseq (nu - size (rcons found (inv (Z.of_nat i)))) 0%Z.
  rewrite /ta_write Nat2Z.id size_cat size_nseq.
  have /Z.leb_le -> : (0 <= Z.of_nat (size found))%Z by lia.
  have -> : (size found < size found + (nu - size found))%N by nat_lia.
  rewrite -[X in set_nth _ _ X]addn0 set_nth_cat_r size_rcons cat_rcons.
  have -> : (nu - size found = (nu - (size found).+1).+1)%N by nat_lia.
  by [].
have -> : (Z.of_nat (size found) + 1)%Z
          = Z.of_nat (size (rcons found (inv (Z.of_nat i)))).
  by rewrite size_rcons; lia.
rewrite ih //; first by rewrite size_rcons; nat_lia.
rewrite size_rcons cat_rcons; congr (Return (_ ++ _ :: _ ++ nseq _ _, _)).
  by nat_lia.
by congr Z.of_nat; nat_lia.
Qed.

Definition pos_byte (l : Z) : bool := (1 <=? l)%Z && (l <? 256)%Z.

Lemma pos_byteP l : reflect (1 <= l < 256)%Z (pos_byte l).
Proof.
by apply: (iffP andP) => [[/Z.leb_le h1 /Z.ltb_lt h2]|[h1 h2]];
  [|split; [apply/Z.leb_le | apply/Z.ltb_lt]].
Qed.

Lemma toF_pos_neq0 l : (1 <= l < 256)%Z -> toF l != 0.
Proof. by move=> h; apply: toF_neq0; rewrite /byte; lia. Qed.

Lemma is_rootE xs sg (i : nat) : 0 \notin xs -> wfp sg ->
  toP sg = locator xs -> (i < 256)%N ->
  is_root sg i = ((toF (Z.of_nat i))^-1 \in xs).
Proof.
move=> h0 hsg esg hi.
have bi : byte (Z.of_nat i) by rewrite /byte; nat_lia.
rewrite /is_root evaluate_atE // esg -root_locator // rootE.
by rewrite -ofF_eq0; apply/idP/eqP => [/Z.eqb_eq|->] //; exact/Z.eqb_eq.
Qed.

Lemma inv_of_nat_inj (i j : nat) : (0 < i < 256)%N -> (0 < j < 256)%N ->
  (toF (Z.of_nat i))^-1 = (toF (Z.of_nat j))^-1 -> i = j.
Proof.
move=> hi hj /invr_inj /toF_inj e; apply: Nat2Z.inj; apply: e.
  by rewrite /byte; nat_lia.
by rewrite /byte; nat_lia.
Qed.

(** The roots found by the search are the inverses of the locations. *)
Lemma chien_roots xs sg : uniq xs -> 0 \notin xs -> wfp sg ->
  toP sg = locator xs ->
  perm_eq [seq (toF (Z.of_nat i))^-1 | i <- filter (is_root sg) (iota 1 255)]
          xs.
Proof.
move=> hu h0 hsg esg.
have hin i : i \in filter (is_root sg) (iota 1 255) ->
    [/\ (0 < i < 256)%N & (toF (Z.of_nat i))^-1 \in xs].
  rewrite mem_filter mem_iota => /andP [hr /andP [h1 h2]].
  have h3 : (i < 256)%N by [].
  by split; [rewrite h1 h3 | rewrite -(is_rootE h0 hsg esg)].
apply: uniq_perm => //.
  rewrite map_inj_in_uniq ?filter_uniq ?iota_uniq // => i j /hin [hi _] /hin [hj _].
  exact: inv_of_nat_inj.
move=> x; apply/mapP/idP => [[i /hin [_ hi] ->] //|hx].
have x0 : x != 0 by apply: contraNneq h0 => <-.
have hr := ofF_range (invr_neq0 x0).
exists (Z.to_nat (ofF x^-1)); last by rewrite Z2Nat.id ?ofFK ?invrK //; lia.
have h3 : (Z.to_nat (ofF x^-1) < 256)%N by nat_lia.
rewrite mem_filter mem_iota (is_rootE h0 hsg esg) // Z2Nat.id; first lia.
rewrite ofFK invrK hx /=.
by apply/andP; split; nat_lia.
Qed.

Lemma chien_searchE sg (nu : Z) :
  RS_Decoder.chien_search f sg nu
  = foldl (chien_step sg nu) (Return (nseq (Z.to_nat nu) 0%Z, 0%Z))
      (iota 1 255).
Proof. by rewrite /RS_Decoder.chien_search f_size. Qed.

Lemma locator1 (x : gf) : (locator [:: x])`_1 = x.
Proof.
rewrite /locator /linprod big_seq1 /lin coefB coefC coefZ coefX /=.
by rewrite mulr1 sub0r gf_oppE.
Qed.

Lemma find_locations_of_search sg (nu : Z) locs :
  Generic_GF_Poly.degree sg = nu -> nu <> 1%Z ->
  RS_Decoder.chien_search f sg nu = Return (locs, nu) ->
  RS_Decoder.find_error_locations f sg = Return locs.
Proof.
move=> hd /Z.eqb_neq h1 e.
by rewrite /RS_Decoder.find_error_locations hd h1 e /= Z.eqb_refl.
Qed.

Lemma find_error_locationsE xs sg : uniq xs -> 0 \notin xs -> wfp sg ->
  toP sg = locator xs ->
  exists locs,
    [/\ RS_Decoder.find_error_locations f sg = Return locs,
        all pos_byte locs & perm_eq [seq toF l | l <- locs] xs].
Proof.
move=> hu h0 hsg esg.
have hd : Generic_GF_Poly.degree sg = Z.of_nat (size xs).
  by rewrite degreeE // esg size_locator.
have [h1|h1] := Z.eq_dec (Z.of_nat (size xs)) 1.
  rewrite /RS_Decoder.find_error_locations hd h1 /=.
  have {h1} : size xs = 1%N by nat_lia.
  case: xs hu h0 esg hd => [|x [|? ?]] // _ h0 esg _ _.
  have x0 : x != 0 by move: h0; rewrite inE eq_sym.
  exists [:: ofF x]; split=> /=.
  - by rewrite (get_coefficientE 1 hsg) esg locator1.
  - by rewrite andbT; apply/pos_byteP; exact: ofF_range.
  - by rewrite ofFK.
have hp := chien_roots hu h0 hsg esg.
have hc : count (is_root sg) (iota 1 255) = size xs.
  by rewrite -(perm_size hp) size_map size_filter.
have ha : all (fun i => (0 < i)%N) (iota 1 255).
  by apply/allP => i; rewrite mem_iota => /andP [].
exists [seq inv (Z.of_nat i) | i <- filter (is_root sg) (iota 1 255)].
have hs : RS_Decoder.chien_search f sg (Z.of_nat (size xs))
    = Return ([seq inv (Z.of_nat i) | i <- filter (is_root sg) (iota 1 255)],
              Z.of_nat (size xs)).
  have := @chien_fold sg (size xs) (iota 1 255) [::] ha.
  by rewrite chien_searchE Nat2Z.id hc add0n subn0 subnn cats0 => ->.
have hi i : i \in filter (is_root sg) (iota 1 255) ->
    (1 <= Z.of_nat i < 256)%Z.
  by rewrite mem_filter mem_iota => /andP [_ /andP [h2 h3]]; nat_lia.
split.
- exact: find_locations_of_search hd h1 hs.
- by apply/allP => l /mapP [i /hi hr ->]; apply/pos_byteP; exact: inv_range.
rewrite -map_comp; move: hp; congr perm_eq.
by apply/eq_in_map => i /hi hr; rewrite /= toF_inv.
Qed.

(* ------------------------------------------------------------------ *)
(** * find_error_magnitudes                                             *)
(* ------------------------------------------------------------------ *)

Lemma lin_at (z a : gf) : (lin z).[a] = 1 + z * a.
Proof. by rewrite /lin !hornerE -[- _]gf_oppE opprK. Qed.

Lemma forney_fold (locs : seq Z) (i : nat) (xi : Z) (l : seq nat) (acc : Z) :
  all is_byte locs -> byte xi -> byte acc ->
  let den :=
    foldl (fun denominator j =>
             if i != j then
               Generic_GF.multiply f denominator
                 (Generic_GF.add_or_subtract 1
                    (Generic_GF.multiply f (nth 0%Z locs j) xi))
             else denominator) acc l in
  byte den /\
  toF den = toF acc * \prod_(j <- l | j != i)
                        (1 + toF (nth 0%Z locs j) * toF xi).
Proof.
move=> hl hx; elim: l acc => [|j l ih] acc ha /=.
  by rewrite big_nil mulr1.
have hj : byte (nth 0%Z locs j).
  have [h|h] := ltnP j (size locs); last by rewrite nth_default.
  exact/is_byteP/(all_nthP 0%Z hl).
rewrite big_cons (eq_sym j i); case: ifP => hij; last exact: ih.
have hm : byte (Generic_GF.add_or_subtract 1
                  (Generic_GF.multiply f (nth 0%Z locs j) xi)).
  by apply: byte_lxor => //; exact: byte_mul.
have [h1 ->] := ih _ (byte_mul ha hm); split=> //.
by rewrite toFM // toFD ?toFM ?toF1 ?mulrA //; exact: byte_mul.
Qed.

Section Forney.

Variables (xs : seq gf) (y : gf -> gf) (locs : seq Z) (om : Generic_GF_Poly.t).
Hypothesis xs_uniq : uniq xs.
Hypothesis xs_neq0 : 0 \notin xs.
Hypothesis gb01 : gb = 0%Z \/ gb = 1%Z.
Hypothesis locs_pos : all pos_byte locs.
Hypothesis locs_perm : perm_eq [seq toF l | l <- locs] xs.
Hypothesis om_wf : wfp om.
Hypothesis om_eval : toP om = evaluator xs y (Z.to_nat gb).

Lemma locs_bytes : all is_byte locs.
Proof.
apply/allP => l /(allP locs_pos) /pos_byteP h.
by apply/is_byteP; rewrite /byte; lia.
Qed.

Lemma locs_nth (i : nat) : (i < size locs)%N ->
  (1 <= nth 0%Z locs i < 256)%Z /\ toF (nth 0%Z locs i) \in xs.
Proof.
move=> hi; split; first exact/pos_byteP/(all_nthP 0%Z locs_pos).
by rewrite -(perm_mem locs_perm) map_f // mem_nth.
Qed.

Lemma locs_uniq : uniq [seq toF l | l <- locs].
Proof. by rewrite (perm_uniq locs_perm). Qed.

(** The product of the denominator loop is the cofactor of the locator at
    the inverse of the location. *)
Lemma denominator_cofactor (i : nat) : (i < size locs)%N ->
  \prod_(j <- iota 0 (size locs) | j != i)
     (1 + toF (nth 0%Z locs j) * (toF (nth 0%Z locs i))^-1)
  = (cofactor xs (toF (nth 0%Z locs i))).[(toF (nth 0%Z locs i))^-1].
Proof.
move=> hi; set x := toF (nth 0%Z locs i).
rewrite /cofactor horner_prod -(perm_big _ locs_perm) /= big_map.
rewrite (big_nth 0%Z) big_mkord [LHS]big_mkcond [RHS]big_mkcond /=.
have e n : index_iota 0 n = iota 0 n by rewrite /index_iota subn0.
rewrite -e big_mkord; apply: eq_bigr => j _.
have -> : (toF (nth 0%Z locs j) != x) = (j != i :> nat).
  rewrite /x -!(nth_map 0%Z 0) ?size_map //.
  by rewrite (nth_uniq 0 _ _ locs_uniq) ?size_map.
by case: ifP => // _; rewrite lin_at.
Qed.

Lemma error_magnitudeE (i : nat) : (i < size locs)%N ->
  RS_Decoder.error_magnitude f om locs i
  = Return (ofF (y (toF (nth 0%Z locs i)))).
Proof.
move=> hi; have [hr hx] := locs_nth hi.
set l := nth 0%Z locs i in hr hx *.
rewrite /RS_Decoder.error_magnitude inverseE; first lia.
rewrite [bind _ _]/=.
have bi : byte (inv l) by have := inv_range hr; rewrite /byte; lia.
have ei : toF (inv l) = (toF l)^-1 by rewrite toF_inv.
have b1 : byte 1 by [].
have [bd ed] := forney_fold i (iota 0 (size locs)) locs_bytes bi b1.
move: ed; rewrite /RS_Decoder.forney_denominator.
set den := foldl _ _ _ in bd *.
rewrite toF1 mul1r ei denominator_cofactor // -/l => ed.
have d0 : toF den != 0 by rewrite ed cofactor_at.
have hd : (1 <= den < 256)%Z.
  move: d0; rewrite toF_eq0 // => /eqP/Z.eqb_neq; rewrite /byte in bd; lia.
rewrite inverseE; first lia.
rewrite [bind _ _]/= f_generator_base.
have bv : byte (inv den) by have := inv_range hd; rewrite /byte; lia.
have be : byte (Generic_GF_Poly.evaluate_at f om (inv l)).
  exact: byte_evaluate_at.
have er : toF (Generic_GF.multiply f
                 (Generic_GF_Poly.evaluate_at f om (inv l)) (inv den))
          = y (toF l) * toF l ^+ Z.to_nat gb.
  rewrite toFM // evaluate_atE // ofFK om_eval ei evaluator_at //.
  by rewrite toF_inv // ed mulfK // cofactor_at.
have x0 : toF l != 0 by exact: toF_pos_neq0.
case: gb01 er => -> er.
  rewrite Z.eqb_refl; congr Return.
  apply: toF_inj; [exact: byte_mul | exact: byte_ofF |].
  by rewrite ofFK er expr0 mulr1.
have -> : (1 =? 0)%Z = false by [].
congr Return.
apply: toF_inj; [by apply: byte_mul => //; exact: byte_mul | exact: byte_ofF |].
rewrite ofFK toFM //; first exact: byte_mul.
by rewrite er ei expr1 mulfK.
Qed.

Lemma magnitudes_fold (l : seq nat) (acc : seq Z) :
  all (fun i => (i < size locs)%N) l ->
  foldl (fun st i =>
           result <- st ;;
           m <- RS_Decoder.error_magnitude f om locs i ;;
           Return (rcons result m)) (Return acc) l
  = Return (acc ++ [seq ofF (y (toF (nth 0%Z locs i))) | i <- l]).
Proof.
elim: l acc => [|i l ih] acc /=; first by rewrite cats0.
by move=> /andP [hi hl]; rewrite error_magnitudeE //= ih // cat_rcons.
Qed.

Lemma find_error_magnitudesE :
  RS_Decoder.find_error_magnitudes f om locs
  = Return [seq ofF (y (toF l)) | l <- locs].
Proof.
rewrite /RS_Decoder.find_error_magnitudes magnitudes_fold.
  by apply/allP => i; rewrite mem_iota.
congr Return; apply: (@eq_from_nth _ 0%Z); first by rewrite !size_map size_iota.
move=> i; rewrite size_map size_iota => hi.
rewrite (nth_map 0%N) ?size_iota // nth_iota // add0n.
by rewrite (nth_map 0%Z).
Qed.

End Forney.

(* ------------------------------------------------------------------ *)
(** * The errors of a received word                                     *)
(* ------------------------------------------------------------------ *)

Section Errors.

(** A codeword c and a received word r of the same length. *)
Variables (c r : seq Z).
Hypothesis c_bytes : all is_byte c.
Hypothesis r_bytes : all is_byte r.
Hypothesis size_r : size r = size c.
Hypothesis size_c : (size c <= 255)%N.

Definition err_poly : {poly gf} := toP r + toP c.

(** The degrees at which r and c differ, the error locations alpha^d and
    the error value at a location. *)
Definition err_degs : seq nat :=
  filter (fun d => err_poly`_d != 0) (iota 0 (size c)).

Definition err_locs : seq gf := [seq alpha ^+ d | d <- err_degs].

Definition err_val (x : gf) : gf := err_poly`_(Z.to_nat (Lg (ofF x))).

Lemma size_err_poly : (size err_poly <= size c)%N.
Proof.
rewrite (leq_trans (size_add _ _)) // geq_max -{1}size_r.
by rewrite !size_toP_le.
Qed.

Lemma err_degs_lt d : d \in err_degs -> (d < 255)%N /\ err_poly`_d != 0.
Proof.
rewrite mem_filter mem_iota add0n => /andP [h1 /andP [_ h2]]; split=> //.
exact: leq_trans h2 size_c.
Qed.

Lemma err_locs_uniq : uniq err_locs.
Proof.
rewrite map_inj_in_uniq ?filter_uniq ?iota_uniq //.
by move=> i j /err_degs_lt [hi _] /err_degs_lt [hj _]; exact: alpha_inj.
Qed.

Lemma err_locs_neq0 : 0 \notin err_locs.
Proof.
by apply/negP => /mapP [d _ /esym/eqP]; rewrite (negPf (alpha_unit d)).
Qed.

Lemma err_val_alpha d : (d < 255)%N -> err_val (alpha ^+ d) = err_poly`_d.
Proof. by move=> hd; rewrite /err_val Lg_alpha // Nat2Z.id. Qed.

Lemma err_val_neq0 x : x \in err_locs -> err_val x != 0.
Proof. by move=> /mapP [d /err_degs_lt [h1 h2] ->]; rewrite err_val_alpha. Qed.

Lemma size_err_locs : size err_locs = size err_degs.
Proof. by rewrite size_map. Qed.

(** The error polynomial at a power of alpha, as a sum over the error
    locations. *)
Lemma err_poly_at (k : nat) :
  err_poly.[alpha ^+ k] = \sum_(x <- err_locs) err_val x * x ^+ k.
Proof.
rewrite (horner_coef_wide _ size_err_poly) big_map big_filter.
have e m : index_iota 0 m = iota 0 m by rewrite /index_iota subn0.
rewrite -e big_mkord [RHS]big_mkcond /=; apply: eq_bigr => d _.
have hd : (d < 255)%N by exact: leq_trans (ltn_ord d) size_c.
rewrite err_val_alpha // -!exprM mulnC.
by case: eqP => [->|_] //=; rewrite mul0r.
Qed.

Lemma toP_received : toP r = err_poly + toP c.
Proof. by rewrite /err_poly gf_char2. Qed.

End Errors.

(* ------------------------------------------------------------------ *)
(** * decode on a corrupted codeword: syndromes, locations, magnitudes  *)
(* ------------------------------------------------------------------ *)

Section DecodeErrors.

Variables (c r : seq Z) (R : nat).
Hypothesis c_bytes : all is_byte c.
Hypothesis r_bytes : all is_byte r.
Hypothesis size_r : size r = size c.
Hypothesis size_c : (size c <= 255)%N.
Hypothesis c_code : exists Q, toP c = Q * gen_poly R.
Hypothesis R_pos : (0 < R)%N.
Hypothesis R_lt : (R < size c)%N.
Hypothesis gb01 : gb = 0%Z \/ gb = 1%Z.
Hypothesis few : (2 * size (err_degs c r) <= R)%N.

Let xs : seq gf := err_locs c r.
Let y : gf -> gf := err_val c r.
Let b : nat := Z.to_nat gb.

Lemma r_neq_nil : r != [::].
Proof. by rewrite -size_eq0 size_r -lt0n (leq_trans _ R_lt). Qed.

Lemma syndrome_valuesE :
  RS_Decoder.syndrome_values f (Generic_GF_Poly.strip r) (Z.of_nat R)
  = [seq ofF (synd xs y b i) | i <- iota 0 R].
Proof.
rewrite /RS_Decoder.syndrome_values Nat2Z.id f_generator_base.
apply/eq_in_map => i; rewrite mem_iota add0n => /andP [_ hi].
rewrite evaluate_atE; [exact: wfp_strip r_neq_nil r_bytes|exact: byte_E|].
have [Q eQ] := c_code.
have hr : (toP c).[toF (E (Z.of_nat i + gb))] = 0.
  by rewrite eQ hornerM root_gen_poly // mulr0.
rewrite toP_strip (toP_received c r) hornerD hr addr0.
have hb : (0 <= Z.of_nat i + gb < 256)%Z.
  by case: gb01 => ->; move: size_c R_lt hi => h1 h2 h3; nat_lia.
rewrite toF_E // (err_poly_at size_r size_c).
congr (ofF _); apply: eq_bigr => x _; congr (_ * _ ^+ _).
by rewrite /b; case: gb01 => ->; nat_lia.
Qed.

Lemma syndrome_listE :
  let sc := rev (RS_Decoder.syndrome_values f (Generic_GF_Poly.strip r)
                   (Z.of_nat R)) in
  [/\ Generic_GF_Poly.new sc = Return (Generic_GF_Poly.strip sc),
      wfp (Generic_GF_Poly.strip sc)
    & toP (Generic_GF_Poly.strip sc) = syndrome_poly xs y b R].
Proof.
rewrite /= syndrome_valuesE.
set l := [seq _ | i <- iota 0 R].
have sl : size l = R by rewrite size_map size_iota.
have hl : all is_byte (rev l).
  by rewrite all_rev; apply/allP => z /mapP [i _ ->]; exact/is_byteP/byte_ofF.
have nl : rev l != [::] by rewrite -size_eq0 size_rev sl -lt0n.
split.
- by rewrite /Generic_GF_Poly.new size_eq0 (negPf nl).
- exact: wfp_strip.
rewrite toP_strip /toP map_rev revK; apply/polyP => i.
rewrite coef_Poly coef_poly; case: ltnP => hi; last first.
  by rewrite nth_default // size_map sl.
rewrite (nth_map 0%Z) ?sl // (nth_map 0%N) ?size_iota // nth_iota // add0n.
by rewrite ofFK.
Qed.

(** With at least one error some syndrome is not zero. *)
Lemma syndromes_nonzero : xs != [::] ->
  all (fun s => (s =? 0)%Z)
    (rev (RS_Decoder.syndrome_values f (Generic_GF_Poly.strip r)
            (Z.of_nat R))) = false.
Proof.
move=> hx; apply/negbTE/negP; rewrite all_rev syndrome_valuesE all_map => ha.
have hu := err_locs_uniq r size_c.
have h0 := err_locs_neq0 c r.
have hy := @err_val_neq0 c r size_c.
have S0 : syndrome_poly xs y b R = 0.
  apply/polyP => i; rewrite coef_poly coef0; case: ltnP => // hi.
  have := allP ha i; rewrite mem_iota add0n /= => /(_ hi) /Z.eqb_eq.
  by rewrite -ofF0 => /ofF_inj.
have := key_equation y b R hu; rewrite -/xs S0 mulr0 => /esym/eqP.
rewrite subr_eq0 => /eqP ev.
have so : overflow xs y b R = 0.
  apply: (@mulXn_small _ _ R); rewrite -ev.
  apply: leq_trans (size_evaluator y b hu h0) _.
  by rewrite /xs size_err_locs; move: few => hf; nat_lia.
have [x hx1] : exists x, x \in err_locs c r.
  by move: hx; rewrite /xs; case: (err_locs c r) => // x l _; exists x; rewrite mem_head.
have := evaluator_at_neq0 b hu h0 hy hx1.
by rewrite -/xs -/y ev so mul0r horner0 eqxx.
Qed.

End DecodeErrors.

(* ------------------------------------------------------------------ *)
(** * The correction loop of decode                                     *)
(* ------------------------------------------------------------------ *)

Definition corr_step (locs mags : seq Z) (st : Int32Array * outcome unit)
    (i : nat) : Int32Array * outcome unit :=
  let: (received, o) := st in
  if o is Return _ then
    match Generic_GF.log f (nth 0%Z locs i) with
    | Return l =>
        let position := (Z.of_nat (size received) - 1 - l)%Z in
        if (position <? 0)%Z then (received, Throw BadErrorLocation)
        else
          (ta_write received position
             (Generic_GF.add_or_subtract (ta_get received position)
                (nth 0%Z mags i)),
           Return tt)
    | Throw e => (received, Throw e)
    | OutOfFuel => (received, OutOfFuel)
    end
  else st.

Lemma apply_correctionsE received locs mags :
  RS_Decoder.apply_corrections f received locs mags
  = foldl (corr_step locs mags) (received, Return tt) (iota 0 (size locs)).
Proof. by []. Qed.

Lemma lxor_cancel (a b : Z) : Z.lxor a (Z.lxor a b) = b.
Proof. by rewrite -Z.lxor_assoc Z.lxor_nilpotent Z.lxor_0_l. Qed.

Section Corrections.

Variables (c r locs mags : seq Z).
Hypothesis size_r : size r = size c.

(** The position that the loop computes for the location of index i. *)
Definition corr_pos (i : nat) : nat :=
  (size c - 1 - Z.to_nat (Lg (nth 0%Z locs i)))%N.

Definition corr_ok (i : nat) : Prop :=
  [/\ nth 0%Z locs i <> 0%Z,
      (Z.to_nat (Lg (nth 0%Z locs i)) < size c)%N
    & nth 0%Z mags i
      = Z.lxor (nth 0%Z r (corr_pos i)) (nth 0%Z c (corr_pos i))].

Lemma corrections_fold (ks : seq nat) (buf : seq Z) :
  size buf = size c -> uniq [seq corr_pos i | i <- ks] ->
  (forall i, i \in ks -> corr_ok i) ->
  (forall i, i \in ks -> nth 0%Z buf (corr_pos i) = nth 0%Z r (corr_pos i)) ->
  foldl (corr_step locs mags) (buf, Return tt) ks
  = ([seq (if k \in [seq corr_pos i | i <- ks] then nth 0%Z c k
           else nth 0%Z buf k) | k <- iota 0 (size c)], Return tt).
Proof.
elim: ks buf => [|i ks ih] buf hs.
  move=> _ _ _; rewrite [foldl _ _ _]/= -hs; congr (_, _).
  by apply: (@eq_from_nth _ 0%Z) => [|k hk];
    rewrite ?size_map ?size_iota // (nth_map 0%N) ?size_iota // nth_iota.
rewrite map_cons cons_uniq => /andP [hn hu] hok hb.
have [l0 hd hm] := hok i (mem_head _ _).
have hlg := Lg_range (nth 0%Z locs i).
have hp : (corr_pos i < size c)%N by rewrite /corr_pos; nat_lia.
have ep : (Z.of_nat (size buf) - 1 - Lg (nth 0%Z locs i))%Z
          = Z.of_nat (corr_pos i).
  by rewrite hs /corr_pos; nat_lia.
have step : corr_step locs mags (buf, Return tt) i
            = (set_nth 0%Z buf (corr_pos i) (nth 0%Z c (corr_pos i)), Return tt).
  rewrite /corr_step /Generic_GF.log; have /Z.eqb_neq -> := l0.
  rewrite -/(Lg _) ep.
  have /Z.ltb_ge -> : (0 <= Z.of_nat (corr_pos i))%Z by lia.
  rewrite ta_get_of_nat hm (hb i (mem_head _ _)) /Generic_GF.add_or_subtract.
  rewrite lxor_cancel /ta_write Nat2Z.id hs hp.
  by have /Z.leb_le -> : (0 <= Z.of_nat (corr_pos i))%Z by lia.
rewrite [foldl _ _ _]/= -/(corr_step locs mags (buf, Return tt) i) step.
rewrite ih //.
- by rewrite size_set_nth hs; apply/maxn_idPr.
- by move=> j hj; apply: hok; rewrite in_cons hj orbT.
- move=> j hj; rewrite nth_set_nth /=; case: eqP => [e|_].
    by move: hn; rewrite -e map_f.
  by apply: hb; rewrite in_cons hj orbT.
congr (_, _); apply/eq_in_map => k _; rewrite in_cons nth_set_nth /=.
by case: eqP => [->|_] //=; rewrite if_same.
Qed.

End Corrections.

(* ------------------------------------------------------------------ *)
(** * decode restores a codeword with at most R/2 errors                *)
(* ------------------------------------------------------------------ *)

Lemma locate_of (sc syn mono sg om locs mags : seq Z) (ec : Z) :
  Generic_GF_Poly.new sc = Return syn ->
  Generic_GF_Poly.build_monomial ec 1 = Return mono ->
  RS_Decoder.run_euclidean_algorithm f mono syn ec = Return (sg, om) ->
  RS_Decoder.find_error_locations f sg = Return locs ->
  RS_Decoder.find_error_magnitudes f om locs = Return mags ->
  RS_Decoder.locate f sc ec = Return (locs, mags).
Proof.
rewrite /RS_Decoder.locate => -> e2; rewrite [bind _ _]/= e2 => e3.
by rewrite [bind _ _]/= e3 [bind _ _]/= => -> /= ->.
Qed.

Lemma decode_of (received poly : seq Z) (ec : Z) (lm : seq Z * seq Z) :
  Generic_GF_Poly.new received = Return poly -> (0 <= ec)%Z ->
  all (fun s => (s =? 0)%Z) (rev (RS_Decoder.syndrome_values f poly ec))
  = false ->
  RS_Decoder.locate f (rev (RS_Decoder.syndrome_values f poly ec)) ec
  = Return lm ->
  RS_Decoder.decode f received ec
  = RS_Decoder.apply_corrections f received lm.1 lm.2.
Proof.
move=> e1 /Z.ltb_ge e2 e3 e4; rewrite /RS_Decoder.decode e1; cbv beta iota.
by rewrite e2 e3 e4.
Qed.

Section DecodeCorrect.

Variables (c r : seq Z) (R : nat).
Hypothesis c_bytes : all is_byte c.
Hypothesis r_bytes : all is_byte r.
Hypothesis size_r : size r = size c.
Hypothesis size_c : (size c <= 255)%N.
Hypothesis c_code : exists Q, toP c = Q * gen_poly R.
Hypothesis R_pos : (0 < R)%N.
Hypothesis R_lt : (R < size c)%N.
Hypothesis gb01 : gb = 0%Z \/ gb = 1%Z.
Hypothesis few : (2 * size (err_degs c r) <= R)%N.

Let xs : seq gf := err_locs c r.
Let y : gf -> gf := err_val c r.

Lemma nth_byte (s : seq Z) k : all is_byte s -> byte (nth 0%Z s k).
Proof.
move=> hs; have [h|h] := ltnP k (size s); last by rewrite nth_default.
exact/is_byteP/(all_nthP 0%Z hs).
Qed.

Lemma coef_err d : (d < size c)%N ->
  (err_poly c r)`_d
  = toF (nth 0%Z r (size c - 1 - d)) + toF (nth 0%Z c (size c - 1 - d)).
Proof.
move=> hd; rewrite /err_poly coefD !coef_toP size_r hd.
by have -> : (size c - d.+1 = size c - 1 - d)%N by nat_lia.
Qed.

Lemma coef_err_eq0 d : (d < size c)%N ->
  ((err_poly c r)`_d == 0)
  = (nth 0%Z r (size c - 1 - d) == nth 0%Z c (size c - 1 - d)).
Proof.
move=> hd; rewrite coef_err // addr_eq0 gf_oppE.
apply/eqP/eqP => [|-> //]; apply: toF_inj; exact: nth_byte.
Qed.

Lemma xs_alpha x : x \in xs ->
  exists d, [/\ (d < size c)%N, (d < 255)%N, x = alpha ^+ d
              & (err_poly c r)`_d != 0].
Proof.
move=> /mapP [d hd ->]; exists d.
have [h1 h2] := err_degs_lt size_c hd.
by move: hd; rewrite mem_filter mem_iota add0n => /andP [_ /andP [_ h3]].
Qed.

Lemma diff_in_xs k : (k < size c)%N -> nth 0%Z r k != nth 0%Z c k ->
  alpha ^+ (size c - 1 - k) \in xs.
Proof.
move=> hk hne; apply: map_f.
have hd : (size c - 1 - k < size c)%N by nat_lia.
rewrite mem_filter mem_iota add0n hd leq0n andbT coef_err_eq0 //.
have -> : (size c - 1 - (size c - 1 - k) = k)%N by nat_lia.
by rewrite hne.
Qed.

Lemma no_error : xs = [::] -> r = c.
Proof.
move=> hx; apply: (@eq_from_nth _ 0%Z) => // k; rewrite size_r => hk.
apply/eqP; apply/negPn/negP => /(diff_in_xs hk).
by rewrite hx.
Qed.

Section WithLocations.

Variable locs : seq Z.
Hypothesis locs_pos : all pos_byte locs.
Hypothesis locs_perm : perm_eq [seq toF l | l <- locs] xs.

Let mags : seq Z := [seq ofF (y (toF l)) | l <- locs].

Lemma locs_deg (i : nat) : (i < size locs)%N ->
  let d := Z.to_nat (Lg (nth 0%Z locs i)) in
  [/\ (d < size c)%N, toF (nth 0%Z locs i) = alpha ^+ d
    & (err_poly c r)`_d != 0].
Proof.
move=> hi /=.
have hr : (1 <= nth 0%Z locs i < 256)%Z.
  exact/pos_byteP/(all_nthP 0%Z locs_pos).
have hx : toF (nth 0%Z locs i) \in xs.
  by rewrite -(perm_mem locs_perm) map_f // mem_nth.
have [d [h1 h2 e h3]] := xs_alpha hx.
have el : nth 0%Z locs i = ofF (alpha ^+ d).
  by rewrite -e toFK // /byte; lia.
by rewrite el Lg_alpha // Nat2Z.id ofFK.
Qed.

Lemma locs_corr_ok (i : nat) : (i < size locs)%N -> corr_ok c r locs mags i.
Proof.
move=> hi; have [h1 h2 h3] := locs_deg hi.
have hr : (1 <= nth 0%Z locs i < 256)%Z.
  exact/pos_byteP/(all_nthP 0%Z locs_pos).
split=> //; first by lia.
rewrite /mags (nth_map 0%Z) // /y h2 err_val_alpha.
  by move: h1 size_c => a1 a2; nat_lia.
rewrite coef_err // ofFD /corr_pos !toFK //; exact: nth_byte.
Qed.

Lemma locs_uniq_Z : uniq locs.
Proof.
have : uniq [seq toF l | l <- locs] by rewrite (perm_uniq locs_perm) err_locs_uniq.
exact: map_uniq.
Qed.

Lemma corr_pos_uniq : uniq [seq corr_pos c locs i | i <- iota 0 (size locs)].
Proof.
rewrite map_inj_in_uniq ?iota_uniq // => i j.
rewrite !mem_iota !add0n /= => hi hj e.
have [a1 a2 _] := locs_deg hi; have [b1 b2 _] := locs_deg hj.
have ed : Z.to_nat (Lg (nth 0%Z locs i)) = Z.to_nat (Lg (nth 0%Z locs j)).
  by move: e; rewrite /corr_pos; nat_lia.
have et : toF (nth 0%Z locs i) = toF (nth 0%Z locs j) by rewrite a2 b2 ed.
have hu : uniq [seq toF l | l <- locs].
  by rewrite (perm_uniq locs_perm) err_locs_uniq.
apply/eqP; rewrite -(nth_uniq 0 _ _ hu) ?size_map //.
by rewrite !(nth_map 0%Z) // et.
Qed.

Lemma corrections_restore :
  RS_Decoder.apply_corrections f r locs mags = (c, Return tt).
Proof.
rewrite apply_correctionsE (corrections_fold (c := c) (r := r)) //.
- exact: corr_pos_uniq.
- by move=> i; rewrite mem_iota add0n /=; exact: locs_corr_ok.
congr (_, _); apply: (@eq_from_nth _ 0%Z); first by rewrite size_map size_iota.
move=> k; rewrite size_map size_iota => hk.
rewrite (nth_map 0%N) ?size_iota // nth_iota // add0n.
case: ifP => // /negP hn; apply/eqP/negPn/negP => /(diff_in_xs hk).
rewrite -(perm_mem locs_perm) => /mapP [l /(nthP 0%Z) [i hi <-]] ea.
apply: hn; apply/mapP; exists i; first by rewrite mem_iota add0n.
have [h1 h2 _] := locs_deg hi.
have hd : (size c - 1 - k < 255)%N by move: size_c => a; nat_lia.
have hd2 : (Z.to_nat (Lg (nth 0%Z locs i)) < 255)%N.
  by move: h1 size_c => a1 a2; nat_lia.
have ed := alpha_inj hd hd2 (etrans ea h2).
by rewrite /corr_pos -ed; nat_lia.
Qed.

End WithLocations.

(** The guarantee of the decoder, on the polynomial side. *)
Lemma decode_correct :
  RS_Decoder.decode f r (Z.of_nat R) = (c, Return tt).
Proof.
have [hx|hx] := eqVneq xs [::].
  have e := no_error hx; have [Q eQ] := c_code.
  rewrite e; apply: (@decode_codeword c R Q) => //.
  by rewrite -e; exact: (r_neq_nil size_r R_lt).
have hu := err_locs_uniq r size_c.
have h0 := err_locs_neq0 c r.
have hy := @err_val_neq0 c r size_c.
have hS := syndromes_nonzero r_bytes size_r size_c c_code R_lt gb01 few hx.
have [e1 w1 p1] := syndrome_listE r_bytes size_r size_c c_code R_pos R_lt gb01.
have b1 : byte 1 by [].
have [mono [e2 _ _]] := build_monomialE b1 (Nat2Z.is_nonneg R).
have hf : (2 * size xs <= R)%N by rewrite /xs size_err_locs.
have [sg [om [e3 wsg wom esg eom]]] :=
  run_euclidE hu h0 hy R_pos hf w1 p1 e2.
have [locs [e4 hp hperm]] := find_error_locationsE hu h0 wsg esg.
have e5 := find_error_magnitudesE hu h0 gb01 hp hperm wom eom.
have e6 := locate_of e1 e2 e3 e4 e5.
have e0 : Generic_GF_Poly.new r = Return (Generic_GF_Poly.strip r).
  rewrite /Generic_GF_Poly.new size_eq0.
  by rewrite (negPf (r_neq_nil size_r R_lt)).
rewrite (decode_of e0 (Nat2Z.is_nonneg R) hS e6).
exact: corrections_restore.
Qed.

(** What decode computes before it writes: the locations of exactly the
    positions in error, each with the error value of its position. *)
Lemma locate_correct :
  exists locs mags,
    [/\ RS_Decoder.locate f
          (rev (RS_Decoder.syndrome_values f (Generic_GF_Poly.strip r)
                  (Z.of_nat R))) (Z.of_nat R) = Return (locs, mags),
        size mags = size locs,
        perm_eq [seq corr_pos c locs i | i <- iota 0 (size locs)]
          (filter (fun k => nth 0%Z r k != nth 0%Z c k) (iota 0 (size c)))
      & forall i, (i < size locs)%N -> corr_ok c r locs mags i].
Proof.
have hu := err_locs_uniq r size_c.
have h0 := err_locs_neq0 c r.
have hy := @err_val_neq0 c r size_c.
have [e1 w1 p1] := syndrome_listE r_bytes size_r size_c c_code R_pos R_lt gb01.
have b1 : byte 1 by [].
have [mono [e2 _ _]] := build_monomialE b1 (Nat2Z.is_nonneg R).
have hf : (2 * size xs <= R)%N by rewrite /xs size_err_locs.
have [sg [om [e3 wsg wom esg eom]]] :=
  run_euclidE hu h0 hy R_pos hf w1 p1 e2.
have [locs [e4 hp hperm]] := find_error_locationsE hu h0 wsg esg.
have e5 := find_error_magnitudesE hu h0 gb01 hp hperm wom eom.
have e6 := locate_of e1 e2 e3 e4 e5.
exists locs, [seq ofF (y (toF l)) | l <- locs]; split=> //.
- by rewrite size_map.
- apply: uniq_perm; [exact: corr_pos_uniq | by rewrite filter_uniq ?iota_uniq |].
  move=> k; rewrite mem_filter mem_iota add0n /=.
  apply/mapP/andP => [[i]|[hne hk]].
    rewrite mem_iota add0n /= => hi ->.
    have [h1 h2 h3] := locs_deg hp hperm hi.
    have hk : (corr_pos c locs i < size c)%N by rewrite /corr_pos; nat_lia.
    by split=> //; move: h3; rewrite coef_err_eq0.
  have := diff_in_xs hk hne.
  rewrite -(perm_mem hperm) => /mapP [l /(nthP 0%Z) [i hi <-]] ea.
  exists i; first by rewrite mem_iota add0n.
  have [h1 h2 _] := locs_deg hp hperm hi.
  have hd : (size c - 1 - k < 255)%N by move: size_c => a; nat_lia.
  have hd2 : (Z.to_nat (Lg (nth 0%Z locs i)) < 255)%N.
    by move: h1 size_c => a1 a2; nat_lia.
  have ed := alpha_inj hd hd2 (etrans ea h2).
  by rewrite /corr_pos -ed; nat_lia.
- by move=> i hi; exact: locs_corr_ok.
Qed.

End DecodeCorrect.

(* ------------------------------------------------------------------ *)
(** * encode then corrupt then decode                                   *)
(* ------------------------------------------------------------------ *)

(** The buffer that encode returns is a codeword: bytes, of the length of
    the buffer given, and a multiple of the generator polynomial. *)
Lemma encode_codeword (c : RS_Encoder.cache) (data : seq Z) (ec : Z) :
  cache_ok f c -> (1 <= ec)%Z -> (1 <= Z.of_nat (size data) - ec)%Z ->
  all is_byte (take (Z.to_nat (Z.of_nat (size data) - ec)) data) ->
  exists c' data',
    [/\ RS_Encoder.encode f c data ec = (c', data', Return tt),
        size data' = size data, all is_byte data'
      & exists Q, toP data' = Q * gen_poly (Z.to_nat ec)].
Proof.
move=> hc hec hdb hb.
have [c' [r [hc' [-> h1 h2 h3 h4]]]] := encodeE hc hec hdb hb.
set db := Z.to_nat _ in hb h4 *.
have hs : size (take db data) = db by rewrite size_takel // /db; nat_lia.
exists c', (take db data ++ nseq (Z.to_nat ec - size r) 0%Z ++ r); split=> //.
- by rewrite !size_cat size_nseq hs subnK // /db; nat_lia.
- by rewrite !all_cat hb bytes_nseq0 wfp_bytes.
- exists ((toP (take db data) * 'X^(Z.to_nat ec)) %/ gen_poly (Z.to_nat ec)).
  exact: codeword_poly.
Qed.

Lemma rev_iota0 (n : nat) : rev (iota 0 n) = [seq (n - 1 - d)%N | d <- iota 0 n].
Proof.
apply: (@eq_from_nth _ 0%N); first by rewrite size_rev size_map.
move=> i; rewrite size_rev size_iota => hi.
rewrite nth_rev ?size_iota // (nth_map 0%N) ?size_iota // !nth_iota //.
  by nat_lia.
by rewrite !add0n; nat_lia.
Qed.

(** The number of error locations is the number of positions at which the
    received word differs from the codeword. *)
Lemma size_err_degs (c r : seq Z) :
  all is_byte c -> all is_byte r -> size r = size c ->
  size (err_degs c r)
  = count (fun i => nth 0%Z r i != nth 0%Z c i) (iota 0 (size c)).
Proof.
move=> hc hr hs; rewrite /err_degs size_filter.
rewrite -[in RHS](revK (iota 0 (size c))) count_rev rev_iota0 count_map.
apply: eq_in_count => d; rewrite mem_iota add0n /= => hd.
by rewrite (coef_err_eq0 hc hr hs).
Qed.

(** decode restores what encode produced, after at most ec_len / 2 bytes
    were changed, when the buffer has at most 255 bytes and the generator
    base is 0 or 1. *)
Lemma encode_corrupt_decode (c : RS_Encoder.cache) (buffer received : seq Z)
    (ec : Z) :
  gb = 0%Z \/ gb = 1%Z -> cache_ok f c ->
  (1 <= ec)%Z -> (1 <= Z.of_nat (size buffer) - ec)%Z ->
  (size buffer <= 255)%N ->
  all is_byte (take (Z.to_nat (Z.of_nat (size buffer) - ec)) buffer) ->
  all is_byte received -> size received = size buffer ->
  (2 * Z.of_nat
         (count (fun i => nth 0%Z received i
                          != nth 0%Z (RS_Encoder.encode f c buffer ec).1.2 i)
            (iota 0 (size buffer))) <= ec)%Z ->
  (RS_Encoder.encode f c buffer ec).2 = Return tt
  /\ RS_Decoder.decode f received ec
     = ((RS_Encoder.encode f c buffer ec).1.2, Return tt).
Proof.
move=> hg hc hec hdb hn hb hr hs.
have [c' [cw [-> sw bw qw]]] := encode_codeword hc hec hdb hb.
rewrite [_.1.2]/= [_.2]/= => hcount; split=> //.
rewrite -sw in hs hn hcount hdb.
rewrite -(Z2Nat.id ec); first lia.
apply: decode_correct => //.
- by nat_lia.
- by nat_lia.
- by rewrite size_err_degs //; nat_lia.
Qed.

(* ------------------------------------------------------------------ *)
(** * The operations on coefficient arrays                              *)
(* ------------------------------------------------------------------ *)

(** Facts about the polynomial operations stated on the arrays themselves:
    two well-formed arrays with the same polynomial are equal. *)

Lemma inverse_involutive a : (1 <= a < 256)%Z -> inv (inv a) = a.
Proof.
move=> ha; have hi := inv_range ha; have hii := inv_range hi.
apply: toF_inj; [rewrite /byte; lia | rewrite /byte; lia |].
by rewrite !toF_inv // invrK.
Qed.

Lemma eval_add p q a : wfp p -> wfp q -> byte a ->
  Generic_GF_Poly.evaluate_at f (Generic_GF_Poly.add_or_subtract p q) a
  = Z.lxor (Generic_GF_Poly.evaluate_at f p a)
           (Generic_GF_Poly.evaluate_at f q a).
Proof.
move=> hp hq ha; rewrite !evaluate_atE //; first exact: wfp_add.
by rewrite toP_add // hornerD ofFD.
Qed.

Lemma eval_mul p q a : wfp p -> wfp q -> byte a ->
  Generic_GF_Poly.evaluate_at f (Generic_GF_Poly.multiply_poly f p q) a
  = Generic_GF.multiply f (Generic_GF_Poly.evaluate_at f p a)
                          (Generic_GF_Poly.evaluate_at f q a).
Proof.
move=> hp hq ha; rewrite !evaluate_atE //; first exact: wfp_multiply_poly.
by rewrite toP_multiply_poly // hornerM ofFM.
Qed.

Lemma eval_scalar p s a : wfp p -> byte s -> byte a ->
  Generic_GF_Poly.evaluate_at f (Generic_GF_Poly.multiply_scalar f p s) a
  = Generic_GF.multiply f s (Generic_GF_Poly.evaluate_at f p a).
Proof.
move=> hp hs ha; rewrite !evaluate_atE //; first exact: wfp_multiply_scalar.
by rewrite toP_multiply_scalar // hornerZ ofFM toFK.
Qed.

Lemma add_comm p q : wfp p -> wfp q ->
  Generic_GF_Poly.add_or_subtract p q = Generic_GF_Poly.add_or_subtract q p.
Proof.
move=> hp hq; apply: toP_inj; try exact: wfp_add.
by rewrite !toP_add // addrC.
Qed.

Lemma add_assoc p q r : wfp p -> wfp q -> wfp r ->
  Generic_GF_Poly.add_or_subtract p (Generic_GF_Poly.add_or_subtract q r)
  = Generic_GF_Poly.add_or_subtract (Generic_GF_Poly.add_or_subtract p q) r.
Proof.
move=> hp hq hr; apply: toP_inj; try by do ?apply: wfp_add.
by rewrite !toP_add ?addrA //; exact: wfp_add.
Qed.

Lemma add_self p : wfp p ->
  Generic_GF_Poly.add_or_subtract p p = Generic_GF_Poly.zero.
Proof.
move=> hp; apply: toP_inj; [exact: wfp_add | exact: wfp_zero |].
by rewrite toP_add // poly_addxx toP_zero.
Qed.

Lemma mul_comm p q : wfp p -> wfp q ->
  Generic_GF_Poly.multiply_poly f p q = Generic_GF_Poly.multiply_poly f q p.
Proof.
move=> hp hq; apply: toP_inj; try exact: wfp_multiply_poly.
by rewrite !toP_multiply_poly // mulrC.
Qed.

Lemma mul_assoc p q r : wfp p -> wfp q -> wfp r ->
  Generic_GF_Poly.multiply_poly f p (Generic_GF_Poly.multiply_poly f q r)
  = Generic_GF_Poly.multiply_poly f (Generic_GF_Poly.multiply_poly f p q) r.
Proof.
move=> hp hq hr; apply: toP_inj; try by do ?apply: wfp_multiply_poly.
by rewrite !toP_multiply_poly ?mulrA //; exact: wfp_multiply_poly.
Qed.

Lemma mul_one p : wfp p ->
  Generic_GF_Poly.multiply_poly f p Generic_GF_Poly.one = p.
Proof.
move=> hp; apply: toP_inj => //; first exact: wfp_multiply_poly wfp_one.
by rewrite toP_multiply_poly ?toP_one ?mulr1 //; exact: wfp_one.
Qed.

Lemma mul_add_distr p q r : wfp p -> wfp q -> wfp r ->
  Generic_GF_Poly.multiply_poly f p (Generic_GF_Poly.add_or_subtract q r)
  = Generic_GF_Poly.add_or_subtract (Generic_GF_Poly.multiply_poly f p q)
      (Generic_GF_Poly.multiply_poly f p r).
Proof.
move=> hp hq hr.
have hqr := wfp_add hq hr.
have hpq := wfp_multiply_poly hp hq.
have hpr := wfp_multiply_poly hp hr.
apply: toP_inj; [exact: wfp_multiply_poly | exact: wfp_add |].
by rewrite toP_multiply_poly // !toP_add // !toP_multiply_poly // mulrDr.
Qed.

(** multiply_by_monomial is multiply_poly by the monomial. *)
Lemma monomial_mul p d a : wfp p -> byte a -> (0 <= d)%Z ->
  exists2 m, Generic_GF_Poly.build_monomial d a = Return m
    & Generic_GF_Poly.multiply_by_monomial f p d a
      = Return (Generic_GF_Poly.multiply_poly f p m).
Proof.
move=> hp ha hd.
have [m [em hm tm]] := build_monomialE ha hd.
have [r [er hr tr]] := multiply_by_monomialE hp ha hd.
exists m => //; rewrite er; congr Return.
apply: toP_inj => //; first exact: wfp_multiply_poly.
by rewrite toP_multiply_poly // tr tm -scalerAl scalerAr.
Qed.

Lemma pred_ltZ (a b : nat) : (0 < a)%N -> (a < b)%N ->
  (Z.of_nat a.-1 < Z.of_nat b.-1)%Z.
Proof. by rewrite -!subn1 => h1 h2; nat_lia. Qed.

(** divide returns the quotient and the remainder of the division. *)
Lemma divide_spec p g : wfp p -> wfp g -> g <> Generic_GF_Poly.zero ->
  exists q r,
    [/\ Generic_GF_Poly.divide f p g = Return (q, r), wfp q, wfp r,
        Generic_GF_Poly.add_or_subtract
          (Generic_GF_Poly.multiply_poly f q g) r = p
      & r = Generic_GF_Poly.zero
        \/ (Generic_GF_Poly.degree r < Generic_GF_Poly.degree g)%Z].
Proof.
move=> hp hg /eqP g0.
have ng : toP g != 0 by rewrite toP_eq0.
have [q [r [e hq hr eq er]]] := divideE hp hg ng.
exists q, r; split=> //.
  apply: toP_inj => //; first exact: wfp_add (wfp_multiply_poly hq hg) hr.
  by rewrite toP_add ?toP_multiply_poly ?eq ?er -?divp_eq //;
    exact: wfp_multiply_poly.
have [r0|r0] := eqVneq r Generic_GF_Poly.zero; [by left | right].
have nr : toP r != 0 by rewrite toP_eq0.
have := ltn_modp (toP p) (toP g); rewrite ng -er => hlt.
rewrite !degreeE //.
have sr : (0 < size (toP r))%N by rewrite size_poly_gt0.
exact: pred_ltZ.
Qed.

Lemma divide_by_zero p : Generic_GF_Poly.divide f p Generic_GF_Poly.zero
  = Throw DivideByZero.
Proof. by []. Qed.

(* ------------------------------------------------------------------ *)
(** * More on the encoder                                               *)
(* ------------------------------------------------------------------ *)

(** The generator polynomial of degree d is monic, has d + 1 coefficients
    and vanishes at exp(i + generator_base) for every i < d. *)
Lemma generator_props (d : nat) :
  [/\ wfp (generator f d), size (generator f d) = d.+1,
      Generic_GF_Poly.leading (generator f d) = 1%Z
    & forall i : nat, (i < d)%N ->
        Generic_GF_Poly.evaluate_at f (generator f d)
          (Generic_GF.exp f (Z.of_nat i + gb)) = 0%Z].
Proof.
have [hg eg] := generatorE d; split=> //.
- have := size_toP hg; rewrite eg size_gen_poly.
  by case: eqP => // _ ->.
- by rewrite leadingE // eg (eqP (gen_poly_monic d)) ofF1.
- move=> i hi; rewrite evaluate_atE //; first exact: byte_E.
  by rewrite eg root_gen_poly // ofF0.
Qed.

(** Two byte arrays of one length with the same polynomial are equal. *)
Lemma toP_inj_size (a b : seq Z) : size a = size b ->
  all is_byte a -> all is_byte b -> toP a = toP b -> a = b.
Proof.
move=> hs ha hb e; apply: (@eq_from_nth _ 0%Z) => // i hi.
have := congr1 (fun p : {poly gf} => p`_(size a - i.+1)) e.
rewrite !coef_toP -hs.
have -> : (size a - i.+1 < size a)%N by nat_lia.
have -> : (size a - (size a - i.+1).+1 = i)%N by nat_lia.
by apply: toF_inj; exact: nth_byte.
Qed.

(** Encoding the buffer that encode returned changes nothing. *)
Lemma encode_again (c c2 : RS_Encoder.cache) (data : seq Z) (ec : Z) :
  cache_ok f c -> cache_ok f c2 ->
  (1 <= ec)%Z -> (1 <= Z.of_nat (size data) - ec)%Z ->
  all is_byte (take (Z.to_nat (Z.of_nat (size data) - ec)) data) ->
  (RS_Encoder.encode f c2 (RS_Encoder.encode f c data ec).1.2 ec).1.2
  = (RS_Encoder.encode f c data ec).1.2
  /\ (RS_Encoder.encode f c2 (RS_Encoder.encode f c data ec).1.2 ec).2
     = Return tt.
Proof.
move=> hc hc2 hec hdb hb.
have [c' [d' [e hc' hs ht hd]]] := encode_frame hc hec hdb hb.
have hdb' : (1 <= Z.of_nat (size d') - ec)%Z by rewrite hs.
have hb' : all is_byte (take (Z.to_nat (Z.of_nat (size d') - ec)) d').
  by rewrite hs ht.
have ht' : take (Z.to_nat (Z.of_nat (size d') - ec)) d'
           = take (Z.to_nat (Z.of_nat (size d') - ec)) data.
  by rewrite hs ht.
have [h1 [h2 h3]] := encode_parity_indep hc2 hc hec hdb' hs hb' ht'.
by rewrite e [_.1.2]/= h1 h2 e.
Qed.

Definition zipxor (a b : seq Z) : seq Z :=
  [seq Generic_GF.add_or_subtract p.1 p.2 | p <- zip a b].

Lemma size_zipxor a b : size a = size b -> size (zipxor a b) = size a.
Proof. by move=> e; rewrite /zipxor size_map size_zip e minnn. Qed.

Lemma take_zipxor n a b : take n (zipxor a b) = zipxor (take n a) (take n b).
Proof.
rewrite /zipxor -map_take; congr map.
by elim: n a b => [|n ih] [|x a] [|y b] //=; rewrite ih.
Qed.

(** The buffer encode returns, as a polynomial. *)
Lemma encode_poly (c : RS_Encoder.cache) (data : seq Z) (ec : Z) :
  cache_ok f c -> (1 <= ec)%Z -> (1 <= Z.of_nat (size data) - ec)%Z ->
  all is_byte (take (Z.to_nat (Z.of_nat (size data) - ec)) data) ->
  exists c' data',
    [/\ RS_Encoder.encode f c data ec = (c', data', Return tt),
        size data' = size data, all is_byte data'
      & toP data'
        = (toP (take (Z.to_nat (Z.of_nat (size data) - ec)) data)
           * 'X^(Z.to_nat ec)) %/ gen_poly (Z.to_nat ec)
          * gen_poly (Z.to_nat ec)].
Proof.
move=> hc hec hdb hb.
have [c' [r [hc' [-> h1 h2 h3 h4]]]] := encodeE hc hec hdb hb.
set db := Z.to_nat _ in hb h4 *.
have hs : size (take db data) = db by rewrite size_takel // /db; nat_lia.
exists c', (take db data ++ nseq (Z.to_nat ec - size r) 0%Z ++ r); split=> //.
- by rewrite !size_cat size_nseq hs subnK // /db; nat_lia.
- by rewrite !all_cat hb bytes_nseq0 wfp_bytes.
- exact: codeword_poly.
Qed.

(** encode is linear: the codeword of the XOR of two buffers is the XOR of
    their codewords. *)
Lemma encode_linear (c1 c2 c3 : RS_Encoder.cache) (b1 b2 : seq Z) (ec : Z) :
  cache_ok f c1 -> cache_ok f c2 -> cache_ok f c3 ->
  (1 <= ec)%Z -> (1 <= Z.of_nat (size b1) - ec)%Z -> size b1 = size b2 ->
  all is_byte (take (Z.to_nat (Z.of_nat (size b1) - ec)) b1) ->
  all is_byte (take (Z.to_nat (Z.of_nat (size b1) - ec)) b2) ->
  (RS_Encoder.encode f c3 (zipxor b1 b2) ec).1.2
  = zipxor (RS_Encoder.encode f c1 b1 ec).1.2
           (RS_Encoder.encode f c2 b2 ec).1.2
  /\ (RS_Encoder.encode f c3 (zipxor b1 b2) ec).2 = Return tt.
Proof.
move=> hc1 hc2 hc3 hec hdb hs hb1 hb2.
have hs3 : size (zipxor b1 b2) = size b1 by exact: size_zipxor.
have hdb2 : (1 <= Z.of_nat (size b2) - ec)%Z by rewrite -hs.
have hdb3 : (1 <= Z.of_nat (size (zipxor b1 b2)) - ec)%Z by rewrite hs3.
have hb2' : all is_byte (take (Z.to_nat (Z.of_nat (size b2) - ec)) b2).
  by rewrite -hs.
have hb3 : all is_byte
    (take (Z.to_nat (Z.of_nat (size (zipxor b1 b2)) - ec)) (zipxor b1 b2)).
  by rewrite hs3 take_zipxor; exact: bytes_zipxor.
have [c1' [o1 [-> s1 y1 p1]]] := encode_poly hc1 hec hdb hb1.
have [c2' [o2 [-> s2 y2 p2]]] := encode_poly hc2 hec hdb2 hb2'.
have [c3' [o3 [-> s3 y3 p3]]] := encode_poly hc3 hec hdb3 hb3.
split=> //; rewrite [_.1.2]/= [X in zipxor X _]/= [X in zipxor _ X]/=.
have so : size o1 = size o2 by rewrite s1 s2.
apply: toP_inj_size => //.
- by rewrite size_zipxor // s3 hs3 s1.
- exact: bytes_zipxor.
rewrite toP_zipxor // p1 p2 p3 hs3 -hs take_zipxor toP_zipxor //.
  by rewrite !size_take hs.
by rewrite mulrDl divpD mulrDl.
Qed.

(* ------------------------------------------------------------------ *)
(** * Codewords: zero syndromes and division by the generator           *)
(* ------------------------------------------------------------------ *)

Lemma gen_roots_uniq (R : nat) : (0 <= gb)%Z -> (Z.of_nat R + gb <= 255)%Z ->
  uniq (gen_roots R).
Proof.
move=> h0 h1; rewrite map_inj_in_uniq ?iota_uniq // => i j.
rewrite !mem_iota !add0n /= => hi hj.
rewrite !toF_E; try by nat_lia.
move=> /alpha_inj e.
have : Z.to_nat (Z.of_nat i + gb) = Z.to_nat (Z.of_nat j + gb).
  by apply: e; nat_lia.
by nat_lia.
Qed.

(** All R syndromes of a buffer are zero exactly when the generator
    polynomial of degree R divides it. *)
Lemma syndromes_dvd (received : seq Z) (R : nat) :
  received != [::] -> all is_byte received ->
  (0 <= gb)%Z -> (Z.of_nat R + gb <= 255)%Z ->
  all (fun s => (s =? 0)%Z)
    (RS_Decoder.syndrome_values f (Generic_GF_Poly.strip received)
       (Z.of_nat R))
  = (gen_poly R %| toP received).
Proof.
move=> hn hb h0 h1; apply/idP/idP; last first.
  by move=> /dvdpP [Q eQ]; rewrite -all_rev; exact: syndromes_zero eQ.
rewrite /RS_Decoder.syndrome_values Nat2Z.id f_generator_base all_map => ha.
have hr : all (root (toP received)) (gen_roots R).
  rewrite all_map; apply/allP => i hi; have := allP ha i hi.
  rewrite /= evaluate_atE; [exact: wfp_strip|exact: byte_E|].
  by rewrite toP_strip rootE -ofF_eq0 => /Z.eqb_eq ->.
have hu : uniq_roots (gen_roots R) by rewrite uniq_rootsE gen_roots_uniq.
have [q eq] := uniq_roots_prod_XsubC hr hu.
by apply/dvdpP; exists q.
Qed.

Lemma syndromes_divide (received : seq Z) (R : nat) :
  received != [::] -> all is_byte received ->
  (0 <= gb)%Z -> (Z.of_nat R + gb <= 255)%Z ->
  exists q r,
    Generic_GF_Poly.divide f (Generic_GF_Poly.strip received) (generator f R)
    = Return (q, r)
    /\ all (fun s => (s =? 0)%Z)
         (RS_Decoder.syndrome_values f (Generic_GF_Poly.strip received)
            (Z.of_nat R))
       = (r == Generic_GF_Poly.zero).
Proof.
move=> hn hb h0 h1.
have [hg eg] := generatorE R.
have ng : toP (generator f R) != 0 by rewrite eg gen_poly_neq0.
have [q [r [e hq hr eq er]]] := divideE (wfp_strip hn hb) hg ng.
exists q, r; split=> //.
rewrite syndromes_dvd // -toP_eq0 // er toP_strip eg.
by apply/idP/eqP => [/modp_eq0P|/modp_eq0P].
Qed.

(* ------------------------------------------------------------------ *)
(** * run_euclidean_algorithm on any syndrome                           *)
(* ------------------------------------------------------------------ *)

Lemma exit_deg_t (R a c : nat) : (0 < R)%N ->
  (a + c = R + 2)%N -> (R <= 2 * c.-1)%N -> (2 * a.-1 <= R)%N.
Proof. by rewrite -!subn1 => h0 h1 h2; nat_lia. Qed.

(** Whatever the syndrome, the loop of run_euclidean_algorithm ends, and
    neither 'r_{i-1} was zero' nor 'Division algorithm failed to reduce
    polynomial?' is thrown: the algorithm returns sigma and omega with
    sigma(0) = 1, sigma * syndrome = omega modulo x^R and the degree
    bounds, or it throws 'sigmaTilde(0) was zero'. *)
Lemma run_euclid_spec (R : nat) (syn mono : Generic_GF_Poly.t) :
  (0 < R)%N -> wfp syn -> (size syn <= R)%N ->
  Generic_GF_Poly.build_monomial (Z.of_nat R) 1 = Return mono ->
  RS_Decoder.run_euclidean_algorithm f mono syn (Z.of_nat R)
  = Throw SigmaTildeZero
  \/ exists sg om,
       [/\ RS_Decoder.run_euclidean_algorithm f mono syn (Z.of_nat R)
           = Return (sg, om),
           wfp sg /\ wfp om,
           to_int32 (Generic_GF_Poly.get_coefficient sg 0) = 1%Z,
           (2 * Generic_GF_Poly.degree sg <= Z.of_nat R)%Z
           /\ (2 * Generic_GF_Poly.degree om < Z.of_nat R)%Z
         & forall d : nat, (d < R)%N ->
             to_int32 (Generic_GF_Poly.get_coefficient
                         (Generic_GF_Poly.multiply_poly f sg syn)
                         (Z.of_nat d))
             = to_int32 (Generic_GF_Poly.get_coefficient om (Z.of_nat d))].
Proof.
move=> hR hsyn ssyn.
have b1 : byte 1 by [].
have [m [-> hm em]] := build_monomialE b1 (Nat2Z.is_nonneg R) => -[<-].
move: em; rewrite Nat2Z.id toF1 scale1r => em.
have sS : (size (toP syn) <= R)%N by exact: leq_trans (size_toP_le _) ssyn.
rewrite /RS_Decoder.run_euclidean_algorithm.
have -> : (Generic_GF_Poly.degree m <? Generic_GF_Poly.degree syn)%Z = false.
  rewrite !degreeE // em size_polyXn [_.-1]/=.
  by apply/Z.ltb_ge; move: sS; rewrite -subn1 => sS; nat_lia.
have hinv : euclid_inv R (toP syn) (toP m) (toP syn)
              (toP Generic_GF_Poly.zero) (toP Generic_GF_Poly.one).
  by rewrite em toP_zero toP_one; exact: euclid_inv_init.
have hl : (R <= 2 * (size (toP m)).-1)%N.
  by rewrite em size_polyXn [_.-1]/=; nat_lia.
have hf : (size (toP syn) < size m)%N.
  apply: leq_trans (size_toP_le m).
  by rewrite em size_polyXn ltnS.
have [t' [r' [pl [ql [-> [ht' hr'] hi hpl hstop]]]]] :=
  euclid_loopE hR hm hsyn wfp_zero wfp_one hinv hl hf.
rewrite [bind _ _]/= get_coefficient0 //.
case: Z.eqb_spec => [_|hk]; first by left.
right.
have k0 : (toP t').[0] != 0 by rewrite -ofF_eq0; apply/eqP.
set k := (toP t').[0] in hk k0 *.
have hr := ofF_range k0.
rewrite inverseE; first lia.
rewrite [bind _ _]/=.
have bi : byte (inv (ofF k)) by have := inv_range hr; rewrite /byte; lia.
have ei : toF (inv (ofF k)) = k^-1 by rewrite toF_inv // ofFK.
have ki : k^-1 != 0 by rewrite invr_eq0.
have wsg := wfp_multiply_scalar ht' bi.
have wom := wfp_multiply_scalar hr' bi.
have esg := toP_multiply_scalar ht' bi.
have eom := toP_multiply_scalar hr' bi.
move: hi => [s_last [s [[e1 e2 e3] [h1 h2 h3]]]].
exists (Generic_GF_Poly.multiply_scalar f t' (inv (ofF k))),
       (Generic_GF_Poly.multiply_scalar f r' (inv (ofF k))).
split=> //.
- by rewrite get_coefficient0 // esg ei hornerZ mulVf // ofF1.
- rewrite !degreeE // esg eom ei !size_scale //; split.
    by have := exit_deg_t hR h2 hpl; rewrite -!subn1 => a; nat_lia.
  by move: hstop; rewrite -!subn1 => a; nat_lia.
- move=> d hd; rewrite !get_coefficientE //; first exact: wfp_multiply_poly.
  rewrite toP_multiply_poly // esg eom ei e2 scalerDr -!scalerAl.
  by rewrite coefD [(_ *: (s * _))`_d]coefZ coefMXn hd mulr0 add0r.
Qed.

(* ------------------------------------------------------------------ *)
(** * A locator built from its locations                                *)
(* ------------------------------------------------------------------ *)

Lemma wfp_factor x : (1 <= x < 256)%Z -> wfp [:: x; 1%Z].
Proof.
move=> hx; rewrite /wfp /normal /= andbT.
have -> : is_byte x by apply/is_byteP; rewrite /byte; lia.
have -> : x != 0%Z by apply/eqP; lia.
by rewrite orbT.
Qed.

Lemma toP_factor x : toP [:: x; 1%Z] = lin (toF x).
Proof.
rewrite toP_cons /= expr1 toP_cons /= expr0 toP_nil addr0 toF1 scale1r.
by rewrite /lin -[- _]poly_oppE opprK addrC.
Qed.

Lemma locator_fold (xs : seq Z) (acc : Generic_GF_Poly.t) :
  all pos_byte xs -> wfp acc ->
  let sg := foldl (fun p x => Generic_GF_Poly.multiply_poly f p [:: x; 1%Z])
              acc xs in
  wfp sg /\ toP sg = toP acc * linprod [seq toF x | x <- xs].
Proof.
elim: xs acc => [|x xs ih] acc /=.
  by move=> _ ha; rewrite /linprod big_nil mulr1.
move=> /andP [/pos_byteP hx hxs] ha.
have hf := wfp_factor hx.
have [h1 h2] := ih _ hxs (wfp_multiply_poly ha hf).
split=> //; rewrite h2 toP_multiply_poly // toP_factor.
by rewrite /linprod big_cons mulrA.
Qed.

(** The search finds exactly the locations of the locator. *)
Lemma locations_found (xs : seq Z) :
  all pos_byte xs -> uniq xs ->
  exists locs,
    RS_Decoder.find_error_locations f
      (foldl (fun p x => Generic_GF_Poly.multiply_poly f p [:: x; 1%Z])
         Generic_GF_Poly.one xs) = Return locs
    /\ perm_eq locs xs.
Proof.
move=> hp hu.
have [wsg esg] := locator_fold hp wfp_one.
rewrite toP_one mul1r in esg.
have hb x : x \in xs -> byte x.
  by move=> /(allP hp) /pos_byteP h; rewrite /byte; lia.
have hu' : uniq [seq toF x | x <- xs].
  rewrite map_inj_in_uniq // => x z /hb h1 /hb h2; exact: toF_inj.
have h0 : 0 \notin [seq toF x | x <- xs].
  apply/negP => /mapP [x /(allP hp) /pos_byteP hx /esym/eqP].
  by rewrite (negPf (toF_pos_neq0 hx)).
have [locs [e hl hperm]] := find_error_locationsE hu' h0 wsg esg.
exists locs; split=> //.
have e1 : map (ofF \o toF) locs = locs.
  apply: map_id_in => l /(allP hl) /pos_byteP h /=.
  by rewrite toFK // /byte; lia.
have e2 : map (ofF \o toF) xs = xs.
  by apply: map_id_in => l /hb h /=; rewrite toFK.
by have := perm_map ofF hperm; rewrite -!map_comp e1 e2.
Qed.

(** multiply_scalar is multiply_poly by the constant polynomial. *)
Lemma scalar_mul p s : wfp p -> byte s ->
  Generic_GF_Poly.multiply_scalar f p s
  = Generic_GF_Poly.multiply_poly f p [:: s].
Proof.
move=> hp hs.
have hw : wfp [:: s].
  rewrite /wfp /normal /= andbT; have -> /= : is_byte s by exact/is_byteP.
  by have [->|h] := eqVneq s 0%Z; rewrite ?eqxx ?h ?orbT.
apply: toP_inj; [exact: wfp_multiply_scalar | exact: wfp_multiply_poly |].
rewrite toP_multiply_scalar // toP_multiply_poly // toP_cons /= expr0 toP_nil.
by rewrite addr0 -mul_polyC mulrC alg_polyC.
Qed.

(** ** Received words near a buffer with zero syndromes *)

(** A buffer whose syndromes all vanish is a multiple of the generator. *)
Lemma zero_syndromes_code (c : seq Z) (R : nat) :
  c != [::] -> all is_byte c -> gb = 0%Z \/ gb = 1%Z ->
  (R < size c)%N -> (size c <= 255)%N ->
  all (fun s => (s =? 0)%Z)
    (RS_Decoder.syndrome_values f (Generic_GF_Poly.strip c) (Z.of_nat R)) ->
  exists Q, toP c = Q * gen_poly R.
Proof.
move=> hn hb hg h1 h2 hs.
have h0 : (0 <= gb)%Z by lia.
have h3 : (Z.of_nat R + gb <= 255)%Z by move: h1 h2 => a1 a2; nat_lia.
by move: hs; rewrite (syndromes_dvd hn hb h0 h3) => /dvdpP.
Qed.

Lemma valid_corrupt_decode (c r : seq Z) (ec : Z) :
  gb = 0%Z \/ gb = 1%Z ->
  all is_byte c ->
  all (fun s => (s =? 0)%Z)
    (RS_Decoder.syndrome_values f (Generic_GF_Poly.strip c) ec) ->
  (1 <= ec)%Z -> (ec < Z.of_nat (size c))%Z -> (size c <= 255)%N ->
  all is_byte r -> size r = size c ->
  (2 * Z.of_nat (count (fun i => nth 0%Z r i != nth 0%Z c i)
                   (iota 0 (size c))) <= ec)%Z ->
  RS_Decoder.decode f r ec = (c, Return tt).
Proof.
move=> hg hb hs hec hlt hn hr hsz hcount.
have hne : c != [::] by case: c hlt {hb hs hn hsz hcount} => //= ?; lia.
move: hs; rewrite -(Z2Nat.id ec); first lia.
move=> hs; apply: decode_correct => //.
- by apply: zero_syndromes_code => //; nat_lia.
- by nat_lia.
- by nat_lia.
- by rewrite size_err_degs //; nat_lia.
Qed.

Lemma valid_corrupt_locate (c r : seq Z) (ec : Z) :
  gb = 0%Z \/ gb = 1%Z ->
  all is_byte c ->
  all (fun s => (s =? 0)%Z)
    (RS_Decoder.syndrome_values f (Generic_GF_Poly.strip c) ec) ->
  (1 <= ec)%Z -> (ec < Z.of_nat (size c))%Z -> (size c <= 255)%N ->
  all is_byte r -> size r = size c ->
  (2 * Z.of_nat (count (fun i => nth 0%Z r i != nth 0%Z c i)
                   (iota 0 (size c))) <= ec)%Z ->
  exists locs mags,
    [/\ RS_Decoder.locate f
          (rev (RS_Decoder.syndrome_values f (Generic_GF_Poly.strip r) ec)) ec
        = Return (locs, mags),
        size mags = size locs,
        perm_eq [seq error_position f r l | l <- locs]
          (filter (fun k => nth 0%Z r k != nth 0%Z c k) (iota 0 (size r)))
      & forall i, (i < size locs)%N ->
          nth 0%Z locs i <> 0%Z
          /\ nth 0%Z mags i
             = Z.lxor (nth 0%Z r (error_position f r (nth 0%Z locs i)))
                      (nth 0%Z c (error_position f r (nth 0%Z locs i)))].
Proof.
move=> hg hb hs hec hlt hn hr hsz hcount.
have hne : c != [::] by case: c hlt {hb hs hn hsz hcount} => //= ?; lia.
move: hs; rewrite -(Z2Nat.id ec); first lia.
move=> hs.
have hQ : exists Q, toP c = Q * gen_poly (Z.to_nat ec).
  by apply: zero_syndromes_code => //; nat_lia.
have hR : (0 < Z.to_nat ec)%N by nat_lia.
have hlt' : (Z.to_nat ec < size c)%N by nat_lia.
have few : (2 * size (err_degs c r) <= Z.to_nat ec)%N.
  by rewrite size_err_degs //; nat_lia.
have [locs [mags [e1 e2 e3 e4]]] :=
  locate_correct hb hr hsz hn hQ hR hlt' hg few.
have epos i : corr_pos c locs i = error_position f r (nth 0%Z locs i).
  rewrite /corr_pos /error_position hsz.
  have := Lg_range (nth 0%Z locs i); rewrite /Lg => hl.
  by nat_lia.
exists locs, mags; split=> //.
- have -> : [seq error_position f r l | l <- locs]
            = [seq corr_pos c locs i | i <- iota 0 (size locs)].
    rewrite -{1}(mkseq_nth 0%Z locs) /mkseq -map_comp.
    by apply/eq_map => i /=; rewrite -epos.
  by rewrite hsz.
- by move=> i /e4 [h1 _]; rewrite -!epos.
Qed.

End GF256.

(* ------------------------------------------------------------------ *)
(** * The properties of the specification                               *)
(* ------------------------------------------------------------------ *)

(** C1, as stated, fails.  First, for a buffer of 256 bytes: over the QR
    Code field the all-zero buffer with ec_len = 2 is encoded to the
    all-zero codeword; after the byte at position 0 is changed to 1 (one
    position, and floor(2/2) = 1), decode returns without error but does
    not restore the codeword, because positions 255 apart share one error
    location.  Second, for a field with generator base 2: one changed byte
    of a five-byte codeword with ec_len = 2 is not restored either. *)
Lemma C1_decode_fails_to_restore :
  [/\ (RS_Encoder.encode GF_QR_CODE_256 RS_Encoder.new (nseq 256 0%Z) 2).2
      = Return tt,
      count (fun i => nth 0%Z (1%Z :: nseq 255 0%Z) i
                      != nth 0%Z (RS_Encoder.encode GF_QR_CODE_256
                                    RS_Encoder.new (nseq 256 0%Z) 2).1.2 i)
        (iota 0 256) = 1%N,
      (RS_Decoder.decode GF_QR_CODE_256 (1%Z :: nseq 255 0%Z) 2).2
      = Return tt,
      ((RS_Decoder.decode GF_QR_CODE_256 (1%Z :: nseq 255 0%Z) 2).1 : seq Z)
      != (RS_Encoder.encode GF_QR_CODE_256 RS_Encoder.new
            (nseq 256 0%Z) 2).1.2
    & [/\ RS_Encoder.encode (Generic_GF.new 0x011d 256 2) RS_Encoder.new
            [:: 1; 2; 3; 0; 0]%Z 2
          = ([:: [:: 1]; [:: 1; 4]; [:: 1; 12; 32]]%Z,
             [:: 1; 2; 3; 19; 225]%Z, Return tt),
          GF_invariant (Generic_GF.new 0x011d 256 2)
        & RS_Decoder.decode (Generic_GF.new 0x011d 256 2)
            [:: 1; 77; 3; 19; 225]%Z 2
          = ([:: 1; 15; 3; 19; 225]%Z, Return tt)]].
Proof.
by split; [vm_compute | vm_compute | vm_compute | vm_compute | split; vm_compute].
Qed.

(** C1 (amended).  For every codeword of at most 255 bytes produced by
    encode over a GF(2^8) field whose generator base is 0 or 1, and every
    received buffer of bytes that differs from it in at most
    floor(ec_len / 2) positions, decode with the same ec_len returns
    without error and leaves exactly the codeword. *)
Theorem C1_decode_restores_codeword (primitive gb : Z)
    (c : RS_Encoder.cache) (buffer received : seq Z) (ec_len : Z) :
  GF_invariant (Generic_GF.new primitive 256 gb) ->
  gb = 0%Z \/ gb = 1%Z ->
  cache_ok (Generic_GF.new primitive 256 gb) c ->
  (1 <= ec_len)%Z -> (1 <= Z.of_nat (size buffer) - ec_len)%Z ->
  (size buffer <= 255)%N ->
  all is_byte (take (Z.to_nat (Z.of_nat (size buffer) - ec_len)) buffer) ->
  all is_byte received -> size received = size buffer ->
  (2 * Z.of_nat
         (count (fun i =>
                   nth 0%Z received i
                   != nth 0%Z (RS_Encoder.encode
                                 (Generic_GF.new primitive 256 gb)
                                 c buffer ec_len).1.2 i)
            (iota 0 (size buffer))) <= ec_len)%Z ->
  (RS_Encoder.encode (Generic_GF.new primitive 256 gb) c buffer ec_len).2
  = Return tt
  /\ RS_Decoder.decode (Generic_GF.new primitive 256 gb) received ec_len
     = ((RS_Encoder.encode (Generic_GF.new primitive 256 gb)
           c buffer ec_len).1.2, Return tt).
Proof.
move=> hwf hg hc hec hdb hn hb hr hs hcount.
exact: (encode_corrupt_decode (GF_valid_intro hwf) hg hc hec hdb hn hb hr hs
          hcount).
Qed.

Lemma C1_decode_restores_codeword_witness :
  (RS_Encoder.encode GF_DATA_MATRIX_256 RS_Encoder.new
     [:: 142; 164; 186; 0; 0; 0; 0; 0]%Z 5).2 = Return tt
  /\ RS_Decoder.decode GF_DATA_MATRIX_256
       [:: 142; 0; 186; 114; 25; 5; 88; 7]%Z 5
     = ((RS_Encoder.encode GF_DATA_MATRIX_256 RS_Encoder.new
           [:: 142; 164; 186; 0; 0; 0; 0; 0]%Z 5).1.2, Return tt).
Proof.
apply: (@C1_decode_restores_codeword 0x012d 1 RS_Encoder.new
          [:: 142; 164; 186; 0; 0; 0; 0; 0]%Z
          [:: 142; 0; 186; 114; 25; 5; 88; 7]%Z 5).
- by vm_compute.
- by right.
- by split; vm_compute.
- by vm_compute.
- by vm_compute.
- by vm_compute.
- by vm_compute.
- by vm_compute.
- by vm_compute.
- by vm_compute.
Defined.

(** C2.  Round trip without corruption: for data of length at least 1 and
    ec_len at least 1, within the codeword bound of the field, encode on
    data ++ zeros(ec_len) returns, and decode on the resulting buffer with
    the same ec_len returns and leaves the data region equal to data. *)
Theorem C2_encode_decode_roundtrip (primitive gb : Z) (c : RS_Encoder.cache)
    (data : seq Z) (ec_len : Z) :
  GF_invariant (Generic_GF.new primitive 256 gb) ->
  cache_ok (Generic_GF.new primitive 256 gb) c ->
  all is_byte data -> (1 <= size data)%N -> (1 <= ec_len)%Z ->
  (Z.of_nat (size data) + ec_len <= 255)%Z ->
  exists c' buffer buffer',
    [/\ RS_Encoder.encode (Generic_GF.new primitive 256 gb) c
          (data ++ nseq (Z.to_nat ec_len) 0%Z) ec_len
        = (c', buffer, Return tt),
        RS_Decoder.decode (Generic_GF.new primitive 256 gb) buffer ec_len
        = (buffer', Return tt)
      & take (size data) buffer' = data].
Proof.
move=> hwf hc hb hs hec _.
have hsz : size (data ++ nseq (Z.to_nat ec_len) 0%Z)
           = (size data + Z.to_nat ec_len)%N by rewrite size_cat size_nseq.
have hdb : (Z.to_nat (Z.of_nat (size (data ++ nseq (Z.to_nat ec_len) 0%Z))
                      - ec_len) = size data).
  by rewrite hsz; nat_lia.
have h1 : (1 <= Z.of_nat (size (data ++ nseq (Z.to_nat ec_len) 0%Z)) - ec_len)%Z.
  by rewrite hsz; nat_lia.
have h2 : all is_byte
            (take (Z.to_nat (Z.of_nat (size (data ++ nseq (Z.to_nat ec_len) 0%Z))
                             - ec_len)) (data ++ nseq (Z.to_nat ec_len) 0%Z)).
  by rewrite hdb take_size_cat.
have [c' [buffer [e1 e2 e3]]] :=
  encode_decode (GF_valid_intro hwf) hc hec h1 h2.
exists c', buffer, buffer; split=> //.
by move: e2; rewrite hdb take_size_cat.
Qed.

Lemma C2_encode_decode_roundtrip_witness :
  exists c' buffer buffer',
    [/\ RS_Encoder.encode GF_DATA_MATRIX_256 RS_Encoder.new
          ([:: 142; 164; 186]%Z ++ nseq (Z.to_nat 5) 0%Z) 5
        = (c', buffer, Return tt),
        RS_Decoder.decode GF_DATA_MATRIX_256 buffer 5 = (buffer', Return tt)
      & take (size [:: 142; 164; 186]%Z) buffer' = [:: 142; 164; 186]%Z].
Proof.
apply: (@C2_encode_decode_roundtrip 0x012d 1 RS_Encoder.new
          [:: 142; 164; 186]%Z 5).
- by vm_compute.
- by split; vm_compute.
- by vm_compute.
- by vm_compute.
- by vm_compute.
- by vm_compute.
Defined.

(** C3.  Known answer: with the Data Matrix field, encode on a buffer that
    holds the data [142, 164, 186] and any five values in the parity
    region, with ec_len = 5, returns and leaves [114, 25, 5, 88, 102] in
    positions [3, 8), behind the unchanged data. *)
Theorem C3_data_matrix_vector (p0 p1 p2 p3 p4 : Z) :
  (RS_Encoder.encode GF_DATA_MATRIX_256 RS_Encoder.new
     [:: 142; 164; 186; p0; p1; p2; p3; p4]%Z 5).1.2
  = [:: 142; 164; 186; 114; 25; 5; 88; 102]%Z
  /\ (RS_Encoder.encode GF_DATA_MATRIX_256 RS_Encoder.new
        [:: 142; 164; 186; p0; p1; p2; p3; p4]%Z 5).2 = Return tt.
Proof. by split; vm_compute. Qed.

(** C4.  Frame of encode: for every buffer and ec_len that encode accepts
    (ec_len >= 1 and at least one data byte), encode returns, keeps the
    length of the buffer and leaves every byte of the data region
    [0, length - ec_len) as it was. *)
Theorem C4_encode_keeps_data (primitive gb : Z) (c : RS_Encoder.cache)
    (buffer : seq Z) (ec_len : Z) :
  GF_invariant (Generic_GF.new primitive 256 gb) ->
  cache_ok (Generic_GF.new primitive 256 gb) c ->
  (1 <= ec_len)%Z -> (1 <= Z.of_nat (size buffer) - ec_len)%Z ->
  all is_byte (take (Z.to_nat (Z.of_nat (size buffer) - ec_len)) buffer) ->
  exists c' buffer',
    [/\ RS_Encoder.encode (Generic_GF.new primitive 256 gb) c buffer ec_len
        = (c', buffer', Return tt),
        size buffer' = size buffer
      & forall i, (i < Z.to_nat (Z.of_nat (size buffer) - ec_len))%N ->
          nth 0%Z buffer' i = nth 0%Z buffer i].
Proof.
move=> hwf hc hec hdb hb.
have [c' [buffer' [e _ hs ht _]]] :=
  encode_frame (GF_valid_intro hwf) hc hec hdb hb.
exists c', buffer'; split=> // i hi.
by rewrite -(nth_take 0%Z hi) ht nth_take.
Qed.

Lemma C4_encode_keeps_data_witness :
  exists c' buffer',
    [/\ RS_Encoder.encode GF_QR_CODE_256 RS_Encoder.new
          [:: 16; 32; 12; 7; 7; 7]%Z 3 = (c', buffer', Return tt),
        size buffer' = size [:: 16; 32; 12; 7; 7; 7]%Z
      & forall i,
          (i < Z.to_nat (Z.of_nat (size [:: 16; 32; 12; 7; 7; 7]%Z) - 3))%N ->
          nth 0%Z buffer' i = nth 0%Z [:: 16; 32; 12; 7; 7; 7]%Z i].
Proof.
apply: (@C4_encode_keeps_data 0x011d 0 RS_Encoder.new
          [:: 16; 32; 12; 7; 7; 7]%Z 3).
- by vm_compute.
- by split; vm_compute.
- by vm_compute.
- by vm_compute.
- by vm_compute.
Defined.

(** A buffer of bytes whose ec_len syndrome evaluations, as decode computes
    them, are all zero. *)
Definition valid_codeword (f : Generic_GF.t) (received : seq Z) (ec_len : Z)
  : bool :=
  [&& received != [::], all is_byte received, (0 <=? ec_len)%Z
    & all (fun s => (s =? 0)%Z)
        (RS_Decoder.syndrome_values f (Generic_GF_Poly.strip received) ec_len)].

(** C5.  decode on a valid codeword returns without error and leaves every
    byte unchanged; hence decoding twice gives the buffer of decoding
    once. *)
Theorem C5_decode_valid_codeword (f : Generic_GF.t) (received : seq Z)
    (ec_len : Z) :
  valid_codeword f received ec_len ->
  RS_Decoder.decode f received ec_len = (received, Return tt)
  /\ RS_Decoder.decode f (RS_Decoder.decode f received ec_len).1 ec_len
     = RS_Decoder.decode f received ec_len.
Proof.
move=> /and4P [hn _ /Z.leb_le hec hs].
have e : RS_Decoder.decode f received ec_len = (received, Return tt).
  rewrite /RS_Decoder.decode /Generic_GF_Poly.new size_eq0 (negPf hn).
  have /Z.ltb_ge -> := hec.
  by rewrite all_rev hs.
by rewrite e.
Qed.

Lemma C5_decode_valid_codeword_witness :
  RS_Decoder.decode GF_DATA_MATRIX_256
    [:: 142; 164; 186; 114; 25; 5; 88; 102]%Z 5
  = ([:: 142; 164; 186; 114; 25; 5; 88; 102]%Z, Return tt)
  /\ RS_Decoder.decode GF_DATA_MATRIX_256
       (RS_Decoder.decode GF_DATA_MATRIX_256
          [:: 142; 164; 186; 114; 25; 5; 88; 102]%Z 5).1 5
     = RS_Decoder.decode GF_DATA_MATRIX_256
         [:: 142; 164; 186; 114; 25; 5; 88; 102]%Z 5.
Proof.
apply: (@C5_decode_valid_codeword GF_DATA_MATRIX_256
          [:: 142; 164; 186; 114; 25; 5; 88; 102]%Z 5).
by vm_compute.
Defined.

(** C6, as stated, fails: with ec_len = -1 and a three-byte buffer neither
    ec_len == 0 nor data_len = 4 <= 0 holds, yet encode raises (the
    negative monomial degree is refused by multiply_by_monomial). *)
Lemma C6_negative_ec_len_raises :
  ~ (raises (RS_Encoder.encode GF_QR_CODE_256 RS_Encoder.new
               [:: 1; 2; 3]%Z (-1)).2
     <-> ((-1 = 0)%Z \/ (Z.of_nat (size [:: 1; 2; 3]%Z) - (-1) <= 0)%Z)).
Proof.
have e : (RS_Encoder.encode GF_QR_CODE_256 RS_Encoder.new
            [:: 1; 2; 3]%Z (-1)).2 = Throw IllegalArgumentException.
  by vm_compute.
rewrite e /= => -[h _].
by case: (h isT) => //; move=> /Z.leb_le.
Qed.

(** C6 (amended).  encode raises if and only if ec_len <= 0 or
    data_len = buffer.length - ec_len <= 0; when it raises, the buffer is
    not modified. *)
Theorem C6_encode_raises_iff (primitive gb : Z) (c : RS_Encoder.cache)
    (buffer : seq Z) (ec_len : Z) :
  GF_invariant (Generic_GF.new primitive 256 gb) ->
  cache_ok (Generic_GF.new primitive 256 gb) c ->
  all is_byte (take (Z.to_nat (Z.of_nat (size buffer) - ec_len)) buffer) ->
  (raises (RS_Encoder.encode (Generic_GF.new primitive 256 gb) c buffer ec_len).2
   <-> (ec_len <= 0 \/ Z.of_nat (size buffer) - ec_len <= 0)%Z)
  /\ (raises (RS_Encoder.encode (Generic_GF.new primitive 256 gb) c buffer ec_len).2 ->
      (RS_Encoder.encode (Generic_GF.new primitive 256 gb) c buffer ec_len).1.2
      = buffer).
Proof. by move=> hwf hc hb; exact: (encode_raises (GF_valid_intro hwf) hc hb). Qed.

Lemma C6_encode_raises_iff_witness :
  (raises (RS_Encoder.encode GF_QR_CODE_256 RS_Encoder.new [:: 1; 2; 3]%Z 3).2
   <-> (3 <= 0 \/ Z.of_nat (size [:: 1; 2; 3]%Z) - 3 <= 0)%Z)
  /\ (raises (RS_Encoder.encode GF_QR_CODE_256 RS_Encoder.new [:: 1; 2; 3]%Z 3).2 ->
      (RS_Encoder.encode GF_QR_CODE_256 RS_Encoder.new [:: 1; 2; 3]%Z 3).1.2
      = [:: 1; 2; 3]%Z).
Proof.
apply: (@C6_encode_raises_iff 0x011d 0 RS_Encoder.new [:: 1; 2; 3]%Z 3).
- by vm_compute.
- by split; vm_compute.
- by vm_compute.
Defined.

(** C7.  get_coefficient is a bounds-checked read of the coefficient
    sequence: for a degree in [0, degree p] it is the stored coefficient at
    index length - 1 - degree, and for every degree outside that range it
    is undefined (no value is produced from outside the sequence). *)
Theorem C7_get_coefficient_bounds (p : Generic_GF_Poly.t) (d : Z) :
  Generic_GF_Poly.get_coefficient p d
  = if (0 <=? d)%Z && (d <=? Generic_GF_Poly.degree p)%Z
    then Some (nth 0%Z p (size p - 1 - Z.to_nat d))
    else None.
Proof.
rewrite /Generic_GF_Poly.get_coefficient /Generic_GF_Poly.degree /ta_read.
case: Z.leb_spec => h0; case: Z.leb_spec => h1 /=.
- have /Z.ltb_ge -> : (0 <= Z.of_nat (size p) - 1 - d)%Z by lia.
  have -> : Z.to_nat (Z.of_nat (size p) - 1 - d) = (size p - 1 - Z.to_nat d)%N.
    by rewrite -!minusE; lia.
  have -> // : (size p - 1 - Z.to_nat d < size p)%N.
  by apply/ltP; rewrite -!minusE; lia.
- case: Z.ltb_spec => // h2.
  have -> // : (Z.to_nat (Z.of_nat (size p) - 1 - d) < size p)%N = false.
  by apply/negP => /ltP; lia.
- case: Z.ltb_spec => // h2.
  have -> // : (Z.to_nat (Z.of_nat (size p) - 1 - d) < size p)%N = false.
  by apply/negP => /ltP; lia.
- case: Z.ltb_spec => // h2.
  have -> // : (Z.to_nat (Z.of_nat (size p) - 1 - d) < size p)%N = false.
  by apply/negP => /ltP; lia.
Qed.

(** encode on data followed by ec_len zeros, for any valid field of size
    256: it returns and the data region of the result is data. *)
Lemma encode_zeros_data (primitive gb : Z) (c : RS_Encoder.cache)
    (data : seq Z) (ec_len : Z) :
  GF_invariant (Generic_GF.new primitive 256 gb) ->
  cache_ok (Generic_GF.new primitive 256 gb) c ->
  all is_byte data -> (1 <= size data)%N -> (1 <= ec_len)%Z ->
  exists c' buffer,
    [/\ RS_Encoder.encode (Generic_GF.new primitive 256 gb) c
          (data ++ nseq (Z.to_nat ec_len) 0%Z) ec_len
        = (c', buffer, Return tt),
        size buffer = (size data + Z.to_nat ec_len)%N
      & take (size data) buffer = data].
Proof.
move=> hwf hc hb hs hec.
have hsz : size (data ++ nseq (Z.to_nat ec_len) 0%Z)
           = (size data + Z.to_nat ec_len)%N by rewrite size_cat size_nseq.
have hdb : (Z.to_nat (Z.of_nat (size (data ++ nseq (Z.to_nat ec_len) 0%Z))
                      - ec_len) = size data).
  by rewrite hsz; nat_lia.
have h1 : (1 <= Z.of_nat (size (data ++ nseq (Z.to_nat ec_len) 0%Z)) - ec_len)%Z.
  by rewrite hsz; nat_lia.
have h2 : all is_byte
            (take (Z.to_nat (Z.of_nat (size (data ++ nseq (Z.to_nat ec_len) 0%Z))
                             - ec_len)) (data ++ nseq (Z.to_nat ec_len) 0%Z)).
  by rewrite hdb take_size_cat.
have [c' [buffer [e1 _ e2 e3 _]]] :=
  encode_frame (GF_valid_intro hwf) hc hec h1 h2.
exists c', buffer; split=> //; first by rewrite e2.
by move: e3; rewrite hdb take_size_cat.
Qed.

(** C8, as stated, fails: for the data [0] and ec_len = 1 the Data Matrix
    field and the QR Code field write the same parity byte (the zero data
    has zero parity in every field). *)
Lemma C8_zero_data_same_parity :
  ~ (drop 1 (RS_Encoder.encode GF_DATA_MATRIX_256 RS_Encoder.new
               [:: 0; 0]%Z 1).1.2
     <> drop 1 (RS_Encoder.encode GF_QR_CODE_256 RS_Encoder.new
                  [:: 0; 0]%Z 1).1.2).
Proof. by apply; vm_compute. Qed.

(** C8 (amended).  For every data sequence and every ec_len >= 1, encoding
    the data under the Data Matrix field and under the QR Code field
    returns buffers of the same length with identical data regions, both
    equal to the data; the parity regions differ for some data (for
    [142, 164, 186] with ec_len = 5 they do), not for all. *)
Theorem C8_fields_same_data_region :
  (forall (data : seq Z) (ec_len : Z),
     all is_byte data -> (1 <= size data)%N -> (1 <= ec_len)%Z ->
     exists c1 b1 c2 b2,
       [/\ RS_Encoder.encode GF_DATA_MATRIX_256 RS_Encoder.new
             (data ++ nseq (Z.to_nat ec_len) 0%Z) ec_len = (c1, b1, Return tt),
           RS_Encoder.encode GF_QR_CODE_256 RS_Encoder.new
             (data ++ nseq (Z.to_nat ec_len) 0%Z) ec_len = (c2, b2, Return tt),
           size b1 = size b2
         & take (size data) b1 = data /\ take (size data) b2 = data])
  /\ drop 3 (RS_Encoder.encode GF_DATA_MATRIX_256 RS_Encoder.new
               ([:: 142; 164; 186]%Z ++ nseq (Z.to_nat 5) 0%Z) 5).1.2
     <> drop 3 (RS_Encoder.encode GF_QR_CODE_256 RS_Encoder.new
                  ([:: 142; 164; 186]%Z ++ nseq (Z.to_nat 5) 0%Z) 5).1.2.
Proof.
split; last by vm_compute.
move=> data ec_len hb hs hec.
have w1 : GF_invariant (Generic_GF.new 0x012d 256 1) by vm_compute.
have w2 : GF_invariant (Generic_GF.new 0x011d 256 0) by vm_compute.
have [c1 [b1 [e1 s1 t1]]] :=
  encode_zeros_data w1 (cache_ok_new _) hb hs hec.
have [c2 [b2 [e2 s2 t2]]] :=
  encode_zeros_data w2 (cache_ok_new _) hb hs hec.
clear w1 w2; exists c1, b1, c2, b2.
by split; [exact: e1 | exact: e2 | rewrite s1 s2 | split].
Qed.

Lemma C8_fields_same_data_region_witness :
  exists c1 b1 c2 b2,
    [/\ RS_Encoder.encode GF_DATA_MATRIX_256 RS_Encoder.new
          ([:: 7; 0; 255]%Z ++ nseq (Z.to_nat 2) 0%Z) 2 = (c1, b1, Return tt),
        RS_Encoder.encode GF_QR_CODE_256 RS_Encoder.new
          ([:: 7; 0; 255]%Z ++ nseq (Z.to_nat 2) 0%Z) 2 = (c2, b2, Return tt),
        size b1 = size b2
      & take (size [:: 7; 0; 255]%Z) b1 = [:: 7; 0; 255]%Z
        /\ take (size [:: 7; 0; 255]%Z) b2 = [:: 7; 0; 255]%Z].
Proof.
apply: (proj1 C8_fields_same_data_region [:: 7; 0; 255]%Z 2%Z).
- by vm_compute.
- by vm_compute.
- by vm_compute.
Defined.

(** C9.  In a field built by the constructor and satisfying the table
    invariant, inverse returns, for every element a with 1 <= a < size, an
    element whose product with a is 1. *)
Theorem C9_multiply_inverse (primitive s gb a : Z) :
  GF_invariant (Generic_GF.new primitive s gb) -> (1 <= a < s)%Z ->
  exists2 b, Generic_GF.inverse (Generic_GF.new primitive s gb) a = Return b
    & Generic_GF.multiply (Generic_GF.new primitive s gb) a b = 1%Z.
Proof.
move=> hwf ha.
have hs : (2 <= s)%Z by lia.
exists (gf_inv primitive s gb a).
  by apply: gf_inverseE; lia.
exact: gf_mul_inv.
Qed.

Lemma C9_multiply_inverse_witness :
  exists2 b, Generic_GF.inverse GF_DATA_MATRIX_256 142 = Return b
    & Generic_GF.multiply GF_DATA_MATRIX_256 142 b = 1%Z.
Proof.
apply: (@C9_multiply_inverse 0x012d 256 1 142).
- by vm_compute.
- by vm_compute.
Defined.

(** C10.  The parity written by encode depends only on the data region
    and on ec_len: for two buffers of the same length with the same data
    region, whatever their parity regions hold before the call (and
    whatever generators are cached), encode returns on both with the same
    final buffer. *)
Theorem C10_parity_ignores_old_parity (primitive gb : Z)
    (c1 c2 : RS_Encoder.cache) (b1 b2 : seq Z) (ec_len : Z) :
  GF_invariant (Generic_GF.new primitive 256 gb) ->
  cache_ok (Generic_GF.new primitive 256 gb) c1 ->
  cache_ok (Generic_GF.new primitive 256 gb) c2 ->
  (1 <= ec_len)%Z -> (1 <= Z.of_nat (size b1) - ec_len)%Z ->
  size b1 = size b2 ->
  all is_byte (take (Z.to_nat (Z.of_nat (size b1) - ec_len)) b1) ->
  take (Z.to_nat (Z.of_nat (size b1) - ec_len)) b1
  = take (Z.to_nat (Z.of_nat (size b1) - ec_len)) b2 ->
  [/\ (RS_Encoder.encode (Generic_GF.new primitive 256 gb) c1 b1 ec_len).1.2
      = (RS_Encoder.encode (Generic_GF.new primitive 256 gb) c2 b2 ec_len).1.2,
      (RS_Encoder.encode (Generic_GF.new primitive 256 gb) c1 b1 ec_len).2
      = Return tt
    & (RS_Encoder.encode (Generic_GF.new primitive 256 gb) c2 b2 ec_len).2
      = Return tt].
Proof.
move=> hwf hc1 hc2 hec hdb hs hb ht.
by have [h1 [h2 h3]] :=
  encode_parity_indep (GF_valid_intro hwf) hc1 hc2 hec hdb hs hb ht.
Qed.

Lemma C10_parity_ignores_old_parity_witness :
  [/\ (RS_Encoder.encode GF_DATA_MATRIX_256 RS_Encoder.new
         [:: 142; 164; 186; 1; 2; 3; 4; 5]%Z 5).1.2
      = (RS_Encoder.encode GF_DATA_MATRIX_256 RS_Encoder.new
           [:: 142; 164; 186; 250; 0; 77; 0; 9]%Z 5).1.2,
      (RS_Encoder.encode GF_DATA_MATRIX_256 RS_Encoder.new
         [:: 142; 164; 186; 1; 2; 3; 4; 5]%Z 5).2 = Return tt
    & (RS_Encoder.encode GF_DATA_MATRIX_256 RS_Encoder.new
         [:: 142; 164; 186; 250; 0; 77; 0; 9]%Z 5).2 = Return tt].
Proof.
apply: (@C10_parity_ignores_old_parity 0x012d 1 RS_Encoder.new RS_Encoder.new
          [:: 142; 164; 186; 1; 2; 3; 4; 5]%Z
          [:: 142; 164; 186; 250; 0; 77; 0; 9]%Z 5).
- by vm_compute.
- by split; vm_compute.
- by split; vm_compute.
- by vm_compute.
- by vm_compute.
- by vm_compute.
- by vm_compute.
- by vm_compute.
Defined.

(* ------------------------------------------------------------------ *)
(** * Further properties of the code                                    *)
(* ------------------------------------------------------------------ *)

(** ** Generic_GF *)

(** X1.  In a field of size 256 whose tables satisfy the invariant,
    multiply is commutative and associative on bytes and has 1 as its
    neutral element. *)
Theorem X1_multiply_monoid (primitive gb a b c : Z) :
  GF_invariant (Generic_GF.new primitive 256 gb) ->
  byte a -> byte b -> byte c ->
  [/\ Generic_GF.multiply (Generic_GF.new primitive 256 gb) a b
      = Generic_GF.multiply (Generic_GF.new primitive 256 gb) b a,
      Generic_GF.multiply (Generic_GF.new primitive 256 gb) a
        (Generic_GF.multiply (Generic_GF.new primitive 256 gb) b c)
      = Generic_GF.multiply (Generic_GF.new primitive 256 gb)
          (Generic_GF.multiply (Generic_GF.new primitive 256 gb) a b) c,
      Generic_GF.multiply (Generic_GF.new primitive 256 gb) 1 a = a
    & Generic_GF.multiply (Generic_GF.new primitive 256 gb) a 1 = a].
Proof.
move=> hwf ha hb hc; split.
- exact: gf_mulC.
- exact: (gf_mulA two_le_256 hwf).
- exact: (gf_mul1l two_le_256 hwf).
- exact: (gf_mul1r two_le_256 hwf).
Qed.

Lemma X1_multiply_monoid_witness :
  [/\ Generic_GF.multiply GF_QR_CODE_256 7 200
      = Generic_GF.multiply GF_QR_CODE_256 200 7,
      Generic_GF.multiply GF_QR_CODE_256 7
        (Generic_GF.multiply GF_QR_CODE_256 200 31)
      = Generic_GF.multiply GF_QR_CODE_256
          (Generic_GF.multiply GF_QR_CODE_256 7 200) 31,
      Generic_GF.multiply GF_QR_CODE_256 1 7 = 7%Z
    & Generic_GF.multiply GF_QR_CODE_256 7 1 = 7%Z].
Proof.
apply: (@X1_multiply_monoid 0x011d 0 7 200 31).
- by vm_compute.
- by rewrite /byte; lia.
- by rewrite /byte; lia.
- by rewrite /byte; lia.
Defined.

(** X2.  multiply distributes over add_or_subtract (XOR) on bytes. *)
Theorem X2_multiply_distributes (primitive gb a b c : Z) :
  GF_invariant (Generic_GF.new primitive 256 gb) ->
  byte a -> byte b -> byte c ->
  Generic_GF.multiply (Generic_GF.new primitive 256 gb) a
    (Generic_GF.add_or_subtract b c)
  = Generic_GF.add_or_subtract
      (Generic_GF.multiply (Generic_GF.new primitive 256 gb) a b)
      (Generic_GF.multiply (Generic_GF.new primitive 256 gb) a c).
Proof. by move=> hwf; exact: (gf_mulDr (GF_valid_intro hwf)). Qed.

Lemma X2_multiply_distributes_witness :
  Generic_GF.multiply GF_DATA_MATRIX_256 9 (Generic_GF.add_or_subtract 100 255)
  = Generic_GF.add_or_subtract
      (Generic_GF.multiply GF_DATA_MATRIX_256 9 100)
      (Generic_GF.multiply GF_DATA_MATRIX_256 9 255).
Proof.
apply: (@X2_multiply_distributes 0x012d 1 9 100 255).
- by vm_compute.
- by rewrite /byte; lia.
- by rewrite /byte; lia.
- by rewrite /byte; lia.
Defined.

(** X3.  In a field whose tables satisfy the invariant, the product of
    two elements is an element, and it is 0 exactly when one of the two
    is 0. *)
Theorem X3_multiply_zero (primitive s gb a b : Z) :
  GF_invariant (Generic_GF.new primitive s gb) -> (2 <= s)%Z ->
  (0 <= a < s)%Z -> (0 <= b < s)%Z ->
  (0 <= Generic_GF.multiply (Generic_GF.new primitive s gb) a b < s)%Z
  /\ (Generic_GF.multiply (Generic_GF.new primitive s gb) a b = 0%Z
      <-> a = 0%Z \/ b = 0%Z).
Proof.
move=> hwf hs ha hb; split; first exact: (gf_elt_mul hs hwf).
split; first exact: (gf_mul_eq0 hs hwf).
by case=> ->; [exact: gf_mul0l | exact: gf_mul0r].
Qed.

Lemma X3_multiply_zero_witness :
  (0 <= Generic_GF.multiply GF_QR_CODE_256 0 5 < 256)%Z
  /\ (Generic_GF.multiply GF_QR_CODE_256 0 5 = 0%Z <-> 0%Z = 0%Z \/ 5%Z = 0%Z).
Proof.
apply: (@X3_multiply_zero 0x011d 256 0 0 5).
- by vm_compute.
- by lia.
- by lia.
- by lia.
Defined.

(** X4.  inverse raises on 0; on a nonzero byte of a valid field of size
    256 it returns a nonzero byte, and the inverse of that byte is the
    element again. *)
Theorem X4_inverse_involution (primitive gb a : Z) :
  GF_invariant (Generic_GF.new primitive 256 gb) -> (1 <= a < 256)%Z ->
  Generic_GF.inverse (Generic_GF.new primitive 256 gb) 0
  = Throw ArithmeticException
  /\ exists b,
       [/\ Generic_GF.inverse (Generic_GF.new primitive 256 gb) a = Return b,
           (1 <= b < 256)%Z
         & Generic_GF.inverse (Generic_GF.new primitive 256 gb) b = Return a].
Proof.
move=> hwf ha; split=> //.
have hv := GF_valid_intro hwf.
have hi := inv_range hv ha.
exists (gf_inv primitive 256 gb a); split=> //.
- by apply: gf_inverseE; lia.
- by rewrite gf_inverseE ?(inverse_involutive hv) //; lia.
Qed.

Lemma X4_inverse_involution_witness :
  Generic_GF.inverse GF_DATA_MATRIX_256 0 = Throw ArithmeticException
  /\ exists b,
       [/\ Generic_GF.inverse GF_DATA_MATRIX_256 142 = Return b,
           (1 <= b < 256)%Z
         & Generic_GF.inverse GF_DATA_MATRIX_256 b = Return 142%Z].
Proof.
apply: (@X4_inverse_involution 0x012d 1 142).
- by vm_compute.
- by lia.
Defined.

(** X5.  exp maps the exponents 0 .. size-2 to nonzero elements, and log
    gives the exponent back: log(exp(i)) = i. *)
Theorem X5_log_exp (primitive s gb i : Z) :
  GF_invariant (Generic_GF.new primitive s gb) -> (2 <= s)%Z ->
  (0 <= i < s - 1)%Z ->
  (1 <= Generic_GF.exp (Generic_GF.new primitive s gb) i < s)%Z
  /\ Generic_GF.log (Generic_GF.new primitive s gb)
       (Generic_GF.exp (Generic_GF.new primitive s gb) i) = Return i.
Proof.
move=> hwf hs hi; have hr := gf_E_range hs hwf hi; split=> //.
rewrite /Generic_GF.log; have /Z.eqb_neq -> : 
  Generic_GF.exp (Generic_GF.new primitive s gb) i <> 0%Z by lia.
by congr Return; exact: (gf_Lg_E hs hwf).
Qed.

Lemma X5_log_exp_witness :
  (1 <= Generic_GF.exp GF_QR_CODE_256 200 < 256)%Z
  /\ Generic_GF.log GF_QR_CODE_256 (Generic_GF.exp GF_QR_CODE_256 200)
     = Return 200%Z.
Proof.
apply: (@X5_log_exp 0x011d 256 0 200).
- by vm_compute.
- by lia.
- by lia.
Defined.

(** X6.  The product of two powers is the power of the sum of the
    exponents, reduced modulo size - 1. *)
Theorem X6_multiply_exp (primitive s gb i j : Z) :
  GF_invariant (Generic_GF.new primitive s gb) -> (2 <= s)%Z ->
  (0 <= i < s - 1)%Z -> (0 <= j < s - 1)%Z ->
  Generic_GF.multiply (Generic_GF.new primitive s gb)
    (Generic_GF.exp (Generic_GF.new primitive s gb) i)
    (Generic_GF.exp (Generic_GF.new primitive s gb) j)
  = Generic_GF.exp (Generic_GF.new primitive s gb) ((i + j) mod (s - 1)).
Proof. by move=> hwf hs; exact: (gf_mul_EE hs hwf). Qed.

Lemma X6_multiply_exp_witness :
  Generic_GF.multiply GF_DATA_MATRIX_256
    (Generic_GF.exp GF_DATA_MATRIX_256 200)
    (Generic_GF.exp GF_DATA_MATRIX_256 100)
  = Generic_GF.exp GF_DATA_MATRIX_256 ((200 + 100) mod (256 - 1)).
Proof.
apply: (@X6_multiply_exp 0x012d 256 1 200 100).
- by vm_compute.
- by lia.
- by lia.
- by lia.
Defined.

(** ** Generic_GF_Poly *)

Lemma drop_zeros_split (c : seq Z) :
  exists k, c = nseq k 0%Z ++ Generic_GF_Poly.drop_zeros c.
Proof.
elim: c => [|x c [k e]]; first by exists 0%N.
rewrite /=; case: Z.eqb_spec => [->|_]; last by exists 0%N.
by exists k.+1; rewrite /= -e.
Qed.

Lemma nseq_snoc (n : nat) (x : Z) : nseq n x ++ [:: x] = x :: nseq n x.
Proof. by elim: n => //= n ->. Qed.

(** X7.  The constructor refuses the empty array; on any other array it
    only drops leading zeros (keeping one coefficient when all are zero):
    the result has no leading zero unless it is [0], and the array given
    is the result behind some zeros. *)
Theorem X7_constructor_drops_zeros (c : seq Z) :
  c <> [::] ->
  Generic_GF_Poly.new [::] = Throw IllegalArgumentException
  /\ exists p k,
       [/\ Generic_GF_Poly.new c = Return p, normal p
         & c = nseq k 0%Z ++ p].
Proof.
move=> hc; split=> //.
case: c hc => [|x c] // _.
rewrite /Generic_GF_Poly.new [size _ == 0%N]/= /Generic_GF_Poly.strip.
case: c => [|y c].
  exists [:: x], 0%N; split=> //.
  by have [->|hx] := eqVneq x 0%Z; rewrite /normal /= ?eqxx ?hx ?orbT.
have -> : (1 < size [:: x, y & c])%N by [].
rewrite [head _ _]/= [behead _]/= andTb.
case: Z.eqb_spec => [->|/eqP hx]; last first.
  by exists [:: x, y & c], 0%N; split=> //; rewrite /normal /= hx orbT.
have [k e] := drop_zeros_split (y :: c).
have := drop_zeros_head (y :: c).
case: (Generic_GF_Poly.drop_zeros (y :: c)) e => [|z d] e hd.
  exists Generic_GF_Poly.zero, (size c).+1; split=> //.
  have ek : k = (size c).+1.
    by have := congr1 size e; rewrite /= cats0 size_nseq => ->.
  by rewrite e cats0 ek nseq_snoc.
exists (z :: d), k.+1; split=> //; last by rewrite e.
by case: hd => // /eqP hz; rewrite /normal /= hz orbT.
Qed.

Lemma X7_constructor_drops_zeros_witness :
  Generic_GF_Poly.new [::] = Throw IllegalArgumentException
  /\ exists p k,
       [/\ Generic_GF_Poly.new [:: 0; 0; 5; 0]%Z = Return p, normal p
         & [:: 0; 0; 5; 0]%Z = nseq k 0%Z ++ p].
Proof. by apply: (@X7_constructor_drops_zeros [:: 0; 0; 5; 0]%Z). Defined.

(** X8.  evaluate_at is a homomorphism: on polynomials with byte
    coefficients and no leading zero (wfp), over a valid field, the value
    of a sum is the XOR of the values and the value of a product is the
    product of the values. *)
Theorem X8_evaluate_at_homomorphism (primitive gb : Z)
    (p q : Generic_GF_Poly.t) (a : Z) :
  GF_invariant (Generic_GF.new primitive 256 gb) ->
  wfp p -> wfp q -> byte a ->
  Generic_GF_Poly.evaluate_at (Generic_GF.new primitive 256 gb)
    (Generic_GF_Poly.add_or_subtract p q) a
  = Generic_GF.add_or_subtract
      (Generic_GF_Poly.evaluate_at (Generic_GF.new primitive 256 gb) p a)
      (Generic_GF_Poly.evaluate_at (Generic_GF.new primitive 256 gb) q a)
  /\ Generic_GF_Poly.evaluate_at (Generic_GF.new primitive 256 gb)
       (Generic_GF_Poly.multiply_poly (Generic_GF.new primitive 256 gb) p q) a
     = Generic_GF.multiply (Generic_GF.new primitive 256 gb)
         (Generic_GF_Poly.evaluate_at (Generic_GF.new primitive 256 gb) p a)
         (Generic_GF_Poly.evaluate_at (Generic_GF.new primitive 256 gb) q a).
Proof.
move=> hwf hp hq ha; have hv := GF_valid_intro hwf; split.
- exact: (eval_add hv).
- exact: (eval_mul hv).
Qed.

Lemma X8_evaluate_at_homomorphism_witness :
  Generic_GF_Poly.evaluate_at GF_QR_CODE_256
    (Generic_GF_Poly.add_or_subtract [:: 3; 0; 7]%Z [:: 3; 1; 1]%Z) 19
  = Generic_GF.add_or_subtract
      (Generic_GF_Poly.evaluate_at GF_QR_CODE_256 [:: 3; 0; 7]%Z 19)
      (Generic_GF_Poly.evaluate_at GF_QR_CODE_256 [:: 3; 1; 1]%Z 19)
  /\ Generic_GF_Poly.evaluate_at GF_QR_CODE_256
       (Generic_GF_Poly.multiply_poly GF_QR_CODE_256
          [:: 3; 0; 7]%Z [:: 3; 1; 1]%Z) 19
     = Generic_GF.multiply GF_QR_CODE_256
         (Generic_GF_Poly.evaluate_at GF_QR_CODE_256 [:: 3; 0; 7]%Z 19)
         (Generic_GF_Poly.evaluate_at GF_QR_CODE_256 [:: 3; 1; 1]%Z 19).
Proof.
apply: (@X8_evaluate_at_homomorphism 0x011d 0 [:: 3; 0; 7]%Z [:: 3; 1; 1]%Z 19).
- by vm_compute.
- by vm_compute.
- by vm_compute.
- by rewrite /byte; lia.
Defined.

(** X9.  add_or_subtract keeps the invariant of polynomials, is
    commutative and associative, and every polynomial is its own
    opposite: p + p is the zero polynomial. *)
Theorem X9_add_or_subtract_laws (primitive gb : Z)
    (p q r : Generic_GF_Poly.t) :
  GF_invariant (Generic_GF.new primitive 256 gb) ->
  wfp p -> wfp q -> wfp r ->
  [/\ wfp (Generic_GF_Poly.add_or_subtract p q),
      Generic_GF_Poly.add_or_subtract p q
      = Generic_GF_Poly.add_or_subtract q p,
      Generic_GF_Poly.add_or_subtract p (Generic_GF_Poly.add_or_subtract q r)
      = Generic_GF_Poly.add_or_subtract
          (Generic_GF_Poly.add_or_subtract p q) r
    & Generic_GF_Poly.add_or_subtract p p = Generic_GF_Poly.zero].
Proof.
move=> hwf hp hq hr; have hv := GF_valid_intro hwf; split.
- exact: wfp_add.
- exact: (add_comm hv).
- exact: (add_assoc hv).
- exact: (add_self hv).
Qed.

Lemma X9_add_or_subtract_laws_witness :
  [/\ wfp (Generic_GF_Poly.add_or_subtract [:: 3; 0; 7]%Z [:: 3; 1; 1]%Z),
      Generic_GF_Poly.add_or_subtract [:: 3; 0; 7]%Z [:: 3; 1; 1]%Z
      = Generic_GF_Poly.add_or_subtract [:: 3; 1; 1]%Z [:: 3; 0; 7]%Z,
      Generic_GF_Poly.add_or_subtract [:: 3; 0; 7]%Z
        (Generic_GF_Poly.add_or_subtract [:: 3; 1; 1]%Z [:: 200]%Z)
      = Generic_GF_Poly.add_or_subtract
          (Generic_GF_Poly.add_or_subtract [:: 3; 0; 7]%Z [:: 3; 1; 1]%Z)
          [:: 200]%Z
    & Generic_GF_Poly.add_or_subtract [:: 3; 0; 7]%Z [:: 3; 0; 7]%Z
      = Generic_GF_Poly.zero].
Proof.
apply: (@X9_add_or_subtract_laws 0x011d 0
          [:: 3; 0; 7]%Z [:: 3; 1; 1]%Z [:: 200]%Z).
- by vm_compute.
- by vm_compute.
- by vm_compute.
- by vm_compute.
Defined.

(** X10.  multiply_poly keeps the invariant of polynomials, is
    commutative and associative, has field.one as neutral element and
    distributes over add_or_subtract. *)
Theorem X10_multiply_poly_laws (primitive gb : Z)
    (p q r : Generic_GF_Poly.t) :
  GF_invariant (Generic_GF.new primitive 256 gb) ->
  wfp p -> wfp q -> wfp r ->
  [/\ wfp (Generic_GF_Poly.multiply_poly (Generic_GF.new primitive 256 gb) p q),
      Generic_GF_Poly.multiply_poly (Generic_GF.new primitive 256 gb) p q
      = Generic_GF_Poly.multiply_poly (Generic_GF.new primitive 256 gb) q p,
      Generic_GF_Poly.multiply_poly (Generic_GF.new primitive 256 gb) p
        (Generic_GF_Poly.multiply_poly (Generic_GF.new primitive 256 gb) q r)
      = Generic_GF_Poly.multiply_poly (Generic_GF.new primitive 256 gb)
          (Generic_GF_Poly.multiply_poly (Generic_GF.new primitive 256 gb) p q)
          r,
      Generic_GF_Poly.multiply_poly (Generic_GF.new primitive 256 gb) p
        Generic_GF_Poly.one = p
    & Generic_GF_Poly.multiply_poly (Generic_GF.new primitive 256 gb) p
        (Generic_GF_Poly.add_or_subtract q r)
      = Generic_GF_Poly.add_or_subtract
          (Generic_GF_Poly.multiply_poly (Generic_GF.new primitive 256 gb) p q)
          (Generic_GF_Poly.multiply_poly (Generic_GF.new primitive 256 gb) p r)].
Proof.
move=> hwf hp hq hr; have hv := GF_valid_intro hwf; split.
- exact: (wfp_multiply_poly hv).
- exact: (mul_comm hv).
- exact: (mul_assoc hv).
- exact: (mul_one hv).
- exact: (mul_add_distr hv).
Qed.

Lemma X10_multiply_poly_laws_witness :
  [/\ wfp (Generic_GF_Poly.multiply_poly GF_DATA_MATRIX_256
             [:: 3; 0; 7]%Z [:: 3; 1]%Z),
      Generic_GF_Poly.multiply_poly GF_DATA_MATRIX_256 [:: 3; 0; 7]%Z [:: 3; 1]%Z
      = Generic_GF_Poly.multiply_poly GF_DATA_MATRIX_256
          [:: 3; 1]%Z [:: 3; 0; 7]%Z,
      Generic_GF_Poly.multiply_poly GF_DATA_MATRIX_256 [:: 3; 0; 7]%Z
        (Generic_GF_Poly.multiply_poly GF_DATA_MATRIX_256
           [:: 3; 1]%Z [:: 200; 9]%Z)
      = Generic_GF_Poly.multiply_poly GF_DATA_MATRIX_256
          (Generic_GF_Poly.multiply_poly GF_DATA_MATRIX_256
             [:: 3; 0; 7]%Z [:: 3; 1]%Z)
          [:: 200; 9]%Z,
      Generic_GF_Poly.multiply_poly GF_DATA_MATRIX_256 [:: 3; 0; 7]%Z
        Generic_GF_Poly.one = [:: 3; 0; 7]%Z
    & Generic_GF_Poly.multiply_poly GF_DATA_MATRIX_256 [:: 3; 0; 7]%Z
        (Generic_GF_Poly.add_or_subtract [:: 3; 1]%Z [:: 200; 9]%Z)
      = Generic_GF_Poly.add_or_subtract
          (Generic_GF_Poly.multiply_poly GF_DATA_MATRIX_256
             [:: 3; 0; 7]%Z [:: 3; 1]%Z)
          (Generic_GF_Poly.multiply_poly GF_DATA_MATRIX_256
             [:: 3; 0; 7]%Z [:: 200; 9]%Z)].
Proof.
apply: (@X10_multiply_poly_laws 0x012d 1
          [:: 3; 0; 7]%Z [:: 3; 1]%Z [:: 200; 9]%Z).
- by vm_compute.
- by vm_compute.
- by vm_compute.
- by vm_compute.
Defined.

(** X11.  multiply_by_monomial raises for a negative degree; otherwise it
    returns the product, by multiply_poly, with the monomial that
    build_monomial builds for the same degree and coefficient. *)
Theorem X11_multiply_by_monomial (primitive gb : Z)
    (p : Generic_GF_Poly.t) (d a : Z) :
  GF_invariant (Generic_GF.new primitive 256 gb) -> wfp p -> byte a ->
  if (d <? 0)%Z then
    Generic_GF_Poly.multiply_by_monomial (Generic_GF.new primitive 256 gb) p d a
    = Throw IllegalArgumentException
  else
    exists2 m, Generic_GF_Poly.build_monomial d a = Return m
      & Generic_GF_Poly.multiply_by_monomial
          (Generic_GF.new primitive 256 gb) p d a
        = Return (Generic_GF_Poly.multiply_poly
                    (Generic_GF.new primitive 256 gb) p m).
Proof.
move=> hwf hp ha; case: Z.ltb_spec => hd.
  by rewrite /Generic_GF_Poly.multiply_by_monomial; have /Z.ltb_lt -> := hd.
exact: (monomial_mul (GF_valid_intro hwf)).
Qed.

Lemma X11_multiply_by_monomial_witness :
  exists2 m, Generic_GF_Poly.build_monomial 2 7 = Return m
    & Generic_GF_Poly.multiply_by_monomial GF_QR_CODE_256 [:: 3; 0; 7]%Z 2 7
      = Return (Generic_GF_Poly.multiply_poly GF_QR_CODE_256 [:: 3; 0; 7]%Z m).
Proof.
apply: (@X11_multiply_by_monomial 0x011d 0 [:: 3; 0; 7]%Z 2 7).
- by vm_compute.
- by vm_compute.
- by rewrite /byte; lia.
Defined.

(** X12.  divide raises 'Divide by 0' on the zero polynomial; for any
    other divisor it returns a quotient and a remainder with
    quotient * divisor + remainder equal to the dividend, the remainder
    being zero or of smaller degree than the divisor. *)
Theorem X12_divide_quotient_remainder (primitive gb : Z)
    (p g : Generic_GF_Poly.t) :
  GF_invariant (Generic_GF.new primitive 256 gb) -> wfp p -> wfp g ->
  if g == Generic_GF_Poly.zero then
    Generic_GF_Poly.divide (Generic_GF.new primitive 256 gb) p g
    = Throw DivideByZero
  else
    exists q r,
      [/\ Generic_GF_Poly.divide (Generic_GF.new primitive 256 gb) p g
          = Return (q, r),
          wfp q, wfp r,
          Generic_GF_Poly.add_or_subtract
            (Generic_GF_Poly.multiply_poly (Generic_GF.new primitive 256 gb)
               q g) r = p
        & r = Generic_GF_Poly.zero
          \/ (Generic_GF_Poly.degree r < Generic_GF_Poly.degree g)%Z].
Proof.
move=> hwf hp hg; case: eqP => [->|hn] //.
exact: (divide_spec (GF_valid_intro hwf)).
Qed.

Lemma X12_divide_quotient_remainder_witness :
  exists q r,
    [/\ Generic_GF_Poly.divide GF_DATA_MATRIX_256
          [:: 142; 164; 186; 0; 0]%Z [:: 1; 6; 8]%Z = Return (q, r),
        wfp q, wfp r,
        Generic_GF_Poly.add_or_subtract
          (Generic_GF_Poly.multiply_poly GF_DATA_MATRIX_256 q [:: 1; 6; 8]%Z) r
        = [:: 142; 164; 186; 0; 0]%Z
      & r = Generic_GF_Poly.zero
        \/ (Generic_GF_Poly.degree r
            < Generic_GF_Poly.degree [:: 1; 6; 8]%Z)%Z].
Proof.
apply: (@X12_divide_quotient_remainder 0x012d 1
          [:: 142; 164; 186; 0; 0]%Z [:: 1; 6; 8]%Z).
- by vm_compute.
- by vm_compute.
- by vm_compute.
Defined.

(** ** RS_Encoder *)

Lemma build_generator_cached f c degree :
  cache_ok f c -> (0 <= degree)%Z -> (Z.to_nat degree < size c)%N ->
  RS_Encoder.build_generator f c degree
  = (c, Some (generator f (Z.to_nat degree))).
Proof.
move=> hc hd hlt; rewrite /RS_Encoder.build_generator.
have -> : (degree >=? Z.of_nat (size c))%Z = false.
  by rewrite Z.geb_leb; apply/Z.leb_gt; nat_lia.
rewrite /RS_Encoder.cache_read hlt; have /Z.ltb_ge -> := hd.
by rewrite (cache_ok_nth hc).
Qed.

Lemma build_generator_size f c degree :
  cache_ok f c -> (0 <= degree)%Z ->
  (Z.to_nat degree < size (RS_Encoder.build_generator f c degree).1)%N.
Proof.
move=> hc hd; rewrite /RS_Encoder.build_generator.
case: Z.geb_spec => h /=; last by nat_lia.
have [_ ->] := cache_ok_extend (Z.to_nat degree + 1 - size c) hc.
by nat_lia.
Qed.

(** X13.  build_generator, on a cache that holds generator polynomials and
    for a degree d >= 0, returns a monic polynomial with d + 1
    coefficients that vanishes at exp(i + generator_base) for every
    0 <= i < d; the cache it leaves holds generator polynomials again, and
    a second call with the same degree returns the same polynomial from
    the cache without changing it. *)
Theorem X13_build_generator (primitive gb : Z) (c : RS_Encoder.cache)
    (degree : Z) :
  GF_invariant (Generic_GF.new primitive 256 gb) ->
  cache_ok (Generic_GF.new primitive 256 gb) c -> (0 <= degree)%Z ->
  exists c' g,
    [/\ RS_Encoder.build_generator (Generic_GF.new primitive 256 gb) c degree
        = (c', Some g),
        cache_ok (Generic_GF.new primitive 256 gb) c'
        /\ RS_Encoder.build_generator (Generic_GF.new primitive 256 gb)
             c' degree = (c', Some g),
        Z.of_nat (size g) = (degree + 1)%Z,
        Generic_GF_Poly.leading g = 1%Z
      & forall i, (0 <= i < degree)%Z ->
          Generic_GF_Poly.evaluate_at (Generic_GF.new primitive 256 gb) g
            (Generic_GF.exp (Generic_GF.new primitive 256 gb) (i + gb))
          = 0%Z].
Proof.
move=> hwf hc hd; have hv := GF_valid_intro hwf.
have [c' hc' e] := build_generatorE hc hd.
have hs := build_generator_size hc hd; rewrite e /= in hs.
have [h1 h2 h3 h4] := generator_props hv (Z.to_nat degree).
exists c', (generator (Generic_GF.new primitive 256 gb) (Z.to_nat degree)).
split=> //.
- by split=> //; exact: build_generator_cached.
- by rewrite h2; nat_lia.
- move=> i hi; rewrite -(Z2Nat.id i); first lia.
  by apply: h4; nat_lia.
Qed.

Lemma X13_build_generator_witness :
  exists c' g,
    [/\ RS_Encoder.build_generator GF_DATA_MATRIX_256 RS_Encoder.new 5
        = (c', Some g),
        cache_ok GF_DATA_MATRIX_256 c'
        /\ RS_Encoder.build_generator GF_DATA_MATRIX_256 c' 5 = (c', Some g),
        Z.of_nat (size g) = (5 + 1)%Z,
        Generic_GF_Poly.leading g = 1%Z
      & forall i, (0 <= i < 5)%Z ->
          Generic_GF_Poly.evaluate_at GF_DATA_MATRIX_256 g
            (Generic_GF.exp GF_DATA_MATRIX_256 (i + 1)) = 0%Z].
Proof.
apply: (@X13_build_generator 0x012d 1 RS_Encoder.new 5).
- by vm_compute.
- by split; vm_compute.
- by vm_compute.
Defined.

(** X14.  The buffer that encode returns is a valid codeword: all its
    ec_len syndromes, as decode computes them, are zero. *)
Theorem X14_encode_gives_codeword (primitive gb : Z) (c : RS_Encoder.cache)
    (buffer : seq Z) (ec_len : Z) :
  GF_invariant (Generic_GF.new primitive 256 gb) ->
  cache_ok (Generic_GF.new primitive 256 gb) c ->
  (1 <= ec_len)%Z -> (1 <= Z.of_nat (size buffer) - ec_len)%Z ->
  all is_byte (take (Z.to_nat (Z.of_nat (size buffer) - ec_len)) buffer) ->
  (RS_Encoder.encode (Generic_GF.new primitive 256 gb) c buffer ec_len).2
  = Return tt
  /\ valid_codeword (Generic_GF.new primitive 256 gb)
       (RS_Encoder.encode (Generic_GF.new primitive 256 gb) c buffer ec_len).1.2
       ec_len.
Proof.
move=> hwf hc hec hdb hb; have hv := GF_valid_intro hwf.
have [c' [cw [-> sw bw [Q eQ]]]] := encode_codeword hv hc hec hdb hb.
split=> //; rewrite [_.1.2]/= /valid_codeword bw /=.
have n0 : cw != [::] by rewrite -size_eq0 sw; nat_lia.
rewrite n0 /=; have /Z.leb_le -> /= : (0 <= ec_len)%Z by lia.
rewrite -all_rev -(Z2Nat.id ec_len); first lia.
exact: (syndromes_zero n0 bw eQ).
Qed.

Lemma X14_encode_gives_codeword_witness :
  (RS_Encoder.encode GF_QR_CODE_256 RS_Encoder.new
     [:: 16; 32; 12; 86; 97; 128; 0; 0; 0; 0]%Z 4).2 = Return tt
  /\ valid_codeword GF_QR_CODE_256
       (RS_Encoder.encode GF_QR_CODE_256 RS_Encoder.new
          [:: 16; 32; 12; 86; 97; 128; 0; 0; 0; 0]%Z 4).1.2 4.
Proof.
apply: (@X14_encode_gives_codeword 0x011d 0 RS_Encoder.new
          [:: 16; 32; 12; 86; 97; 128; 0; 0; 0; 0]%Z 4).
- by vm_compute.
- by split; vm_compute.
- by vm_compute.
- by vm_compute.
- by vm_compute.
Defined.

(** X15.  Encoding is idempotent: encode on the buffer that encode
    returned, with the same ec_len, returns the same buffer. *)
Theorem X15_encode_idempotent (primitive gb : Z) (c c2 : RS_Encoder.cache)
    (buffer : seq Z) (ec_len : Z) :
  GF_invariant (Generic_GF.new primitive 256 gb) ->
  cache_ok (Generic_GF.new primitive 256 gb) c ->
  cache_ok (Generic_GF.new primitive 256 gb) c2 ->
  (1 <= ec_len)%Z -> (1 <= Z.of_nat (size buffer) - ec_len)%Z ->
  all is_byte (take (Z.to_nat (Z.of_nat (size buffer) - ec_len)) buffer) ->
  (RS_Encoder.encode (Generic_GF.new primitive 256 gb) c2
     (RS_Encoder.encode (Generic_GF.new primitive 256 gb) c buffer ec_len).1.2
     ec_len).1.2
  = (RS_Encoder.encode (Generic_GF.new primitive 256 gb) c buffer ec_len).1.2
  /\ (RS_Encoder.encode (Generic_GF.new primitive 256 gb) c2
        (RS_Encoder.encode (Generic_GF.new primitive 256 gb) c buffer
           ec_len).1.2 ec_len).2 = Return tt.
Proof.
move=> hwf hc hc2 hec hdb hb.
exact: (encode_again (GF_valid_intro hwf) hc hc2 hec hdb hb).
Qed.

Lemma X15_encode_idempotent_witness :
  (RS_Encoder.encode GF_DATA_MATRIX_256 RS_Encoder.new
     (RS_Encoder.encode GF_DATA_MATRIX_256 RS_Encoder.new
        [:: 142; 164; 186; 9; 9; 9; 9; 9]%Z 5).1.2 5).1.2
  = (RS_Encoder.encode GF_DATA_MATRIX_256 RS_Encoder.new
       [:: 142; 164; 186; 9; 9; 9; 9; 9]%Z 5).1.2
  /\ (RS_Encoder.encode GF_DATA_MATRIX_256 RS_Encoder.new
        (RS_Encoder.encode GF_DATA_MATRIX_256 RS_Encoder.new
           [:: 142; 164; 186; 9; 9; 9; 9; 9]%Z 5).1.2 5).2 = Return tt.
Proof.
apply: (@X15_encode_idempotent 0x012d 1 RS_Encoder.new RS_Encoder.new
          [:: 142; 164; 186; 9; 9; 9; 9; 9]%Z 5).
- by vm_compute.
- by split; vm_compute.
- by split; vm_compute.
- by vm_compute.
- by vm_compute.
- by vm_compute.
Defined.

(** X16.  Encoding is linear: for two buffers of one length with byte
    data, the codeword of their bytewise XOR is the bytewise XOR of their
    codewords. *)
Theorem X16_encode_linear (primitive gb : Z) (c1 c2 c3 : RS_Encoder.cache)
    (b1 b2 : seq Z) (ec_len : Z) :
  GF_invariant (Generic_GF.new primitive 256 gb) ->
  cache_ok (Generic_GF.new primitive 256 gb) c1 ->
  cache_ok (Generic_GF.new primitive 256 gb) c2 ->
  cache_ok (Generic_GF.new primitive 256 gb) c3 ->
  (1 <= ec_len)%Z -> (1 <= Z.of_nat (size b1) - ec_len)%Z ->
  size b1 = size b2 ->
  all is_byte (take (Z.to_nat (Z.of_nat (size b1) - ec_len)) b1) ->
  all is_byte (take (Z.to_nat (Z.of_nat (size b1) - ec_len)) b2) ->
  (RS_Encoder.encode (Generic_GF.new primitive 256 gb) c3 (zipxor b1 b2)
     ec_len).1.2
  = zipxor
      (RS_Encoder.encode (Generic_GF.new primitive 256 gb) c1 b1 ec_len).1.2
      (RS_Encoder.encode (Generic_GF.new primitive 256 gb) c2 b2 ec_len).1.2
  /\ (RS_Encoder.encode (Generic_GF.new primitive 256 gb) c3 (zipxor b1 b2)
        ec_len).2 = Return tt.
Proof.
move=> hwf h1 h2 h3 hec hdb hs hb1 hb2.
exact: (encode_linear (GF_valid_intro hwf) h1 h2 h3 hec hdb hs hb1 hb2).
Qed.

Lemma X16_encode_linear_witness :
  (RS_Encoder.encode GF_QR_CODE_256 RS_Encoder.new
     (zipxor [:: 1; 2; 3; 0; 0]%Z [:: 200; 0; 77; 0; 0]%Z) 2).1.2
  = zipxor
      (RS_Encoder.encode GF_QR_CODE_256 RS_Encoder.new
         [:: 1; 2; 3; 0; 0]%Z 2).1.2
      (RS_Encoder.encode GF_QR_CODE_256 RS_Encoder.new
         [:: 200; 0; 77; 0; 0]%Z 2).1.2
  /\ (RS_Encoder.encode GF_QR_CODE_256 RS_Encoder.new
        (zipxor [:: 1; 2; 3; 0; 0]%Z [:: 200; 0; 77; 0; 0]%Z) 2).2
     = Return tt.
Proof.
apply: (@X16_encode_linear 0x011d 0 RS_Encoder.new RS_Encoder.new
          RS_Encoder.new [:: 1; 2; 3; 0; 0]%Z [:: 200; 0; 77; 0; 0]%Z 2).
- by vm_compute.
- by split; vm_compute.
- by split; vm_compute.
- by split; vm_compute.
- by vm_compute.
- by vm_compute.
- by vm_compute.
- by vm_compute.
- by vm_compute.
Defined.

(** ** RS_Decoder *)

Lemma apply_corrections_size f received locs mags :
  size (RS_Decoder.apply_corrections f received locs mags).1 = size received.
Proof.
rewrite /RS_Decoder.apply_corrections.
move: (iota 0 (size locs)) => l.
rewrite -[RHS]/(size (received, Return tt : outcome unit).1).
elim: l (received, Return tt : outcome unit) => [|i l ih] st //=.
rewrite ih; case: st => r [u| |] //=.
case: (Generic_GF.log f _) => [l0|e|] //=.
by case: ifP => //= _; rewrite size_ta_write.
Qed.

(** X17.  decode never changes the length of the buffer, whatever the
    field, the buffer and ec_len are, and whether it returns or raises. *)
Theorem X17_decode_keeps_length (f : Generic_GF.t) (received : seq Z)
    (ec_len : Z) :
  size (RS_Decoder.decode f received ec_len).1 = size received.
Proof.
rewrite /RS_Decoder.decode; case: (Generic_GF_Poly.new _) => [poly|e|] //.
case: ifP => // _; case: ifP => // _.
case: (RS_Decoder.locate _ _ _) => [lm|e|] //.
exact: apply_corrections_size.
Qed.

(** X18.  A buffer is a valid codeword exactly when the division of its
    polynomial by the generator polynomial leaves the zero remainder
    (for a generator base >= 0 with ec_len + generator_base <= 255). *)
Theorem X18_codeword_iff_divisible (primitive gb : Z) (received : seq Z)
    (ec_len : Z) :
  GF_invariant (Generic_GF.new primitive 256 gb) ->
  received <> [::] -> all is_byte received ->
  (0 <= gb)%Z -> (0 <= ec_len)%Z -> (ec_len + gb <= 255)%Z ->
  exists c' g q r,
    [/\ RS_Encoder.build_generator (Generic_GF.new primitive 256 gb)
          RS_Encoder.new ec_len = (c', Some g),
        Generic_GF_Poly.divide (Generic_GF.new primitive 256 gb)
          (Generic_GF_Poly.strip received) g = Return (q, r)
      & valid_codeword (Generic_GF.new primitive 256 gb) received ec_len
        = (r == Generic_GF_Poly.zero)].
Proof.
move=> hwf /eqP hn hb h0 hec hs; have hv := GF_valid_intro hwf.
have [c' _ e] :=
  build_generatorE (cache_ok_new (Generic_GF.new primitive 256 gb)) hec.
have h1 : (Z.of_nat (Z.to_nat ec_len) + gb <= 255)%Z by lia.
have [q [r [ed es]]] := syndromes_divide hv hn hb h0 h1.
exists c', (generator (Generic_GF.new primitive 256 gb) (Z.to_nat ec_len)), q, r.
split=> //; rewrite /valid_codeword hn hb /=.
have /Z.leb_le -> /= : (0 <= ec_len)%Z by [].
by rewrite -es Z2Nat.id.
Qed.

Lemma X18_codeword_iff_divisible_witness :
  exists c' g q r,
    [/\ RS_Encoder.build_generator GF_DATA_MATRIX_256 RS_Encoder.new 5
        = (c', Some g),
        Generic_GF_Poly.divide GF_DATA_MATRIX_256
          (Generic_GF_Poly.strip [:: 142; 164; 186; 114; 25; 5; 88; 102]%Z) g
        = Return (q, r)
      & valid_codeword GF_DATA_MATRIX_256
          [:: 142; 164; 186; 114; 25; 5; 88; 102]%Z 5
        = (r == Generic_GF_Poly.zero)].
Proof.
apply: (@X18_codeword_iff_divisible 0x012d 1
          [:: 142; 164; 186; 114; 25; 5; 88; 102]%Z 5).
- by vm_compute.
- by [].
- by vm_compute.
- by lia.
- by lia.
- by lia.
Defined.

(** X19.  run_euclidean_algorithm on x^R and any syndrome polynomial of
    degree below R never throws 'r_{i-1} was zero' nor 'Division
    algorithm failed to reduce polynomial?' and always leaves its loop:
    it throws 'sigmaTilde(0) was zero', or it returns sigma and omega with
    sigma(0) = 1, 2 deg sigma <= R, 2 deg omega < R and the coefficients
    of sigma * syndrome and of omega equal at every degree below R (the
    key equation). *)
Theorem X19_euclid_key_equation (primitive gb : Z) (R : nat)
    (syn mono : Generic_GF_Poly.t) :
  GF_invariant (Generic_GF.new primitive 256 gb) ->
  (0 < R)%N -> wfp syn -> (size syn <= R)%N ->
  Generic_GF_Poly.build_monomial (Z.of_nat R) 1 = Return mono ->
  RS_Decoder.run_euclidean_algorithm (Generic_GF.new primitive 256 gb)
    mono syn (Z.of_nat R) = Throw SigmaTildeZero
  \/ exists sg om,
       [/\ RS_Decoder.run_euclidean_algorithm
             (Generic_GF.new primitive 256 gb) mono syn (Z.of_nat R)
           = Return (sg, om),
           wfp sg /\ wfp om,
           to_int32 (Generic_GF_Poly.get_coefficient sg 0) = 1%Z,
           (2 * Generic_GF_Poly.degree sg <= Z.of_nat R)%Z
           /\ (2 * Generic_GF_Poly.degree om < Z.of_nat R)%Z
         & forall d : nat, (d < R)%N ->
             to_int32 (Generic_GF_Poly.get_coefficient
                         (Generic_GF_Poly.multiply_poly
                            (Generic_GF.new primitive 256 gb) sg syn)
                         (Z.of_nat d))
             = to_int32 (Generic_GF_Poly.get_coefficient om (Z.of_nat d))].
Proof.
move=> hwf hR hsyn hs hm.
exact: (run_euclid_spec (GF_valid_intro hwf) hR hsyn hs hm).
Qed.

Lemma X19_euclid_key_equation_witness :
  RS_Decoder.run_euclidean_algorithm GF_QR_CODE_256
    [:: 1; 0; 0; 0; 0]%Z [:: 7; 0; 200; 31]%Z (Z.of_nat 4)
  = Throw SigmaTildeZero
  \/ exists sg om,
       [/\ RS_Decoder.run_euclidean_algorithm GF_QR_CODE_256
             [:: 1; 0; 0; 0; 0]%Z [:: 7; 0; 200; 31]%Z (Z.of_nat 4)
           = Return (sg, om),
           wfp sg /\ wfp om,
           to_int32 (Generic_GF_Poly.get_coefficient sg 0) = 1%Z,
           (2 * Generic_GF_Poly.degree sg <= Z.of_nat 4)%Z
           /\ (2 * Generic_GF_Poly.degree om < Z.of_nat 4)%Z
         & forall d : nat, (d < 4)%N ->
             to_int32 (Generic_GF_Poly.get_coefficient
                         (Generic_GF_Poly.multiply_poly GF_QR_CODE_256
                            sg [:: 7; 0; 200; 31]%Z)
                         (Z.of_nat d))
             = to_int32 (Generic_GF_Poly.get_coefficient om (Z.of_nat d))].
Proof.
apply: (@X19_euclid_key_equation 0x011d 0 4
          [:: 7; 0; 200; 31]%Z [:: 1; 0; 0; 0; 0]%Z).
- by vm_compute.
- by [].
- by vm_compute.
- by [].
- by vm_compute.
Defined.

(** The value that inverse returns for a nonzero element. *)
Definition inverse_value (f : Generic_GF.t) (a : Z) : Z :=
  ta_get (Generic_GF.exp_table f)
    (Generic_GF.size f - ta_get (Generic_GF.log_table f) a - 1).

(** The roots of the locator that the search loop meets, in its order. *)
Definition locator_roots (f : Generic_GF.t) (sg : Generic_GF_Poly.t)
  : seq nat :=
  filter (fun i => (Generic_GF_Poly.evaluate_at f sg (Z.of_nat i) =? 0)%Z)
    (iota 1 (Z.to_nat (Generic_GF.size f) - 1)).

Lemma search_fold (f : Generic_GF.t) (sg : Generic_GF_Poly.t) (nu : nat)
    (l : seq nat) (found : seq Z) :
  all (fun i => (0 < i)%N) l -> (size found <= nu)%N ->
  let found' :=
    take nu (found ++
             [seq inverse_value f (Z.of_nat i)
             | i <- filter (fun i => (Generic_GF_Poly.evaluate_at f sg
                                        (Z.of_nat i) =? 0)%Z) l]) in
  foldl (fun st i =>
           ' (result, e) <- st ;;
           if (e <? Z.of_nat nu)%Z then
             if (Generic_GF_Poly.evaluate_at f sg (Z.of_nat i) =? 0)%Z then
               x <- Generic_GF.inverse f (Z.of_nat i) ;;
               Return (ta_write result e x, (e + 1)%Z)
             else Return (result, e)
           else Return (result, e))
    (Return (found ++ nseq (nu - size found) 0%Z, Z.of_nat (size found))) l
  = Return (found' ++ nseq (nu - size found') 0%Z, Z.of_nat (size found')).
Proof.
elim: l found => [|i l ih] found /=.
  by move=> _ hs; rewrite cats0 take_oversize.
move=> /andP [hi hl] hs.
case hr: (Generic_GF_Poly.evaluate_at f sg (Z.of_nat i) =? 0)%Z; last first.
  by rewrite if_same; exact: ih.
have [hlt|hge] := ltnP (size found) nu.
  have /Z.ltb_lt -> : (Z.of_nat (size found) < Z.of_nat nu)%Z by nat_lia.
  rewrite /Generic_GF.inverse.
  have /Z.eqb_neq -> /= : Z.of_nat i <> 0%Z by nat_lia.
  rewrite -/(inverse_value f (Z.of_nat i)).
  have -> : ta_write (found ++ nseq (nu - size found) 0%Z)
              (Z.of_nat (size found)) (inverse_value f (Z.of_nat i))
            = rcons found (inverse_value f (Z.of_nat i))
              ++ nseq (nu - size (rcons found (inverse_value f (Z.of_nat i))))
                   0%Z.
    rewrite /ta_write Nat2Z.id size_cat size_nseq.
    have /Z.leb_le -> : (0 <= Z.of_nat (size found))%Z by lia.
    have -> : (size found < size found + (nu - size found))%N by nat_lia.
    rewrite -[X in set_nth _ _ X]addn0 set_nth_cat_r size_rcons cat_rcons.
    have -> : (nu - size found = (nu - (size found).+1).+1)%N by nat_lia.
    by [].
  have -> : (Z.of_nat (size found) + 1)%Z
            = Z.of_nat (size (rcons found (inverse_value f (Z.of_nat i)))).
    by rewrite size_rcons; lia.
  by rewrite ih ?size_rcons // cat_rcons.
have es : size found = nu by apply/eqP; rewrite eqn_leq hs hge.
have /Z.ltb_ge -> : (Z.of_nat nu <= Z.of_nat (size found))%Z by nat_lia.
rewrite ih // -es !take_size_cat //.
Qed.

(** X20.  find_error_locations on a locator of degree 1 returns its
    coefficient of x; on any other locator of degree n it searches
    1 .. size-1 in increasing order and returns the inverses of the first
    n roots, or throws 'Error locator degree does not match number of
    roots' when the locator has fewer than n roots there. *)
Theorem X20_find_error_locations (f : Generic_GF.t)
    (sg : Generic_GF_Poly.t) :
  sg <> [::] ->
  RS_Decoder.find_error_locations f sg
  = if (Generic_GF_Poly.degree sg =? 1)%Z then
      Return [:: to_int32 (Generic_GF_Poly.get_coefficient sg 1)]
    else if (size (locator_roots f sg)
             < Z.to_nat (Generic_GF_Poly.degree sg))%N
    then Throw LocatorDegreeMismatch
    else Return [seq inverse_value f (Z.of_nat i)
                | i <- take (Z.to_nat (Generic_GF_Poly.degree sg))
                         (locator_roots f sg)].
Proof.
move=> hn; rewrite /RS_Decoder.find_error_locations.
case: ifP => // _.
have hd : (0 <= Generic_GF_Poly.degree sg)%Z.
  rewrite /Generic_GF_Poly.degree; case: sg hn => // x s _.
  by rewrite [size _]/=; lia.
set nu := Z.to_nat (Generic_GF_Poly.degree sg).
have en : Generic_GF_Poly.degree sg = Z.of_nat nu by rewrite /nu Z2Nat.id.
have ha : all (fun i => (0 < i)%N)
            (iota 1 (Z.to_nat (Generic_GF.size f) - 1)).
  by apply/allP => i; rewrite mem_iota => /andP [].
have := @search_fold f sg nu _ [::] ha (leq0n nu).
rewrite /RS_Decoder.chien_search en Nat2Z.id subn0 cat0s -/(locator_roots f sg).
move=> -> /=; rewrite -map_take size_map size_take.
have [h|h] := ltnP (size (locator_roots f sg)) nu.
  rewrite ltnNge (ltnW h) /=.
  have /Z.eqb_neq -> //: Z.of_nat (size (locator_roots f sg)) <> Z.of_nat nu.
  by nat_lia.
have [h2|h2] := ltnP nu (size (locator_roots f sg)).
  by rewrite Z.eqb_refl subnn cats0.
have e : size (locator_roots f sg) = nu by apply/eqP; rewrite eqn_leq h h2.
by rewrite e Z.eqb_refl subnn cats0.
Qed.

Lemma X20_find_error_locations_witness :
  RS_Decoder.find_error_locations GF_QR_CODE_256 [:: 2; 3; 1]%Z
  = if (Generic_GF_Poly.degree [:: 2; 3; 1]%Z =? 1)%Z then
      Return [:: to_int32 (Generic_GF_Poly.get_coefficient [:: 2; 3; 1]%Z 1)]
    else if (size (locator_roots GF_QR_CODE_256 [:: 2; 3; 1]%Z)
             < Z.to_nat (Generic_GF_Poly.degree [:: 2; 3; 1]%Z))%N
    then Throw LocatorDegreeMismatch
    else Return [seq inverse_value GF_QR_CODE_256 (Z.of_nat i)
                | i <- take (Z.to_nat (Generic_GF_Poly.degree [:: 2; 3; 1]%Z))
                         (locator_roots GF_QR_CODE_256 [:: 2; 3; 1]%Z)].
Proof. by apply: (@X20_find_error_locations GF_QR_CODE_256 [:: 2; 3; 1]%Z). Defined.

(** X21.  The search of find_error_locations finds exactly the locations:
    for the locator (x_1 x + 1) ... (x_n x + 1) built by multiply_poly from
    distinct nonzero bytes x_1 .. x_n, it returns a permutation of
    x_1 .. x_n. *)
Theorem X21_locations_of_locator (primitive gb : Z) (xs : seq Z) :
  GF_invariant (Generic_GF.new primitive 256 gb) ->
  all pos_byte xs -> uniq xs ->
  exists locs,
    RS_Decoder.find_error_locations (Generic_GF.new primitive 256 gb)
      (foldl (fun p x =>
                Generic_GF_Poly.multiply_poly (Generic_GF.new primitive 256 gb)
                  p [:: x; 1%Z])
         Generic_GF_Poly.one xs) = Return locs
    /\ perm_eq locs xs.
Proof.
by move=> hwf hp hu; exact: (locations_found (GF_valid_intro hwf) hp hu).
Qed.

Lemma X21_locations_of_locator_witness :
  exists locs,
    RS_Decoder.find_error_locations GF_DATA_MATRIX_256
      (foldl (fun p x =>
                Generic_GF_Poly.multiply_poly GF_DATA_MATRIX_256 p [:: x; 1%Z])
         Generic_GF_Poly.one [:: 200; 3; 77]%Z) = Return locs
    /\ perm_eq locs [:: 200; 3; 77]%Z.
Proof.
apply: (@X21_locations_of_locator 0x012d 1 [:: 200; 3; 77]%Z).
- by vm_compute.
- by vm_compute.
- by vm_compute.
Defined.

(** X22.  The two branches of multiply agree: multiplying a polynomial by
    a number (multiply_scalar) gives what multiply_poly gives with the
    constant polynomial of that number. *)
Theorem X22_multiply_scalar_is_multiply_poly (primitive gb : Z)
    (p : Generic_GF_Poly.t) (s : Z) :
  GF_invariant (Generic_GF.new primitive 256 gb) -> wfp p -> byte s ->
  Generic_GF_Poly.multiply_scalar (Generic_GF.new primitive 256 gb) p s
  = Generic_GF_Poly.multiply_poly (Generic_GF.new primitive 256 gb) p [:: s].
Proof. by move=> hwf; exact: (scalar_mul (GF_valid_intro hwf)). Qed.

Lemma X22_multiply_scalar_is_multiply_poly_witness :
  Generic_GF_Poly.multiply_scalar GF_QR_CODE_256 [:: 3; 0; 7]%Z 19
  = Generic_GF_Poly.multiply_poly GF_QR_CODE_256 [:: 3; 0; 7]%Z [:: 19]%Z.
Proof.
apply: (@X22_multiply_scalar_is_multiply_poly 0x011d 0 [:: 3; 0; 7]%Z 19).
- by vm_compute.
- by vm_compute.
- by rewrite /byte; lia.
Defined.

(** X23.  Whatever the primitive polynomial and the generator base, the
    constructor of a field of size 256 builds tables of 256 entries; every
    exp is a byte (0 outside the table) and every entry of the log table
    is an exponent in [0, 255). *)
Theorem X23_tables_in_range (primitive gb a : Z) :
  [/\ size (Generic_GF.exp_table (Generic_GF.new primitive 256 gb)) = 256%N,
      size (Generic_GF.log_table (Generic_GF.new primitive 256 gb)) = 256%N,
      (0 <= Generic_GF.exp (Generic_GF.new primitive 256 gb) a < 256)%Z
    & (0 <= ta_get (Generic_GF.log_table (Generic_GF.new primitive 256 gb)) a
       < 255)%Z].
Proof.
split.
- by rewrite gf_exp_tableE // size_exp_loop.
- by rewrite gf_log_tableE // size_log_loop size_nseq.
- have [hi|hi] := Z.lt_ge_cases a 0.
    by rewrite /Generic_GF.exp ta_get_neg.
  have [h|h] := Z.lt_ge_cases a 256.
    rewrite (gf_E_pwZ primitive gb two_le_256) //.
    elim: (Z.to_nat a) => [|n ih] //.
    by rewrite gf_pwS; exact: byte_double.
  rewrite /Generic_GF.exp ta_get_nth // nth_default //.
  by rewrite gf_exp_tableE // size_exp_loop; nat_lia.
- exact: (@gf_Lg_range primitive 256 gb two_le_256).
Qed.

Lemma apply_corrections_throws f received locs mags e :
  (RS_Decoder.apply_corrections f received locs mags).2 = Throw e ->
  e = BadErrorLocation \/ e = IllegalArgumentException.
Proof.
rewrite /RS_Decoder.apply_corrections.
move: (iota 0 (size locs)) => l.
have : forall e0, (received, Return tt : outcome unit).2 = Throw e0 ->
         e0 = BadErrorLocation \/ e0 = IllegalArgumentException by [].
elim: l (received, Return tt : outcome unit) => [|i l ih] st hst /=.
  exact: hst.
apply: ih => e0; case: st hst => r [u|e1|] hst //=; last exact: hst.
rewrite /Generic_GF.log; case: ifP => _ /=; first by case=> <-; right.
by case: ifP => _ //= -[<-]; left.
Qed.

(** X24.  When decode raises an error other than 'Bad error location' and
    'IllegalArgumentException()', it has not written to the buffer: the
    errors of the field arithmetic, of the Euclidean algorithm and of the
    root search are raised before the first correction. *)
Theorem X24_decode_failure_frame (f : Generic_GF.t) (received : seq Z)
    (ec_len : Z) (e : exn) :
  (RS_Decoder.decode f received ec_len).2 = Throw e ->
  e <> BadErrorLocation -> e <> IllegalArgumentException ->
  (RS_Decoder.decode f received ec_len).1 = received.
Proof.
rewrite /RS_Decoder.decode; case: (Generic_GF_Poly.new _) => [poly|e0|] //.
case: ifP => // _; case: ifP => // _.
case: (RS_Decoder.locate _ _ _) => [lm|e0|] //.
by move=> /apply_corrections_throws [] -> //.
Qed.

Lemma X24_decode_failure_frame_witness :
  (RS_Decoder.decode GF_DATA_MATRIX_256
     [:: 1; 2; 3; 114; 25; 5; 88; 102]%Z 5).1
  = [:: 1; 2; 3; 114; 25; 5; 88; 102]%Z.
Proof.
apply: (@X24_decode_failure_frame GF_DATA_MATRIX_256
          [:: 1; 2; 3; 114; 25; 5; 88; 102]%Z 5 LocatorDegreeMismatch).
- by vm_compute.
- by [].
- by [].
Defined.

(** X25.  Over a GF(2^8) field whose generator base is 0 or 1, when the
    received bytes differ from a valid codeword of at most 255 bytes in at
    most floor(ec_len / 2) positions, the Euclidean algorithm, the root
    search (find_error_locations) and Forney's formula
    (find_error_magnitudes) run by decode return without error one location
    and one magnitude per corrupted byte: the positions
    received.length - 1 - log(location) are exactly the corrupted
    positions, each once, no location is 0, and each magnitude is the XOR
    of the received byte and the codeword's byte at its position. *)
Theorem X25_locations_and_magnitudes (primitive gb : Z)
    (codeword received : seq Z) (ec_len : Z) :
  GF_invariant (Generic_GF.new primitive 256 gb) ->
  gb = 0%Z \/ gb = 1%Z ->
  valid_codeword (Generic_GF.new primitive 256 gb) codeword ec_len ->
  (1 <= ec_len)%Z -> (ec_len < Z.of_nat (size codeword))%Z ->
  (size codeword <= 255)%N ->
  all is_byte received -> size received = size codeword ->
  (2 * Z.of_nat
         (count (fun i => nth 0%Z received i != nth 0%Z codeword i)
            (iota 0 (size codeword))) <= ec_len)%Z ->
  exists locs mags,
    [/\ RS_Decoder.locate (Generic_GF.new primitive 256 gb)
          (rev (RS_Decoder.syndrome_values (Generic_GF.new primitive 256 gb)
                  (Generic_GF_Poly.strip received) ec_len)) ec_len
        = Return (locs, mags),
        size mags = size locs,
        perm_eq
          [seq error_position (Generic_GF.new primitive 256 gb) received l
          | l <- locs]
          (filter (fun k => nth 0%Z received k != nth 0%Z codeword k)
             (iota 0 (size received)))
      & forall i, (i < size locs)%N ->
          nth 0%Z locs i <> 0%Z
          /\ nth 0%Z mags i
             = Z.lxor
                 (nth 0%Z received
                    (error_position (Generic_GF.new primitive 256 gb)
                       received (nth 0%Z locs i)))
                 (nth 0%Z codeword
                    (error_position (Generic_GF.new primitive 256 gb)
                       received (nth 0%Z locs i)))].
Proof.
move=> hwf hg /and4P [_ hb _ hs] hec hlt hn hr hsz hcount.
exact: (valid_corrupt_locate (GF_valid_intro hwf) hg hb hs hec hlt hn hr hsz
          hcount).
Qed.

Lemma X25_locations_and_magnitudes_witness :
  exists locs mags,
    [/\ RS_Decoder.locate GF_DATA_MATRIX_256
          (rev (RS_Decoder.syndrome_values GF_DATA_MATRIX_256
                  (Generic_GF_Poly.strip
                     [:: 142; 0; 186; 114; 25; 5; 88; 7]%Z) 5)) 5
        = Return (locs, mags),
        size mags = size locs,
        perm_eq
          [seq error_position GF_DATA_MATRIX_256
                 [:: 142; 0; 186; 114; 25; 5; 88; 7]%Z l
          | l <- locs]
          (filter (fun k =>
                     nth 0%Z [:: 142; 0; 186; 114; 25; 5; 88; 7]%Z k
                     != nth 0%Z [:: 142; 164; 186; 114; 25; 5; 88; 102]%Z k)
             (iota 0 (size [:: 142; 0; 186; 114; 25; 5; 88; 7]%Z)))
      & forall i, (i < size locs)%N ->
          nth 0%Z locs i <> 0%Z
          /\ nth 0%Z mags i
             = Z.lxor
                 (nth 0%Z [:: 142; 0; 186; 114; 25; 5; 88; 7]%Z
                    (error_position GF_DATA_MATRIX_256
                       [:: 142; 0; 186; 114; 25; 5; 88; 7]%Z
                       (nth 0%Z locs i)))
                 (nth 0%Z [:: 142; 164; 186; 114; 25; 5; 88; 102]%Z
                    (error_position GF_DATA_MATRIX_256
                       [:: 142; 0; 186; 114; 25; 5; 88; 7]%Z
                       (nth 0%Z locs i)))].
Proof.
apply: (@X25_locations_and_magnitudes 0x012d 1
          [:: 142; 164; 186; 114; 25; 5; 88; 102]%Z
          [:: 142; 0; 186; 114; 25; 5; 88; 7]%Z 5).
- by vm_compute.
- by right.
- by vm_compute.
- by vm_compute.
- by vm_compute.
- by vm_compute.
- by vm_compute.
- by vm_compute.
- by vm_compute.
Defined.

(** X26.  decode restores every valid codeword, however it was produced:
    over a GF(2^8) field whose generator base is 0 or 1, a received buffer
    of bytes that differs in at most floor(ec_len / 2) positions from a
    buffer of at most 255 bytes with zero syndromes is decoded without
    error to that buffer. *)
Theorem X26_decode_nearest_codeword (primitive gb : Z)
    (codeword received : seq Z) (ec_len : Z) :
  GF_invariant (Generic_GF.new primitive 256 gb) ->
  gb = 0%Z \/ gb = 1%Z ->
  valid_codeword (Generic_GF.new primitive 256 gb) codeword ec_len ->
  (1 <= ec_len)%Z -> (ec_len < Z.of_nat (size codeword))%Z ->
  (size codeword <= 255)%N ->
  all is_byte received -> size received = size codeword ->
  (2 * Z.of_nat
         (count (fun i => nth 0%Z received i != nth 0%Z codeword i)
            (iota 0 (size codeword))) <= ec_len)%Z ->
  RS_Decoder.decode (Generic_GF.new primitive 256 gb) received ec_len
  = (codeword, Return tt).
Proof.
move=> hwf hg /and4P [_ hb _ hs] hec hlt hn hr hsz hcount.
exact: (valid_corrupt_decode (GF_valid_intro hwf) hg hb hs hec hlt hn hr hsz
          hcount).
Qed.

Lemma X26_decode_nearest_codeword_witness :
  RS_Decoder.decode GF_DATA_MATRIX_256
    [:: 142; 0; 186; 114; 25; 5; 88; 7]%Z 5
  = ([:: 142; 164; 186; 114; 25; 5; 88; 102]%Z, Return tt).
Proof.
apply: (@X26_decode_nearest_codeword 0x012d 1
          [:: 142; 164; 186; 114; 25; 5; 88; 102]%Z
          [:: 142; 0; 186; 114; 25; 5; 88; 7]%Z 5).
- by vm_compute.
- by right.
- by vm_compute.
- by vm_compute.
- by vm_compute.
- by vm_compute.
- by vm_compute.
- by vm_compute.
- by vm_compute.
Defined.
